(** * iocdi: a reflection-based dependency-injection container

    Shallow embedding of the Go package [iocdi] (files [internal.go],
    [initializer.go], [hooks.go] and the constants file) together with the
    properties of its build pipeline.

    Modelling conventions
    - [reflect.Type] is the inductive [gotype]; struct and interface types are
      named, and the field list of a struct is looked up in the declaration
      table [decls] (Go types may be recursive through pointers).
    - A Go value held in an [any] or in a struct field is a [value]; pointers
      are indices into a heap of cells, [VNil] is the nil interface (and the
      zero [reflect.Value]).
    - Go maps are [gmap]s.  The order of a [range] over a map is chosen by the
      runtime: every such loop takes a priority list from which the order is
      derived ([rangeKeys]); every permutation of the keys can be obtained.
    - Functions that mutate the container, the heap or the global call logs
      are state transformers in the monad [M]; the state reached is returned
      on failure as well, since Go does not roll anything back.
    - [fmt.Errorf] is string concatenation; a run-time panic is the outcome
      [Panic]. *)

From Stdlib Require Import ZArith Ascii String List Lia.
From stdpp Require Import base tactics option list gmap strings fin_maps.

Open Scope string_scope.
Open Scope list_scope.

(** ** Constants ([emptyString], [pathSep], the [di.inject] tag key) *)

Definition emptyString : string := EmptyString.
Definition pathSep : string := " -> ".
Definition inject : string := "di.inject".

(** ** Errors ([errors.New]) *)

Definition ErrBeanIdParamIsEmpty : string := "beanID parameter is empty".
Definition ErrBeanTypeParamIsNil : string := "beanType parameter is nil".
Definition ErrBeanParamIsNil : string := "bean parameter is nil".
Definition ErrBeanTypeNotSupported : string := "beanType is not supported".
Definition ErrRegistrationClosed : string :=
  "container already built; registration is closed".

(** ** Strings: [strings.ToLower], [strings.Contains], [strings.Join] *)

(** [strings.ToLower] on the ASCII range; bytes outside [A-Z] are kept. *)
Definition lowerAscii (c : ascii) : ascii :=
  let n := nat_of_ascii c in
  if (65 <=? n)%nat && (n <=? 90)%nat then ascii_of_nat (n + 32) else c.

Fixpoint ToLower (s : string) : string :=
  match s with
  | EmptyString => EmptyString
  | String c r => String (lowerAscii c) (ToLower r)
  end.

Fixpoint Contains (s substr : string) : bool :=
  String.prefix substr s ||
  match s with
  | EmptyString => false
  | String _ r => Contains r substr
  end.

Fixpoint Join (elems : list string) (sep : string) : string :=
  match elems with
  | [] => emptyString
  | [x] => x
  | x :: rest => x +:+ sep +:+ Join rest sep
  end.

(** The loop of [joinPath]: [i] is the index of the head of [p]. *)
Fixpoint joinLoop (i : nat) (p : list string) (s : string) : string :=
  match p with
  | [] => s
  | v :: rest =>
      let s := if (0 <? i)%nat then s +:+ pathSep else s in
      joinLoop (S i) rest (s +:+ v)
  end.

Definition joinPath (p : list string) (last : string) : string :=
  let s := joinLoop 0 p emptyString in
  if decide (last = emptyString) then s
  else (if (0 <? String.length s)%nat then s +:+ pathSep else s) +:+ last.

(** ** Types ([reflect.Type], [reflect.Kind], [reflect.StructField]) *)

Inductive Kind := KString | KInt | KStruct | KInterface | KPtr.

Inductive gotype :=
| TString
| TInt                          (* stands for the other scalar kinds *)
| TStruct (name : string)
| TInterface (name : string)
| TPtr (elem : gotype).

Record StructField := {
  fname : string;
  ftype : gotype;
  ftag : option string;         (* the value of the di.inject key, if any *)
  fexported : bool
}.

Global Instance Kind_eq_dec : EqDecision Kind.
Proof. solve_decision. Defined.

Global Instance gotype_eq_dec : EqDecision gotype.
Proof. solve_decision. Defined.

Definition kind (t : gotype) : Kind :=
  match t with
  | TString => KString
  | TInt => KInt
  | TStruct _ => KStruct
  | TInterface _ => KInterface
  | TPtr _ => KPtr
  end.

(** [Type.Elem()]; it panics on anything but a pointer ([None]). *)
Definition Elem (t : gotype) : option gotype :=
  match t with
  | TPtr e => Some e
  | _ => None
  end.

(** [t.Kind() == reflect.Ptr && t.Elem().Kind() == reflect.Struct] *)
Definition isPtrToStruct (t : gotype) : bool :=
  match t with
  | TPtr e => bool_decide (kind e = KStruct)
  | _ => false
  end.

Definition kindString (k : Kind) : string :=
  match k with
  | KString => "string"
  | KInt => "int"
  | KStruct => "struct"
  | KInterface => "interface"
  | KPtr => "ptr"
  end.

Fixpoint typeString (t : gotype) : string :=
  match t with
  | TString => "string"
  | TInt => "int"
  | TStruct n => n
  | TInterface n => n
  | TPtr e => "*" +:+ typeString e
  end.

(** ** Values and the heap *)

#[warnings="-register-all"]
Inductive value :=
| VNil
| VStr (s : string)
| VInt (n : Z)
| VPtr (elem : gotype) (target : option nat)
| VStruct (name : string) (fields : list value).

Definition Heap := list value.

(** The dynamic type of a value; [None] for the invalid [reflect.Value]. *)
Definition typeOf (v : value) : option gotype :=
  match v with
  | VNil => None
  | VStr _ => Some TString
  | VInt _ => Some TInt
  | VPtr e _ => Some (TPtr e)
  | VStruct n _ => Some (TStruct n)
  end.

Definition isNil (v : value) : bool :=
  match v with
  | VNil => true
  | _ => false
  end.

(** ** Outcomes and the state monad *)

Inductive outcome (A : Type) :=
| Ok (a : A)
| Err (msg : string)
| Panic (msg : string)
| OutOfFuel.
Arguments Ok {A} a.
Arguments Err {A} msg.
Arguments Panic {A} msg.
Arguments OutOfFuel {A}.

Definition M (S A : Type) : Type := S → outcome A * S.

Definition ret {S A} (a : A) : M S A := λ s, (Ok a, s).
Definition throw {S A} (msg : string) : M S A := λ s, (Err msg, s).
Definition panic {S A} (msg : string) : M S A := λ s, (Panic msg, s).
Definition bind {S A B} (m : M S A) (k : A → M S B) : M S B :=
  λ s,
    match m s with
    | (Ok a, s') => k a s'
    | (Err e, s') => (Err e, s')
    | (Panic e, s') => (Panic e, s')
    | (OutOfFuel, s') => (OutOfFuel, s')
    end.
Definition get {S} : M S S := λ s, (Ok s, s).
Definition modify {S} (f : S → S) : M S unit := λ s, (Ok tt, f s).

Notation "'let*' x ':=' m 'in' k" := (bind m (λ x, k))
  (at level 10, x pattern, m at level 200, k at level 200).
Notation "m ';;' k" := (bind m (λ _, k))
  (at level 100, k at level 200, right associativity).

(** A [for] loop over a list whose body threads a loop-carried variable. *)
Fixpoint foldM {S A B} (body : B → A → M S B) (b : B) (l : list A) : M S B :=
  match l with
  | [] => ret b
  | x :: rest => bind (body b x) (λ b', foldM body b' rest)
  end.

Definition forM {S A} (l : list A) (body : A → M S unit) : M S unit :=
  foldM (λ _ x, body x) tt l.

Definition isOk {A} (o : outcome A) : bool :=
  match o with
  | Ok _ => true
  | _ => false
  end.

(** Running a computation on a component of the state. *)
Definition zoom {S T A} (proj : S → T) (upd : T → S → S) (m : M T A) : M S A :=
  λ s, let '(o, t) := m (proj s) in (o, upd t s).

(** ** [range] over a map

    The keys of [m] in the order given by the priority list [prio]: the keys
    listed in [prio] first, in that order, then the remaining ones. *)
Definition mapKeys {A} (m : gmap string A) : list string := (map_to_list m).*1.

Definition rangeKeys {A} (prio : list string) (m : gmap string A) : list string :=
  remove_dups (filter (λ k, k ∈ mapKeys m) prio)
  ++ filter (λ k, k ∉ prio) (mapKeys m).

(** ** The data model ([bean], [Container]) *)

Record bean := mkBean {
  beanID : string;              (* field [id] *)
  beanType : gotype;
  instance : value;
  singleton : bool;
  hasDependencies : bool;
  dependencies : list string
}.

(** The zero descriptor, returned by indexing the registry at a missing key.
    Its type is nil in Go; the code never inspects the type of a descriptor
    obtained this way, [TInt] is a placeholder. *)
Definition zeroBean : bean :=
  mkBean emptyString TInt VNil false false [].

Global Instance bean_inhabited : Inhabited bean := populate zeroBean.

Record Container := mkContainer {
  built : bool;
  requiredDependency : gmap string gotype;
  registeredBeans : gmap string bean
}.

Definition New : Container := mkContainer false ∅ ∅.

(** The container together with the process-wide state the build touches:
    the heap, the log of the calls made to the literal provider, and the log
    of the calls made to the [Initialize] hooks with what they returned. *)
Record State := mkState {
  cont : Container;
  heap : Heap;
  providerCalls : list (string * gotype);
  initCalls : list (string * option string)
}.

Definition setCont (c : Container) (s : State) : State :=
  mkState c (heap s) (providerCalls s) (initCalls s).
Definition setHeap (h : Heap) (s : State) : State :=
  mkState (cont s) h (providerCalls s) (initCalls s).
Definition setBuilt (b : bool) (s : State) : State :=
  setCont (mkContainer b (requiredDependency (cont s)) (registeredBeans (cont s))) s.
Definition setRequired (r : gmap string gotype) (s : State) : State :=
  setCont (mkContainer (built (cont s)) r (registeredBeans (cont s))) s.
Definition setBeans (r : gmap string bean) (s : State) : State :=
  setCont (mkContainer (built (cont s)) (requiredDependency (cont s)) r) s.
Definition logProviderCall (id : string) (t : gotype) (s : State) : State :=
  mkState (cont s) (heap s) (providerCalls s ++ [(id, t)]) (initCalls s).
Definition logInitCall (id : string) (r : option string) (s : State) : State :=
  mkState (cont s) (heap s) (providerCalls s) (initCalls s ++ [(id, r)]).

Definition beans (s : State) : gmap string bean := registeredBeans (cont s).
Definition required (s : State) : gmap string gotype := requiredDependency (cont s).

Definition initState : State := mkState New [] [] [].

(** ** The program environment

    [envDecls] are the struct declarations of the program, [envImplements t i]
    is [t.Implements(i)] (method sets are not modelled), [envProvider] is the
    hook installed by [SetLiteralProvider] ([None]: the typed nil stored by
    [init]), and [envInitializerOf t] is the [Initialize] method of the values
    of dynamic type [t], when [t] implements [Initializer]. *)

Record Env := mkEnv {
  envDecls : list (string * list StructField);
  envImplements : gotype → gotype → bool;
  envProvider : option (string → gotype → value * bool * option string);
  envInitializerOf : gotype → option (value → Heap → option string * Heap)
}.

Section Iocdi.

Variable env : Env.

Local Abbreviation decls := (envDecls env).
Local Abbreviation implements := (envImplements env).
Local Abbreviation literalProvider := (envProvider env).
Local Abbreviation initializerOf := (envInitializerOf env).

(** [loadLiteralProvider] returns the installed provider (may be nil). *)
Definition loadLiteralProvider : option (string → gotype → value * bool * option string) :=
  literalProvider.

Fixpoint lookupDecl (ds : list (string * list StructField)) (n : string) : list StructField :=
  match ds with
  | [] => []
  | (m, fs) :: rest => if decide (m = n) then fs else lookupDecl rest n
  end.

(** The fields of a struct type ([Type.NumField], [Type.Field]). *)
Definition fieldsOf (t : gotype) : list StructField :=
  match t with
  | TStruct n => lookupDecl decls n
  | _ => []
  end.

(** The zero value of a type; struct values nest at most as deep as there
    are declarations. *)
Fixpoint zeroFuel (fuel : nat) (t : gotype) : value :=
  match t with
  | TString => VStr emptyString
  | TInt => VInt 0
  | TInterface _ => VNil
  | TPtr e => VPtr e None
  | TStruct n =>
      match fuel with
      | O => VStruct n []
      | S fuel' => VStruct n (map (λ f, zeroFuel fuel' (ftype f)) (lookupDecl decls n))
      end
  end.

Definition zeroValue (t : gotype) : value := zeroFuel (length decls) t.

(** [reflect.New(t)]: a fresh cell holding the zero value of [t]. *)
Definition alloc (v : value) : M Heap nat := λ h, (Ok (length h), h ++ [v]).

Definition reflectNew (t : gotype) : M Heap value :=
  let* l := alloc (zeroValue t) in ret (VPtr t (Some l)).

(** ** [checkForDependency] *)

Definition recordDependency (tagName : string) (t : gotype)
    (acc : gmap string gotype * bool * list string) : gmap string gotype * bool * list string :=
  let '(req, _, ids) := acc in (<[tagName := t]> req, true, ids ++ [tagName]).

(** The body of the loop over the fields. *)
Definition scanField (acc : gmap string gotype * bool * list string) (field : StructField)
    : gmap string gotype * bool * list string :=
  match ftag field with
  | None => acc
  | Some tag =>
      let tagName := ToLower tag in
      if fexported field then
        let acc :=
          match ftype field with
          | TPtr e => if decide (kind e = KStruct) then recordDependency tagName e acc else acc
          | _ => acc
          end in
        let acc :=
          if decide (kind (ftype field) = KString)
          then recordDependency tagName (ftype field) acc else acc in
        let acc :=
          if decide (kind (ftype field) = KInterface)
          then recordDependency tagName (ftype field) acc else acc in
        acc
      else acc
  end.

Definition scanFields (fields : list StructField) (req : gmap string gotype)
    : gmap string gotype * bool * list string :=
  fold_left scanField fields (req, false, []).

Definition checkForDependency (beanType : gotype) : M (gmap string gotype) (bool * list string) :=
  match beanType with
  | TPtr e =>
      if decide (kind e = KStruct) then
        λ req, let '(req', has, ids) := scanFields (fieldsOf e) req in (Ok (has, ids), req')
      else ret (false, [])
  | TStruct _ => panic "reflect: Elem of invalid type"
  | _ => ret (false, [])
  end.

(** ** [Register] and [RegisterInstance] *)

Definition storeBean (b : bean) : M State unit :=
  modify (λ s, setBeans (<[beanID b := b]> (beans s)) s).

Definition Register (beanID : string) (beanType : option gotype) : M State unit :=
  if decide (beanID = emptyString) then throw ErrBeanIdParamIsEmpty
  else match beanType with
  | None => throw ErrBeanTypeParamIsNil
  | Some beanType =>
      let* s := get in
      if built (cont s) then throw ErrRegistrationClosed
      else
        let beanID := ToLower beanID in
        let* beanType :=
          match kind beanType with
          | KPtr => ret beanType
          | KStruct => ret (TPtr beanType)
          | _ => throw ErrBeanTypeNotSupported
          end in
        let* (hasDeps, deps) := zoom required setRequired (checkForDependency beanType) in
        storeBean (mkBean beanID beanType VNil false hasDeps deps)
  end.

Definition RegisterInstance (beanID : string) (instance : value) : M State unit :=
  if decide (beanID = emptyString) then throw ErrBeanIdParamIsEmpty
  else match typeOf instance with
  | None => throw ErrBeanParamIsNil
  | Some beanType =>
      let* s := get in
      if built (cont s) then throw ErrRegistrationClosed
      else
        let beanID := ToLower beanID in
        let* (instance, beanType) :=
          if decide (kind beanType = KStruct) then
            let* l := zoom heap setHeap (alloc instance) in
            ret (VPtr beanType (Some l), TPtr beanType)
          else ret (instance, beanType) in
        let* (has, deps) := zoom required setRequired (checkForDependency beanType) in
        storeBean (mkBean beanID beanType instance true has deps)
  end.

(** ** [createInstance] *)

Definition createInstance (beanType : gotype) : M Heap value :=
  match beanType with
  | TPtr e => reflectNew e
  | TStruct _ => reflectNew beanType
  | _ => throw ("beanType is not supported: " +:+ kindString (kind beanType))
  end.

(** ** [injectIntoStruct] *)

(** [x] may be stored by [reflect.Value.Set] into a field of type [t]. *)
Definition assignable (x : value) (t : gotype) : bool :=
  match typeOf x with
  | None => false
  | Some tx => bool_decide (tx = t) || (bool_decide (kind t = KInterface) && implements tx t)
  end.

(** [fv.Set(x)] where [fv] is field [i] of the struct held in cell [l]. *)
Definition setField (l i : nat) (fieldType : gotype) (x : value) : M Heap unit :=
  λ h,
    if assignable x fieldType then
      match h !! l with
      | Some (VStruct n fs) => (Ok tt, <[l := VStruct n (<[i := x]> fs)]> h)
      | _ => (Panic "reflect: Field of non-struct value", h)
      end
    else (Panic "reflect.Set: value is not assignable to the field type", h).

(** [ptr.Elem().Set(x)] for the cell of a pointer to [t]. *)
Definition setCell (l : nat) (t : gotype) (x : value) : M Heap unit :=
  λ h,
    if assignable x t then (Ok tt, <[l := x]> h)
    else (Panic "reflect.Set: value is not assignable to the element type", h).

(** [v.Elem()]: the pointee; the zero Value for a nil pointer. *)
Definition derefValue (v : value) : M Heap value :=
  λ h,
    match v with
    | VPtr _ (Some l) =>
        match h !! l with
        | Some x => (Ok x, h)
        | None => (Panic "invalid memory address", h)
        end
    | VPtr _ None => (Ok VNil, h)
    | _ => (Panic "reflect: call of reflect.Value.Elem on non-pointer Value", h)
    end.

(** [rv]: the struct the receiver instance denotes, with its cell when it is
    addressable; [None] when [rv.Kind() != reflect.Struct]. *)
Definition receiverOf (inst : value) : option (option nat * gotype) :=
  match inst with
  | VPtr e (Some l) => if decide (kind e = KStruct) then Some (Some l, e) else None
  | VStruct n _ => Some (None, TStruct n)
  | _ => None
  end.

(** The body of the loop over the receiver's fields. *)
Definition injectField (cell : option nat) (depBean : bean) (i : nat) (sf : StructField)
    : M Heap unit :=
  let depVal := instance depBean in
  let depType := beanType depBean in
  let tagVal := default emptyString (ftag sf) in
  if decide (tagVal = emptyString) then ret tt
  else if decide (ToLower tagVal = beanID depBean) then
    match cell with
    | None => ret tt                       (* CanSet: not addressable *)
    | Some l =>
        if negb (fexported sf) then ret tt (* CanSet: not exported *)
        else
          let fieldType := ftype sf in
          if decide (fieldType = depType) then
            match depType with
            | TPtr e =>
                if bool_decide (kind e = KStruct) && (length (fieldsOf e) =? 0)%nat then
                  let* p := reflectNew e in setField l i fieldType p
                else setField l i fieldType depVal
            | _ => setField l i fieldType depVal
            end
          else if decide (kind fieldType = KInterface) then
            match typeOf depVal with
            | None => panic "reflect: call of reflect.Value.Type on zero Value"
            | Some t =>
                if implements t fieldType then setField l i fieldType depVal else ret tt
            end
          else if bool_decide (kind fieldType = KPtr) && bool_decide (kind depType = KStruct)
                  && bool_decide (Elem fieldType = Some depType) then
            let* l' := alloc (zeroValue depType) in
            setCell l' depType depVal;;
            setField l i fieldType (VPtr depType (Some l'))
          else if bool_decide (kind fieldType = KStruct) && bool_decide (kind depType = KPtr)
                  && bool_decide (Elem depType = Some fieldType) then
            let* x := derefValue depVal in setField l i fieldType x
          else if bool_decide (kind fieldType = KPtr) && bool_decide (kind depType = KPtr)
                  && bool_decide (Elem fieldType = Elem depType) then
            setField l i fieldType depVal
          else ret tt
    end
  else ret tt.

Definition indexed {A} (l : list A) : list (nat * A) := zip (seq 0 (length l)) l.

Definition injectIntoStruct (receiverBean depBean : bean) (chain : list string) : M Heap unit :=
  if bool_decide (beanID depBean ∈ chain) then
    throw ("dependency cycle detected: " +:+ Join chain pathSep +:+ " -> " +:+ beanID depBean)
  else
    match receiverOf (instance receiverBean) with
    | None =>
        throw ("injectIntoStruct: receiver bean '" +:+ beanID receiverBean +:+ "' is not a struct")
    | Some (cell, t) =>
        forM (indexed (fieldsOf t)) (λ '(i, sf), injectField cell depBean i sf)
    end.

(** ** [injectDependencies] *)

Record Dfs := mkDfs {
  visited : gset string;        (* fully processed *)
  onPath : gset string;         (* nodes in the current recursion stack *)
  path : list string            (* ordered path for clear errors *)
}.

Definition onState {A} (m : M State A) : M (State * Dfs) A :=
  zoom fst (λ t s, (t, s.2)) m.
Definition onHeap {A} (m : M Heap A) : M State A := zoom heap setHeap m.

Definition enterNode (id : string) : M (State * Dfs) unit :=
  modify (λ s, (s.1, mkDfs (visited s.2) ({[id]} ∪ onPath s.2) (path s.2 ++ [id]))).
Definition leaveNode (id : string) : M (State * Dfs) unit :=
  modify (λ s, (s.1, mkDfs ({[id]} ∪ visited s.2) (onPath s.2 ∖ {[id]})
                            (take (length (path s.2) - 1) (path s.2)))).

Definition depNotFound (depBeanID receiverID : string) : string :=
  "injectDependencies: dependency bean '" +:+ depBeanID +:+ "' for '" +:+ receiverID
  +:+ "' receiver bean not found".

(** The lookup of a dependency and its resolution through the literal
    provider when it is absent. *)
Definition lookupDependency (depBeanID receiverID : string) : M State bean :=
  λ s,
    match beans s !! depBeanID with
    | Some depBean => (Ok depBean, s)
    | None =>
        match required s !! depBeanID with
        | Some expectedType =>
            if decide (kind expectedType = KString) then
              match loadLiteralProvider with
              | Some lp =>
                  let '(val, found, err) := lp depBeanID expectedType in
                  let s := logProviderCall depBeanID expectedType s in
                  match err with
                  | Some e =>
                      (Err ("injectDependencies: literal provider error for '" +:+ depBeanID
                            +:+ "': " +:+ e), s)
                  | None =>
                      if found then
                        let depBean := mkBean depBeanID expectedType val false false [] in
                        (Ok depBean, setBeans (<[depBeanID := depBean]> (beans s)) s)
                      else (Err (depNotFound depBeanID receiverID), s)
                  end
              | None => (Err (depNotFound depBeanID receiverID), s)
              end
            else (Err (depNotFound depBeanID receiverID), s)
        | None => (Err (depNotFound depBeanID receiverID), s)
        end
    end.

Definition wrapErr {S A} (pre : string) (m : M S A) : M S A :=
  λ s, match m s with
       | (Err e, s') => (Err (pre +:+ e), s')
       | r => r
       end.

(** The body of the loop over [bn.dependencies]; [visit] is the recursive
    call, [bn] the loop-carried receiver descriptor. *)
Definition injectDependency (visit : string → M (State * Dfs) unit) (id : string)
    (bn : bean) (depBeanID : string) : M (State * Dfs) bean :=
  let* depBean := onState (lookupDependency depBeanID (beanID bn)) in
  visit depBeanID;;
  if isNil (instance depBean) then
    throw ("injectDependencies: dependency bean '" +:+ depBeanID +:+ "' for '" +:+ beanID bn
           +:+ "' receiver bean not instantiated")
  else
    let* s := get in
    onState (onHeap (wrapErr "injectDependencies: " (injectIntoStruct bn depBean (path s.2))));;
    let* s := get in
    ret (beans s.1 !!! id).

Fixpoint visit (fuel : nat) (id : string) : M (State * Dfs) unit :=
  match fuel with
  | O => λ s, (OutOfFuel, s)
  | S fuel' =>
      let* s := get in
      match beans s.1 !! id with
      | None => throw ("injectDependencies: receiver bean '" +:+ id +:+ "' not found")
      | Some bn =>
          if decide (id ∈ onPath s.2) then
            throw ("dependency cycle detected: " +:+ joinPath (path s.2) id)
          else if decide (id ∈ visited s.2) then ret tt
          else
            enterNode id;;
            (if hasDependencies bn then
               if isNil (instance bn) then
                 throw ("injectDependencies: receiver bean '" +:+ beanID bn +:+ "' is nil")
               else
                 foldM (injectDependency (visit fuel') id) bn (dependencies bn);; ret tt
             else ret tt);;
            leaveNode id
      end
  end.

Definition injectDependencies (prio : list string) : M State unit :=
  λ s,
    let '(o, (s', _)) :=
      forM (rangeKeys prio (beans s)) (visit (S (size (beans s)))) (s, mkDfs ∅ ∅ []) in
    (o, s').

(** ** [Build] *)

(** The iteration orders of the four [range] loops over maps in [Build]. *)
Record Schedule := mkSchedule {
  prioRequired : list string;   (* the validation loop *)
  prioCreate : list string;     (* the instantiation loop *)
  prioInject : list string;     (* the loop of [injectDependencies] *)
  prioInit : list string        (* the loop of the initializer ordering *)
}.

(** The compatibility test of the validation loop. *)
Definition compatible (requiredType registeredType : gotype) : bool :=
  match kind requiredType with
  | KStruct =>
      bool_decide (kind registeredType = KPtr)
      && bool_decide (Elem registeredType = Some requiredType)
  | KInterface => implements registeredType requiredType
  | _ => bool_decide (registeredType = requiredType)
  end.

Definition notRegistered (beanID : string) : string :=
  "bean `" +:+ beanID +:+ "` is required but not registered".

Definition typeMismatch (beanID : string) (requiredType registeredType : gotype) : string :=
  "bean '" +:+ beanID +:+ "' type mismatch: required " +:+ typeString requiredType
  +:+ ", registered " +:+ typeString registeredType.

(** The body of the validation loop, for the entry of key [beanID]. *)
Definition checkRequired (beanID : string) : M State unit :=
  let* s := get in
  match required s !! beanID with
  | None => ret tt
  | Some requiredType =>
      match beans s !! beanID with
      | None =>
          if bool_decide (kind requiredType = KString) && bool_decide (is_Some loadLiteralProvider)
          then ret tt
          else throw (notRegistered beanID)
      | Some regBean =>
          let registeredType := beanType regBean in
          if compatible requiredType registeredType then ret tt
          else throw (typeMismatch beanID requiredType registeredType)
      end
  end.

Definition validate (prio : list string) : M State unit :=
  let* s := get in forM (rangeKeys prio (required s)) checkRequired.

(** The body of the instantiation loop, for the entry of key [k]. *)
Definition instantiateBean (k : string) : M State unit :=
  let* s := get in
  match beans s !! k with
  | None => ret tt
  | Some bn =>
      if negb (isNil (instance bn)) then ret tt
      else if isPtrToStruct (beanType bn) then
        let* instance := onHeap (createInstance (beanType bn)) in
        storeBean (mkBean (beanID bn) (beanType bn) instance true
                          (hasDependencies bn) (dependencies bn))
      else ret tt
  end.

Definition instantiate (prio : list string) : M State unit :=
  let* s := get in forM (rangeKeys prio (beans s)) instantiateBean.

(** The second traversal: the order of the initializers. *)
Record Topo := mkTopo {
  tVisited : gset string;
  tOnPath : gset string;
  order : list string
}.

Fixpoint visitInit (reg : gmap string bean) (fuel : nat) (id : string) : M Topo unit :=
  match fuel with
  | O => λ s, (OutOfFuel, s)
  | S fuel' =>
      let* s := get in
      if decide (id ∈ tVisited s) then ret tt
      else if decide (id ∈ tOnPath s) then
        throw ("initializer order: dependency cycle detected at '" +:+ id +:+ "'")
      else
        modify (λ s, mkTopo (tVisited s) ({[id]} ∪ tOnPath s) (order s));;
        let bn := reg !!! id in
        (if hasDependencies bn then
           forM (dependencies bn) (λ dep,
             match reg !! dep with
             | None =>
                 throw ("initializer order: dependency '" +:+ dep +:+ "' required by '"
                        +:+ id +:+ "' not registered")
             | Some _ => visitInit reg fuel' dep
             end)
         else ret tt);;
        modify (λ s, mkTopo ({[id]} ∪ tVisited s) (tOnPath s ∖ {[id]}) (order s ++ [id]))
  end.

Definition initializerOrder (prio : list string) : M State (list string) :=
  λ s,
    let reg := beans s in
    let '(o, t) := forM (rangeKeys prio reg) (visitInit reg (S (size reg))) (mkTopo ∅ ∅ []) in
    match o with
    | Ok _ => (Ok (order t), s)
    | Err e => (Err e, s)
    | Panic e => (Panic e, s)
    | OutOfFuel => (OutOfFuel, s)
    end.

(** The body of the loop that calls the initializers. *)
Definition runInitializer (id : string) : M State unit :=
  λ s,
    let bn := beans s !!! id in
    if isNil (instance bn) then (Ok tt, s)
    else
      match typeOf (instance bn) ≫= initializerOf with
      | None => (Ok tt, s)
      | Some initialize =>
          let '(ierr, h) := initialize (instance bn) (heap s) in
          let s := logInitCall id ierr (setHeap h s) in
          match ierr with
          | None => (Ok tt, s)
          | Some e => (Err ("initializer for bean '" +:+ id +:+ "' failed: " +:+ e), s)
          end
      end.

Definition buildSteps (sch : Schedule) : M State unit :=
  validate (prioRequired sch);;
  instantiate (prioCreate sch);;
  injectDependencies (prioInject sch);;
  let* order := initializerOrder (prioInit sch) in
  forM order runInitializer.

(** [Build].  The deferred function marks the container as built when [err]
    is nil; that is also the case while a panic unwinds. *)
Definition Build (sch : Schedule) : M State unit :=
  λ s,
    if built (cont s) then (Ok tt, s)
    else
      match buildSteps sch s with
      | (Ok a, s') => (Ok a, setBuilt true s')
      | (Panic e, s') => (Panic e, setBuilt true s')
      | r => r
      end.

(** ** [ResolveSafe] *)

Definition ResolveSafe (sch : Schedule) (beanID : string) : M State value :=
  if decide (beanID = emptyString) then throw ErrBeanIdParamIsEmpty
  else
    let beanID := ToLower beanID in
    let* s := get in
    (if built (cont s) then ret tt else Build sch);;
    let* s := get in
    match beans s !! beanID with
    | None => throw ("bean '" +:+ beanID +:+ "' not found")
    | Some bn =>
        if isNil (instance bn) then throw ("bean '" +:+ beanID +:+ "' is not initialized")
        else ret (instance bn)
    end.

(** ** [Resolve]

    [panic(err)] with the error of [ResolveSafe]. *)

Definition Resolve (sch : Schedule) (beanID : string) : M State value :=
  λ s,
    match ResolveSafe sch beanID s with
    | (Err e, s') => (Panic e, s')
    | r => r
    end.

(** ** [ResolveAs]

    [v.(T)]: for an interface type [T] the dynamic type of [v] has to
    implement it, for any other type it has to be [T]. *)

Definition assertType (v : value) (T : gotype) : bool :=
  match typeOf v with
  | None => false
  | Some t =>
      if decide (kind T = KInterface) then implements t T else bool_decide (t = T)
  end.

(** An error stands for the zero value of [T] returned with it. *)
Definition ResolveAs (T : gotype) (sch : Schedule) (beanID : string) : M State value :=
  λ s,
    match ResolveSafe sch beanID s with
    | (Ok v, s') =>
        if assertType v T then (Ok v, s')
        else (Err ("bean '" +:+ beanID +:+ "' is not of requested type"), s')
    | r => r
    end.

End Iocdi.

(** ** [SetLiteralProvider]

    The hook is a variable of the package: a component of the environment.
    [None] is the nil function. *)

Definition SetLiteralProvider (p : option (string → gotype → value * bool * option string))
    (env : Env) : Env :=
  mkEnv (envDecls env) (envImplements env) p (envInitializerOf env).

(** * Specification-level definitions *)

(** The ways a computation fails: a returned error, or a panic. *)
Inductive failure := FErr (e : string) | FPanic (e : string).

(** Every descriptor is stored under its own identifier; [Register] and
    [RegisterInstance] establish this. *)
Definition wf (s : State) : Prop :=
  ∀ k b, beans s !! k = Some b → beanID b = k.

(** The dependency edges the two traversals follow. *)
Definition depsOf (b : bean) : list string :=
  if hasDependencies b then dependencies b else [].

Definition edge (reg : gmap string bean) (x y : string) : Prop :=
  ∃ b, reg !! x = Some b ∧ y ∈ depsOf b.

(** Consecutive elements of [l] follow dependency edges. *)
Fixpoint chainList (reg : gmap string bean) (l : list string) : Prop :=
  match l with
  | x :: r => match r with
              | y :: _ => edge reg x y ∧ chainList reg r
              | [] => True
              end
  | [] => True
  end.

(** A dependency cycle: from [x] through the nodes of [l] back to [x]. *)
Definition cycle (reg : gmap string bean) (x : string) (l : list string) : Prop :=
  chainList reg (x :: l ++ [x]).

(** [s] occurs in [t]. *)
Definition occursIn (s t : string) : Prop := ∃ pre post, t = pre +:+ s +:+ post.

(** The descriptor a registration stores depends on the arguments of the call
    only: the type after normalisation, and the result of the scan. *)
Definition normalizeType (t : gotype) : gotype :=
  match kind t with
  | KStruct => TPtr t
  | _ => t
  end.

Definition scanResult (env : Env) (t : gotype) : bool * list string :=
  match t with
  | TPtr e =>
      if decide (kind e = KStruct)
      then let '(_, has, ids) := scanFields (fieldsOf env e) ∅ in (has, ids)
      else (false, [])
  | _ => (false, [])
  end.

Definition typeDescriptor (env : Env) (id : string) (t : gotype) : bean :=
  let t := normalizeType t in
  mkBean id t VNil false (scanResult env t).1 (scanResult env t).2.

(** [l] is the heap cell allocated for an instance given as a struct value. *)
Definition instanceDescriptor (env : Env) (id : string) (inst : value) (l : nat) : bean :=
  match inst with
  | VStruct n _ =>
      let t := TPtr (TStruct n) in
      mkBean id t (VPtr (TStruct n) (Some l)) true (scanResult env t).1 (scanResult env t).2
  | _ =>
      let t := default TInt (typeOf inst) in
      mkBean id t inst true (scanResult env t).1 (scanResult env t).2
  end.

(** The error of a registration call that does not reach the registry. *)
Definition registerError (beanID : string) (argIsNil closed : bool) (nilError : string)
    : option string :=
  if decide (beanID = emptyString) then Some ErrBeanIdParamIsEmpty
  else if argIsNil then Some nilError
  else if closed then Some ErrRegistrationClosed
  else None.

(** A descriptor synthesized from the literal provider. *)
Definition ephemeral (env : Env) (s : State) (k : string) (b : bean) : Prop :=
  ∃ lp t v,
    envProvider env = Some lp ∧ required s !! k = Some t ∧ kind t = KString
    ∧ lp k t = (v, true, None) ∧ b = mkBean k t v false false [].

(** A call to the literal provider made from state [s], seen from the later
    state [s']. *)
Definition providerCallOk (env : Env) (s s' : State) (c : string * gotype) : Prop :=
  beans s !! c.1 = None ∧ required s !! c.1 = Some c.2 ∧ kind c.2 = KString
  ∧ ∃ lp, envProvider env = Some lp
          ∧ ∀ v, lp c.1 c.2 = (v, true, None)
                 → beans s' !! c.1 = Some (mkBean c.1 c.2 v false false []).

(** What the injection traversal may do to the state: it keeps every
    descriptor, adds synthesized ones, and calls the provider for absent
    identifiers only. *)
Record extends (env : Env) (s s' : State) : Prop := mkExtends {
  ext_built : built (cont s') = built (cont s);
  ext_required : required s' = required s;
  ext_init : initCalls s' = initCalls s;
  ext_beans : beans s ⊆ beans s';
  ext_new : ∀ k b, beans s' !! k = Some b → beans s !! k = None → ephemeral env s k b;
  ext_calls : ∃ new, providerCalls s' = providerCalls s ++ new
                     ∧ Forall (providerCallOk env s s') new
}.


(** The compatibility rule of the validation step, in the words of the
    specification. *)
Definition specCompatible (env : Env) (expected registered : gotype) : Prop :=
  match kind expected with
  | KStruct => registered = TPtr expected
  | KInterface => envImplements env registered expected = true
  | _ => registered = expected
  end.

Global Instance specCompatible_dec env expected registered :
  Decision (specCompatible env expected registered).
Proof. unfold specCompatible. destruct (kind expected); apply _. Defined.

(** The verdict of the validation step on the entry [(id, expected)] of the
    required-dependency map: the error it raises, if any. *)
Definition entryVerdict (env : Env) (s : State) (id : string) (expected : gotype)
    : option string :=
  match beans s !! id with
  | Some b =>
      if decide (specCompatible env expected (beanType b)) then None
      else Some (typeMismatch id expected (beanType b))
  | None =>
      if decide (kind expected ≠ KString ∨ envProvider env = None)
      then Some (notRegistered id)
      else None
  end.

Definition verdictOf (env : Env) (s : State) (id : string) : option string :=
  required s !! id ≫= entryVerdict env s id.


(** What the instantiation loop may do to a descriptor: nothing, or give a
    fresh instance to a pointer-to-struct descriptor that had none. *)
Definition instantiatedAs (b b' : bean) : Prop :=
  b' = b
  ∨ (isNil (instance b) = true ∧ isPtrToStruct (beanType b) = true
     ∧ ∃ e l, beanType b = TPtr e
              ∧ b' = mkBean (beanID b) (beanType b) (VPtr e (Some l)) true
                            (hasDependencies b) (dependencies b)).

Record created (s s' : State) : Prop := mkCreated {
  cr_built : built (cont s') = built (cont s);
  cr_required : required s' = required s;
  cr_init : initCalls s' = initCalls s;
  cr_calls : providerCalls s' = providerCalls s;
  cr_wf : wf s → wf s';
  cr_dom : wf s → ∀ k, beans s !! k = None → beans s' !! k = None;
  cr_kept : wf s → ∀ k b, beans s !! k = Some b →
            ∃ b', beans s' !! k = Some b' ∧ instantiatedAs b b'
}.

(** Every pointer-to-struct descriptor stored under a key of [l] has an
    instance. *)
Definition instantiatedAt (s : State) (l : list string) : Prop :=
  ∀ k b, k ∈ l → beans s !! k = Some b → isPtrToStruct (beanType b) = true
         → isNil (instance b) = false.


(** Invariants of the injection traversal.  [D0] is a set containing the
    identifiers of the descriptors that have dependencies. *)
Definition depsInv (D0 : gset string) (s : State) : Prop :=
  ∀ k b, beans s !! k = Some b → hasDependencies b = true → k ∈ D0.

Definition noNilNew (s s' : State) : Prop :=
  ∀ k b, beans s' !! k = Some b → beans s !! k = None → isNil (instance b) = false.

Definition cyclePrefix : string := "dependency cycle detected: ".

(** What an error raised by the cycle check says: the traversal path, a
    chain of dependency edges, followed by a node already on it. *)
Definition cycleError (D0 : gset string) (reg : gmap string bean) (e : string) : Prop :=
  ∀ x, e = cyclePrefix +:+ x →
       ∃ p z, x = joinPath p z ∧ z ∈ p ∧ Forall (λ k, k ∈ D0) p ∧ chainList reg (p ++ [z]).

(** The calls made to the literal provider between two states, and what
    the provider answered. *)
Definition newCalls (s s' : State) : list (string * gotype) :=
  drop (length (providerCalls s)) (providerCalls s').

Definition callOutcome (env : Env) (c : string * gotype)
    : option (value * bool * option string) :=
  match envProvider env with
  | Some lp => Some (lp c.1 c.2)
  | None => None
  end.

Definition foundOk (env : Env) (c : string * gotype) : Prop :=
  ∃ v, callOutcome env c = Some (v, true, None).

Definition providerError (id e : string) : string :=
  "injectDependencies: literal provider error for '" +:+ id +:+ "': " +:+ e.

(** The call [c] failed and [e] is the error the traversal returns for it. *)
Definition callFailure (env : Env) (c : string * gotype) (e : string) : Prop :=
  ∃ v f err,
    callOutcome env c = Some (v, f, err)
    ∧ match err with
      | Some pe => e = providerError c.1 pe
      | None => f = false ∧ ∃ rid, e = depNotFound c.1 rid
      end.

(** After a failure, every call the provider answered found a value, except
    possibly the last one, whose failure is then the error returned. *)
Definition callsFailed (env : Env) (s : State) (f : failure) (s' : State) : Prop :=
  match f with
  | FPanic _ => Forall (foundOk env) (newCalls s s')
  | FErr e =>
      Forall (foundOk env) (newCalls s s')
      ∨ ∃ l c, newCalls s s' = l ++ [c] ∧ Forall (foundOk env) l ∧ callFailure env c e
  end.

Definition visitFail (env : Env) (D0 : gset string) (s : State * Dfs) (f : failure)
    (s' : State * Dfs) : Prop :=
  match f with
  | FErr e => cycleError D0 (beans s'.1) e
  | FPanic _ => True
  end
  ∧ callsFailed env s.1 f s'.1.

Record visitPre (D0 : gset string) (fuel : nat) (id : string) (s : State * Dfs) : Prop :=
  mkVisitPre {
  pre_deps : depsInv D0 s.1;
  pre_fuel : size (D0 ∖ onPath s.2) < fuel;
  pre_onPath : onPath s.2 = list_to_set (path s.2);
  pre_path : Forall (λ k, k ∈ D0) (path s.2);
  pre_chain : chainList (beans s.1) (path s.2 ++ [id])
}.

Record visitPost (env : Env) (id : string) (s s' : State * Dfs) : Prop := mkVisitPost {
  post_onPath : onPath s'.2 = onPath s.2;
  post_path : path s'.2 = path s.2;
  post_visited : visited s.2 ⊆ visited s'.2;
  post_id : id ∈ visited s'.2;
  post_new : noNilNew s.1 s'.1;
  post_calls : Forall (foundOk env) (newCalls s.1 s'.1);
  post_ext : extends env s.1 s'.1
}.


(** [l] lists every node after its dependencies. *)
Definition topo (reg : gmap string bean) (l : list string) : Prop :=
  ∀ i x d, l !! i = Some x → d ∈ depsOf (reg !!! x) → ∃ j, j < i ∧ l !! j = Some d.

(** Invariant of the second traversal. *)
Record topoInv (reg : gmap string bean) (t : Topo) : Prop := mkTopoInv {
  ti_visited : tVisited t = list_to_set (order t);
  ti_topo : topo reg (order t);
  ti_nodup : NoDup (order t);
  ti_dom : ∀ x, x ∈ order t → is_Some (reg !! x);
  ti_disj : tOnPath t ## tVisited t
}.


Definition orderGrows (t t' : Topo) : Prop := order t `prefix_of` order t'.


(** The descriptor stored under [id] has an instance whose dynamic type
    implements [Initializer]. *)
Definition hasInitializer (env : Env) (reg : gmap string bean) (id : string) : Prop :=
  isNil (instance (reg !!! id)) = false
  ∧ is_Some (typeOf (instance (reg !!! id)) ≫= envInitializerOf env).

Global Instance hasInitializer_dec env reg id : Decision (hasInitializer env reg id).
Proof. unfold hasInitializer. apply _. Defined.

Definition hookError (id e : string) : string :=
  "initializer for bean '" +:+ id +:+ "' failed: " +:+ e.

(** [x] occurs in [l] at an earlier position than [y]. *)
Definition before (l : list string) (x y : string) : Prop :=
  ∃ i j, i < j ∧ l !! i = Some x ∧ l !! j = Some y.

(** The ways a run of [Build] on an open container ends. *)
Inductive BuildRun (env : Env) (sch : Schedule) (s : State) : outcome unit * State → Prop :=
| RunInvalid e :
    validate env (prioRequired sch) s = (Err e, s) →
    BuildRun env sch s (Err e, s)
| RunInjectErr s1 s2 e :
    validate env (prioRequired sch) s = (Ok tt, s) →
    instantiate env (prioCreate sch) s = (Ok tt, s1) →
    injectDependencies env (prioInject sch) s1 = (Err e, s2) →
    BuildRun env sch s (Err e, s2)
| RunInjectPanic s1 s2 e :
    validate env (prioRequired sch) s = (Ok tt, s) →
    instantiate env (prioCreate sch) s = (Ok tt, s1) →
    injectDependencies env (prioInject sch) s1 = (Panic e, s2) →
    BuildRun env sch s (Panic e, s2)
| RunOrderErr s1 s2 e :
    validate env (prioRequired sch) s = (Ok tt, s) →
    instantiate env (prioCreate sch) s = (Ok tt, s1) →
    injectDependencies env (prioInject sch) s1 = (Ok tt, s2) →
    initializerOrder (prioInit sch) s2 = (Err e, s2) →
    BuildRun env sch s (Err e, s2)
| RunInit s1 s2 l o s3 :
    validate env (prioRequired sch) s = (Ok tt, s) →
    instantiate env (prioCreate sch) s = (Ok tt, s1) →
    injectDependencies env (prioInject sch) s1 = (Ok tt, s2) →
    initializerOrder (prioInit sch) s2 = (Ok l, s2) →
    forM l (runInitializer env) s2 = (o, s3) →
    BuildRun env sch s (o, s3).


(** The failures of the second traversal: errors about the initializer
    order. *)
Definition orderErr (f : failure) : Prop :=
  match f with
  | FErr e => ∃ r, e = "initializer order: " +:+ r
  | FPanic _ => False
  end.


(** The calls made to the initializers between two states. *)
Definition newInits (s s' : State) : list (string * option string) :=
  drop (length (initCalls s)) (initCalls s').


(** ** Field injection, as specified *)

(** The annotation of a field: the value of its injection tag, when the field
    has one and it is not empty. *)
Definition annotation (sf : StructField) : option string :=
  match ftag sf with
  | Some a => if decide (a = emptyString) then None else Some a
  | None => None
  end.

(** The fields an injection of the dependency [depID] selects. *)
Definition selects (depID : string) (sf : StructField) : Prop :=
  fexported sf = true ∧ ToLower <$> annotation sf = Some depID.

Global Instance selects_dec depID sf : Decision (selects depID sf).
Proof. unfold selects. apply _. Defined.

(** The shapes of field and dependency the injector handles, in the order in
    which they are tried. *)
Inductive rule :=
  | ExactType | InterfaceField | PointerFromValue | ValueFromPointer | PointerToPointer.

Definition rules : list rule :=
  [ExactType; InterfaceField; PointerFromValue; ValueFromPointer; PointerToPointer].

Definition applies (env : Env) (fieldType depType : gotype) (depVal : value) (r : rule)
    : Prop :=
  match r with
  | ExactType => fieldType = depType
  | InterfaceField =>
      kind fieldType = KInterface
      ∧ match typeOf depVal with
        | Some t => envImplements env t fieldType = true
        | None => False
        end
  | PointerFromValue => kind depType = KStruct ∧ fieldType = TPtr depType
  | ValueFromPointer => kind fieldType = KStruct ∧ depType = TPtr fieldType
  | PointerToPointer =>
      kind fieldType = KPtr ∧ kind depType = KPtr ∧ Elem fieldType = Elem depType
  end.

Global Instance applies_dec env ft dt dv r : Decision (applies env ft dt dv r).
Proof. destruct r; simpl; [apply _| |apply _..]. destruct (typeOf dv); apply _. Defined.

Definition firstRule (env : Env) (fieldType depType : gotype) (depVal : value) : option rule :=
  head (filter (applies env fieldType depType depVal) rules).

(** The cell a pointer designates. *)
Definition pointee (h : Heap) (v : value) : value :=
  match v with
  | VPtr _ (Some l) => default VNil (h !! l)
  | _ => VNil
  end.

(** A pointer to a struct type that has no fields. *)
Definition emptyStructPointer (env : Env) (t : gotype) : Prop :=
  match t with
  | TPtr e => kind e = KStruct ∧ length (fieldsOf env e) = 0
  | _ => False
  end.

Global Instance emptyStructPointer_dec env t : Decision (emptyStructPointer env t).
Proof. destruct t; simpl; apply _. Defined.

(** The value a rule assigns, and the heap after the allocation it makes. *)
Definition assigned (env : Env) (r : rule) (depType : gotype) (depVal : value) (h : Heap)
    : value * Heap :=
  match r with
  | ExactType =>
      if decide (emptyStructPointer env depType) then
        match depType with
        | TPtr e => (VPtr e (Some (length h)), h ++ [zeroValue env e])
        | _ => (depVal, h)
        end
      else (depVal, h)
  | InterfaceField | PointerToPointer => (depVal, h)
  | PointerFromValue => (VPtr depType (Some (length h)), h ++ [depVal])
  | ValueFromPointer => (pointee h depVal, h)
  end.

(** Storing [x] into field [i] of the struct held in cell [l]. *)
Definition store (l i : nat) (x : value) (h : Heap) : Heap :=
  match h !! l with
  | Some (VStruct n fs) => <[l := VStruct n (<[i := x]> fs)]> h
  | _ => h
  end.

Definition specInjectField (env : Env) (l : nat) (depBean : bean) (i : nat) (sf : StructField)
    (h : Heap) : Heap :=
  if decide (selects (beanID depBean) sf) then
    match firstRule env (ftype sf) (beanType depBean) (instance depBean) with
    | Some r =>
        let '(x, h1) := assigned env r (beanType depBean) (instance depBean) h in
        store l i x h1
    | None => h
    end
  else h.

Definition specInject (env : Env) (l : nat) (depBean : bean) (fields : list (nat * StructField))
    (h : Heap) : Heap :=
  foldl (λ h '(i, sf), specInjectField env l depBean i sf h) h fields.

(** The dependency instance, when it is a pointer, designates a cell holding
    a value of its element type. *)
Definition pointeeOk (h : Heap) (v : value) : Prop :=
  match v with
  | VPtr e (Some l) => ∃ x, h !! l = Some x ∧ typeOf x = Some e
  | VPtr _ None => False
  | _ => True
  end.

(** The cells of [h] are cells of [h'], with values of the same types. *)
Definition sameTypes (h h' : Heap) : Prop :=
  ∀ k x, h !! k = Some x → ∃ x', h' !! k = Some x' ∧ typeOf x' = typeOf x.


(** The relation [extends] on the states of the first traversal. *)
Definition extendsD (env : Env) (s s' : State * Dfs) : Prop := extends env s.1 s'.1.

(** What a failure of the injection traversal tells. *)
Definition injectFail (env : Env) (s : State) (f : failure) (s' : State) : Prop :=
  match f with
  | FErr e =>
      ∀ x, e = cyclePrefix +:+ x →
           ∃ p z, x = joinPath p z ∧ z ∈ p
                  ∧ Forall (λ k, is_Some (beans s !! k)) p
                  ∧ chainList (beans s) (p ++ [z])
  | FPanic _ => True
  end
  ∧ callsFailed env s f s'.

(** The field [sf] with the annotation [tag]. *)
Definition withTag (tag : string) (sf : StructField) : StructField :=
  {| fname := fname sf; ftype := ftype sf; ftag := Some tag; fexported := fexported sf |}.

(** ** Outcomes of runs *)

(** [good Q E r]: the run [r] did not exhaust its fuel; if it returned
    normally, its result and final state satisfy [Q]; if it failed, the
    failure and the final state satisfy [E]. *)
Definition good {S A} (Q : A → S → Prop) (E : failure → S → Prop) (r : outcome A * S) : Prop :=
  match r with
  | (Ok a, s) => Q a s
  | (Err e, s) => E (FErr e) s
  | (Panic e, s) => E (FPanic e) s
  | (OutOfFuel, _) => False
  end.

(** [stable R m]: whatever the outcome, the final state is related to the
    initial one. *)
Definition stable {S A} (R : S → S → Prop) (m : M S A) : Prop :=
  ∀ s, R s (m s).2.

(** * Scenarios

    The declarations and registration sequences of the tests of the
    repository, on which the properties below are exercised. *)

Definition field (n : string) (t : gotype) (tag : string) : StructField :=
  {| fname := n; ftype := t; ftag := Some tag; fexported := true |}.

Definition testDecls : list (string * list StructField) :=
  [ ("Service", [field "Config" (TPtr (TStruct "Config")) "ServiceBeanConfig";
                 field "Logger" (TPtr (TStruct "Logger")) "ServiceBeanLogger"]);
    ("Config", [field "WorkingDir" TString "WorkingDir"]);
    ("Logger", [ {| fname := "_"; ftype := TInt; ftag := None; fexported := false |} ]);
    ("cycleA", [field "B" (TPtr (TStruct "cycleB")) "B"]);
    ("cycleB", [field "A" (TPtr (TStruct "cycleA")) "A"]);
    ("selfCycleA", [field "A" (TPtr (TStruct "selfCycleA")) "Aself"]);
    ("orderB", []);
    ("orderA", [field "B" (TPtr (TStruct "orderB")) "OrderB"]);
    ("orderC", [field "A" (TPtr (TStruct "orderA")) "OrderA"]) ].

(** No interface is declared in the tests. *)
Definition testEnv (provider : option (string → gotype → value * bool * option string))
    (inits : gotype → option (value → Heap → option string * Heap)) : Env :=
  mkEnv testDecls (λ _ _, false) provider inits.

Definition plainEnv : Env := testEnv None (λ _, None).

(** The map iteration order that follows the keys. *)
Definition sch0 : Schedule := mkSchedule [] [] [] [].

Definition seqM (l : list (M State unit)) : M State unit := forM l (λ m, m).

(** [TestContainer]: a service, its configuration and logger registered by
    type, the working directory by instance. *)
Definition serviceState : State :=
  (seqM [ Register plainEnv "ServiceBean" (Some (TPtr (TStruct "Service")));
          Register plainEnv "ServiceBeanConfig" (Some (TPtr (TStruct "Config")));
          Register plainEnv "ServiceBeanLogger" (Some (TPtr (TStruct "Logger")));
          RegisterInstance plainEnv "WorkingDir" (VStr "/home/user/test") ] initState).2.

(** The quick start of the README: the configuration is registered under an
    identifier in lowercase, the field is annotated in mixed case. *)
Definition readmeState : State :=
  (seqM [ Register plainEnv "ServiceBean" (Some (TPtr (TStruct "Service")));
          RegisterInstance plainEnv "servicebeanconfig" (VStruct "Config" [VStr "/etc"]);
          RegisterInstance plainEnv "ServiceBeanLogger" (VStruct "Logger" [VInt 0]);
          RegisterInstance plainEnv "workingdir" (VStr "/var/app") ] initState).2.

(** [TestCycleDetection]: two beans that depend on each other. *)
Definition cycleState : State :=
  (seqM [ Register plainEnv "A" (Some (TPtr (TStruct "cycleA")));
          Register plainEnv "B" (Some (TPtr (TStruct "cycleB"))) ] initState).2.

(** The same two beans, and a service whose configuration is not registered. *)
Definition cycleMissingState : State :=
  (seqM [ Register plainEnv "A" (Some (TPtr (TStruct "cycleA")));
          Register plainEnv "B" (Some (TPtr (TStruct "cycleB")));
          Register plainEnv "ServiceBean" (Some (TPtr (TStruct "Service"))) ] initState).2.


(** The provider tests: the working directory is not registered. *)
Definition workdirProvider (v : value) : string → gotype → value * bool * option string :=
  λ id _, if decide (id = "workingdir") then (v, true, None) else (VNil, false, None).

Definition providerEnv (v : value) : Env := testEnv (Some (workdirProvider v)) (λ _, None).

Definition providerState (v : value) : State :=
  (seqM [ Register (providerEnv v) "ReceiverBean" (Some (TPtr (TStruct "Service")));
          Register (providerEnv v) "ServiceBeanConfig" (Some (TPtr (TStruct "Config")));
          RegisterInstance (providerEnv v) "ServiceBeanLogger" (VStruct "Logger" [VInt 0]) ]
     initState).2.

(** [TestInitializerOrder]: [orderC] depends on [orderA], [orderA] on
    [orderB]; each has an initializer, which fails for the types of [failing]. *)
Definition orderInits (failing : list string)
    : gotype → option (value → Heap → option string * Heap) :=
  λ t, match t with
       | TPtr (TStruct n) =>
           if bool_decide (n ∈ ["orderA"; "orderB"; "orderC"]) then
             Some (λ _ h, (if bool_decide (n ∈ failing) then Some "boom" else None, h))
           else None
       | _ => None
       end.

Definition orderEnv (failing : list string) : Env := testEnv None (orderInits failing).

Definition orderState : State :=
  (seqM [ Register plainEnv "OrderC" (Some (TPtr (TStruct "orderC")));
          Register plainEnv "OrderA" (Some (TPtr (TStruct "orderA")));
          Register plainEnv "OrderB" (Some (TPtr (TStruct "orderB"))) ] initState).2.


(** A heap for one injection step: a configuration, and a service whose
    fields are still nil. *)
Definition stepHeap : Heap :=
  [ VStruct "Config" [VStr "/etc"];
    VStruct "Service" [VPtr (TStruct "Config") None; VPtr (TStruct "Logger") None] ].

Definition stepReceiver : bean :=
  mkBean "servicebean" (TPtr (TStruct "Service")) (VPtr (TStruct "Service") (Some 1)) true
         true ["servicebeanconfig"; "servicebeanlogger"].

Definition stepDependency : bean :=
  mkBean "servicebeanconfig" (TPtr (TStruct "Config")) (VPtr (TStruct "Config") (Some 0)) true
         true ["workingdir"].


(** ** The scan of a struct type, as a list *)

(** The dependency an annotated field stands for: its identifier and the type
    required for it. *)
Definition wanted (sf : StructField) : option (string * gotype) :=
  match ftag sf with
  | Some tag =>
      if fexported sf then
        match ftype sf with
        | TPtr e => if decide (kind e = KStruct) then Some (ToLower tag, e) else None
        | TString => Some (ToLower tag, TString)
        | TInterface n => Some (ToLower tag, TInterface n)
        | _ => None
        end
      else None
  | None => None
  end.

Definition recordAll (req : gmap string gotype) (ws : list (string * gotype))
    : gmap string gotype :=
  foldl (λ r d, <[d.1 := d.2]> r) req ws.

(** The dependencies the scan of the type [t] records. *)
Definition wantedOf (env : Env) (t : gotype) : list (string * gotype) :=
  match t with
  | TPtr e => if decide (kind e = KStruct) then omap wanted (fieldsOf env e) else []
  | _ => []
  end.


(** ** Resolution *)

(** The result of the lookup that ends [ResolveSafe]. *)
Definition resolved (reg : gmap string bean) (k : string) : outcome value :=
  match reg !! k with
  | None => Err ("bean '" +:+ k +:+ "' not found")
  | Some bn =>
      if isNil (instance bn) then Err ("bean '" +:+ k +:+ "' is not initialized")
      else Ok (instance bn)
  end.


(** Every string required is registered: the literal provider has nothing to
    resolve. *)
Definition stringsRegistered (s : State) : Prop :=
  ∀ k t, required s !! k = Some t → kind t = KString → is_Some (beans s !! k).


(** ** What the injection writes *)

(** A run that returns normally ends in a state that satisfies [Q]. *)
Definition okThen {S A} (Q : A → S → Prop) (r : outcome A * S) : Prop :=
  match r with
  | (Ok a, s) => Q a s
  | _ => True
  end.

(** [v] is a value the injection may store in field [i] of a struct [n]: the
    field is selected by a registered dependency, and [v] is the instance of
    that dependency when the field has its type and the type is not a pointer
    to a struct without fields. *)
Definition legit (env : Env) (reg : gmap string bean) (n : string) (i : nat) (v : value)
    : Prop :=
  ∃ sf d bd,
    fieldsOf env (TStruct n) !! i = Some sf ∧ selects d sf ∧ reg !! d = Some bd
    ∧ (ftype sf = beanType bd → ¬ emptyStructPointer env (beanType bd) → v = instance bd).

(** From [h] to [h'] the cells that hold structs keep their type and size,
    and their fields change by such stores only. *)
Definition writes (env : Env) (reg : gmap string bean) (h h' : Heap) : Prop :=
  ∀ l n fs, h !! l = Some (VStruct n fs) →
    ∃ fs', h' !! l = Some (VStruct n fs') ∧ length fs' = length fs
           ∧ ∀ i v, fs' !! i = Some v → fs !! i = Some v ∨ legit env reg n i v.

(** The instance of a descriptor that has dependencies, when it is a pointer
    that is not nil, designates a struct of its element type with the fields
    the type declares. *)
Definition receiversOk (env : Env) (s : State) : Prop :=
  ∀ k b e l, beans s !! k = Some b → hasDependencies b = true →
    instance b = VPtr e (Some l) →
    ∃ n fs, e = TStruct n ∧ heap s !! l = Some (VStruct n fs)
            ∧ length fs = length (fieldsOf env e).

(** The dependency [d] is registered, and the fields of the instance of [b]
    that it selects and that have its type hold its instance. *)
Definition fieldHolds (env : Env) (s : State) (b : bean) (d : string) : Prop :=
  ∃ bd, beans s !! d = Some bd
        ∧ ∀ e l i sf,
            instance b = VPtr e (Some l) → fieldsOf env e !! i = Some sf →
            selects d sf → ftype sf = beanType bd →
            ¬ emptyStructPointer env (beanType bd) →
            ∃ n fs, heap s !! l = Some (VStruct n fs) ∧ fs !! i = Some (instance bd).


(** ** The injection traversal as a whole *)

(** What the injection traversal does to a state: it extends the registry,
    and changes the heap by stores into fields only. *)
Definition injects (env : Env) (s s' : State) : Prop :=
  extends env s s' ∧ writes env (beans s') (heap s) (heap s').

(** The receivers the traversal has left hold their dependencies. *)
Definition visitedHold (env : Env) (s : State * Dfs) : Prop :=
  ∀ x bx dep, x ∈ visited s.2 → beans s.1 !! x = Some bx → dep ∈ depsOf bx →
              fieldHolds env s.1 bx dep.

Record injInv (env : Env) (s : State * Dfs) : Prop := mkInjInv {
  ii_wf : wf s.1;
  ii_receivers : receiversOk env s.1;
  ii_visited : visitedHold env s
}.

(** The initializers of the program leave the heap as it is. *)
Definition initializersKeepHeap (env : Env) : Prop :=
  ∀ t f v h, envInitializerOf env t = Some f → (f v h).2 = h.



(** ** The calls to the literal provider *)

(** Every descriptor stored since [s] was asked from the provider, under
    its identifier and with its type. *)
Definition queried (s s' : State) : Prop :=
  ∀ k b, beans s' !! k = Some b → beans s !! k = None → (k, beanType b) ∈ newCalls s s'.

Definition asks (env : Env) (s s' : State) : Prop := extends env s s' ∧ queried s s'.

Definition asksD (env : Env) (s s' : State * Dfs) : Prop := asks env s.1 s'.1.

(** The error of the traversal for a dependency that has no instance. *)
Definition notInstantiated (depBeanID receiverID : string) : string :=
  "injectDependencies: dependency bean '" +:+ depBeanID +:+ "' for '" +:+ receiverID
  +:+ "' receiver bean not instantiated".

(** [always Q E r]: if the run [r] returned normally, its result and final
    state satisfy [Q]; if it failed, the failure and the final state satisfy
    [E]. *)
Definition always {S A} (Q : A → S → Prop) (E : failure → S → Prop) (r : outcome A * S)
    : Prop :=
  match r with
  | (Ok a, s) => Q a s
  | (Err e, s) => E (FErr e) s
  | (Panic e, s) => E (FPanic e) s
  | (OutOfFuel, _) => True
  end.

(** A failure in a state [s'] where a descriptor stored since [s0] has no
    instance is the error that names this descriptor. *)
Definition nilFail (s0 : State) (f : failure) (s' : State) : Prop :=
  ∀ k b, beans s' !! k = Some b → beans s0 !! k = None → isNil (instance b) = true →
         ∃ rid, f = FErr (notInstantiated k rid).

(** The states of the traversal in which no descriptor stored since [s0]
    lacks an instance. *)
Record nilPre (s0 : State) (s : State * Dfs) : Prop := mkNilPre {
  np_beans : beans s0 ⊆ beans s.1;
  np_new : noNilNew s0 s.1;
  np_path : ∀ x, x ∈ onPath s.2 → is_Some (beans s.1 !! x)
}.



(** ** Invariants of the registry *)

Record regInv (s : State) : Prop := mkRegInv {
  inv_wf : wf s;
  inv_deps : ∀ k b d, beans s !! k = Some b → d ∈ dependencies b → is_Some (required s !! d);
  inv_has : ∀ k b, beans s !! k = Some b →
            hasDependencies b = bool_decide (dependencies b ≠ [])
            ∧ (hasDependencies b = true → isPtrToStruct (beanType b) = true);
  inv_typed : ∀ k b, beans s !! k = Some b → singleton b = true →
              typeOf (instance b) = Some (beanType b);
  inv_required : ∀ k t, required s !! k = Some t →
                 kind t = KStruct ∨ kind t = KString ∨ kind t = KInterface
}.


(** A logger registered by its struct type. *)
Definition loggerState : State :=
  (Register plainEnv "Logger" (Some (TStruct "Logger")) initState).2.

(** A struct whose field has an empty annotation. *)
Definition emptyTagEnv : Env :=
  mkEnv [ ("Holder", [field "Dep" (TPtr (TStruct "Logger")) emptyString]);
          ("Logger", []) ]
        (λ _ _, false) None (λ _, None).

(** A service given as a struct value: a receiver that is not addressable. *)
Definition valueReceiver : bean :=
  mkBean "servicebean" (TStruct "Service")
         (VStruct "Service" [VPtr (TStruct "Config") None; VPtr (TStruct "Logger") None])
         true true ["servicebeanconfig"; "servicebeanlogger"].


(** [orderA], which depends on [orderB], and [orderB], registered by type. *)
Definition pairState : State :=
  (Register plainEnv "OrderB" (Some (TStruct "orderB"))
     (Register plainEnv "OrderA" (Some (TStruct "orderA")) initState).2).2.


(** * Generic lemmas *)

(** ** The state monad *)

Lemma forM_cons {S A} (body : A → M S unit) x l s :
  forM (x :: l) body s = bind (body x) (λ _, forM l body) s.
Proof. unfold forM. simpl. unfold bind. by destruct (body x s) as [[[]| | |] s']. Qed.

Section MonadLemmas.

Context {S : Type}.

Lemma good_mono {A} (Q Q' : A → S → Prop) (E E' : failure → S → Prop) r :
  (∀ a s, Q a s → Q' a s) → (∀ e s, E e s → E' e s) → good Q E r → good Q' E' r.
Proof. destruct r as [[]]; simpl; auto. Qed.

Lemma good_bind {A B} (m : M S A) (k : A → M S B) (Q : B → S → Prop) E s :
  good (λ a s1, good Q E (k a s1)) E (m s) → good Q E (bind m k s).
Proof. unfold bind. destruct (m s) as [[]]; simpl; auto. Qed.

Lemma good_foldM {A B} (body : B → A → M S B) (I : B → S → Prop) E l :
  (∀ b x s, x ∈ l → I b s → good I E (body b x s)) →
  ∀ b s, I b s → good I E (foldM body b l s).
Proof.
  induction l as [|x l IH]; intros Hbody b s HI; simpl; [exact HI|].
  apply good_bind.
  eapply good_mono; [| |apply Hbody; [left|exact HI]]; [|auto].
  intros b' s' HI'. apply IH; [|exact HI'].
  intros b0 x0 s0 Hin. apply Hbody. by right.
Qed.

Lemma good_forM {A} (body : A → M S unit) (I : S → Prop) E l :
  (∀ x s, x ∈ l → I s → good (λ _, I) E (body x s)) →
  ∀ s, I s → good (λ _, I) E (forM l body s).
Proof.
  intros Hbody s HI. unfold forM.
  apply (good_foldM (λ _ x, body x) (λ _, I)); auto.
Qed.

Context (R : S → S → Prop) `{!PreOrder R}.

Lemma stable_ret {A} (a : A) : stable R (ret a).
Proof. intros s. simpl. reflexivity. Qed.

Lemma stable_throw {A} e : stable R (throw (A:=A) e).
Proof. intros s. simpl. reflexivity. Qed.

Lemma stable_panic {A} e : stable R (panic (A:=A) e).
Proof. intros s. simpl. reflexivity. Qed.

Lemma stable_get : stable R get.
Proof. intros s. simpl. reflexivity. Qed.

Lemma stable_bind {A B} (m : M S A) (k : A → M S B) :
  stable R m → (∀ a, stable R (k a)) → stable R (bind m k).
Proof.
  intros Hm Hk s. unfold bind. specialize (Hm s).
  destruct (m s) as [[a| | |] s1]; simpl in *; auto.
  etrans; [exact Hm|apply Hk].
Qed.

Lemma stable_foldM {A B} (body : B → A → M S B) l :
  (∀ b x, stable R (body b x)) → ∀ b, stable R (foldM body b l).
Proof.
  intros Hbody. induction l as [|x l IH]; intros b; simpl.
  - apply stable_ret.
  - apply stable_bind; auto.
Qed.

Lemma stable_forM {A} (body : A → M S unit) l :
  (∀ x, stable R (body x)) → stable R (forM l body).
Proof. intros Hbody. apply stable_foldM. auto. Qed.

Lemma good_stable {A} (m : M S A) (Q : A → S → Prop) E s :
  stable R m → good Q E (m s) →
  good (λ a s', Q a s' ∧ R s s') (λ f s', E f s' ∧ R s s') (m s).
Proof. intros Hst. specialize (Hst s). destruct (m s) as [[]]; simpl in *; auto. Qed.

(** A loop whose body establishes a fact for its element that later
    iterations keep. *)
Lemma good_forM_acc {A} (body : A → M S unit) (I : S → Prop) (D : A → S → Prop) E l :
  (∀ x s s', D x s → R s s' → D x s') →
  (∀ x s, x ∈ l → I s → good (λ _ s', I s' ∧ R s s' ∧ D x s') E (body x s)) →
  ∀ s, I s → good (λ _ s', I s' ∧ R s s' ∧ ∀ x, x ∈ l → D x s') E (forM l body s).
Proof.
  intros Hmono. induction l as [|x l IH]; intros Hbody s HI.
  - simpl. split_and!; [done|reflexivity|]. intros x Hx. by apply elem_of_nil in Hx.
  - rewrite forM_cons. apply good_bind.
    eapply good_mono; [| |apply Hbody; [left|exact HI]]; [|auto].
    intros _ s1 (HI1 & HR1 & HD1). simpl.
    eapply good_mono; [| |apply IH; [|exact HI1]]; [|auto|].
    + intros _ s2 (HI2 & HR2 & HD2). split_and!; [done|by etrans|].
      intros y Hy. apply elem_of_cons in Hy as [->|Hy]; [by eapply Hmono|by apply HD2].
    + intros y s0 Hy. apply Hbody. by right.
Qed.

End MonadLemmas.

Lemma bind_Ok {S A B} (m : M S A) (k : A → M S B) s b s' :
  bind m k s = (Ok b, s') ↔ ∃ a s1, m s = (Ok a, s1) ∧ k a s1 = (Ok b, s').
Proof.
  unfold bind. split.
  - destruct (m s) as [[a| | |] s1]; try discriminate. eauto.
  - intros (a & s1 & -> & H). exact H.
Qed.

(** ** State accessors *)

Lemma beans_setHeap h s : beans (setHeap h s) = beans s.
Proof. reflexivity. Qed.
Lemma required_setHeap h s : required (setHeap h s) = required s.
Proof. reflexivity. Qed.
Lemma heap_setHeap h s : heap (setHeap h s) = h.
Proof. reflexivity. Qed.
Lemma providerCalls_setHeap h s : providerCalls (setHeap h s) = providerCalls s.
Proof. reflexivity. Qed.
Lemma initCalls_setHeap h s : initCalls (setHeap h s) = initCalls s.
Proof. reflexivity. Qed.
Lemma built_setHeap h s : built (cont (setHeap h s)) = built (cont s).
Proof. reflexivity. Qed.
Lemma beans_setBeans r s : beans (setBeans r s) = r.
Proof. reflexivity. Qed.
Lemma required_setBeans r s : required (setBeans r s) = required s.
Proof. reflexivity. Qed.
Lemma heap_setBeans r s : heap (setBeans r s) = heap s.
Proof. reflexivity. Qed.
Lemma providerCalls_setBeans r s : providerCalls (setBeans r s) = providerCalls s.
Proof. reflexivity. Qed.
Lemma initCalls_setBeans r s : initCalls (setBeans r s) = initCalls s.
Proof. reflexivity. Qed.
Lemma built_setBeans r s : built (cont (setBeans r s)) = built (cont s).
Proof. reflexivity. Qed.
Lemma beans_setRequired r s : beans (setRequired r s) = beans s.
Proof. reflexivity. Qed.
Lemma required_setRequired r s : required (setRequired r s) = r.
Proof. reflexivity. Qed.
Lemma heap_setRequired r s : heap (setRequired r s) = heap s.
Proof. reflexivity. Qed.
Lemma providerCalls_setRequired r s : providerCalls (setRequired r s) = providerCalls s.
Proof. reflexivity. Qed.
Lemma initCalls_setRequired r s : initCalls (setRequired r s) = initCalls s.
Proof. reflexivity. Qed.
Lemma built_setRequired r s : built (cont (setRequired r s)) = built (cont s).
Proof. reflexivity. Qed.
Lemma beans_setBuilt b s : beans (setBuilt b s) = beans s.
Proof. reflexivity. Qed.
Lemma required_setBuilt b s : required (setBuilt b s) = required s.
Proof. reflexivity. Qed.
Lemma heap_setBuilt b s : heap (setBuilt b s) = heap s.
Proof. reflexivity. Qed.
Lemma providerCalls_setBuilt b s : providerCalls (setBuilt b s) = providerCalls s.
Proof. reflexivity. Qed.
Lemma initCalls_setBuilt b s : initCalls (setBuilt b s) = initCalls s.
Proof. reflexivity. Qed.
Lemma built_setBuilt b s : built (cont (setBuilt b s)) = b.
Proof. reflexivity. Qed.
Lemma beans_logProviderCall id t s : beans (logProviderCall id t s) = beans s.
Proof. reflexivity. Qed.
Lemma required_logProviderCall id t s : required (logProviderCall id t s) = required s.
Proof. reflexivity. Qed.
Lemma heap_logProviderCall id t s : heap (logProviderCall id t s) = heap s.
Proof. reflexivity. Qed.
Lemma providerCalls_logProviderCall id t s : providerCalls (logProviderCall id t s) = providerCalls s ++ [(id, t)].
Proof. reflexivity. Qed.
Lemma initCalls_logProviderCall id t s : initCalls (logProviderCall id t s) = initCalls s.
Proof. reflexivity. Qed.
Lemma built_logProviderCall id t s : built (cont (logProviderCall id t s)) = built (cont s).
Proof. reflexivity. Qed.
Lemma beans_logInitCall id r s : beans (logInitCall id r s) = beans s.
Proof. reflexivity. Qed.
Lemma required_logInitCall id r s : required (logInitCall id r s) = required s.
Proof. reflexivity. Qed.
Lemma heap_logInitCall id r s : heap (logInitCall id r s) = heap s.
Proof. reflexivity. Qed.
Lemma providerCalls_logInitCall id r s : providerCalls (logInitCall id r s) = providerCalls s.
Proof. reflexivity. Qed.
Lemma initCalls_logInitCall id r s : initCalls (logInitCall id r s) = initCalls s ++ [(id, r)].
Proof. reflexivity. Qed.
Lemma built_logInitCall id r s : built (cont (logInitCall id r s)) = built (cont s).
Proof. reflexivity. Qed.

Create Rewrite HintDb state.
#[export] Hint Rewrite beans_setHeap required_setHeap heap_setHeap providerCalls_setHeap initCalls_setHeap built_setHeap beans_setBeans required_setBeans heap_setBeans providerCalls_setBeans initCalls_setBeans built_setBeans beans_setRequired required_setRequired heap_setRequired providerCalls_setRequired initCalls_setRequired built_setRequired : state.
#[export] Hint Rewrite beans_setBuilt required_setBuilt heap_setBuilt providerCalls_setBuilt initCalls_setBuilt built_setBuilt beans_logProviderCall required_logProviderCall heap_logProviderCall providerCalls_logProviderCall initCalls_logProviderCall built_logProviderCall beans_logInitCall required_logInitCall heap_logInitCall providerCalls_logInitCall initCalls_logInitCall built_logInitCall : state.

(** ** [range] over a map *)

Lemma NoDup_mapKeys {A} (m : gmap string A) : NoDup (mapKeys m).
Proof. apply NoDup_fst_map_to_list. Qed.

Lemma elem_of_mapKeys {A} (m : gmap string A) k : k ∈ mapKeys m ↔ is_Some (m !! k).
Proof.
  unfold mapKeys. rewrite list_elem_of_fmap. split.
  - intros ([k' v] & -> & Hin). apply elem_of_map_to_list in Hin. eauto.
  - intros [v Hv]. exists (k, v). split; [done|]. by apply elem_of_map_to_list.
Qed.

Lemma elem_of_rangeKeys {A} prio (m : gmap string A) k :
  k ∈ rangeKeys prio m ↔ is_Some (m !! k).
Proof.
  unfold rangeKeys. rewrite elem_of_app, elem_of_remove_dups, !list_elem_of_filter.
  rewrite <- elem_of_mapKeys. destruct (decide (k ∈ prio)); naive_solver.
Qed.

Lemma NoDup_rangeKeys {A} prio (m : gmap string A) : NoDup (rangeKeys prio m).
Proof.
  unfold rangeKeys. apply NoDup_app. split_and!.
  - apply NoDup_remove_dups.
  - intros k. rewrite elem_of_remove_dups, !list_elem_of_filter. naive_solver.
  - apply NoDup_filter, NoDup_mapKeys.
Qed.

(** The order of a [range] is a permutation of the keys... *)
Lemma rangeKeys_perm {A} prio (m : gmap string A) : rangeKeys prio m ≡ₚ mapKeys m.
Proof.
  apply NoDup_Permutation; [apply NoDup_rangeKeys|apply NoDup_mapKeys|].
  intros k. by rewrite elem_of_rangeKeys, elem_of_mapKeys.
Qed.

Lemma filter_all {A} (P : A → Prop) `{!∀ x, Decision (P x)} (l : list A) :
  Forall P l → filter P l = l.
Proof.
  induction 1 as [|x l Hx _ IH]; [done|]. rewrite filter_cons_True by done. by rewrite IH.
Qed.

Lemma filter_none {A} (P : A → Prop) `{!∀ x, Decision (P x)} (l : list A) :
  Forall (λ x, ¬ P x) l → filter P l = [].
Proof.
  induction 1 as [|x l Hx _ IH]; [done|]. by rewrite filter_cons_False.
Qed.

(** ... and every permutation of the keys is the order of some [range]. *)
Lemma rangeKeys_any {A} (m : gmap string A) p : p ≡ₚ mapKeys m → rangeKeys p m = p.
Proof.
  intros Hp. unfold rangeKeys.
  assert (NoDup p) as Hnd by (rewrite Hp; apply NoDup_mapKeys).
  assert (filter (λ k, k ∈ mapKeys m) p = p) as ->.
  { apply filter_all, Forall_forall. intros k Hk. by rewrite <- Hp. }
  assert (filter (λ k, k ∉ p) (mapKeys m) = []) as ->.
  { apply filter_none, Forall_forall. intros k Hk Hn. apply Hn. by rewrite Hp. }
  rewrite app_nil_r. clear Hp. induction Hnd as [|x l Hx Hnd IH]; simpl; [done|].
  destruct (decide_rel elem_of x l); [done|]. by rewrite IH.
Qed.

(** * Properties of the container *)

Section Properties.

Variable env : Env.

(** ** Registration *)

Lemma scanField_indep acc req' f :
  ∃ req'', scanField (req', acc.1.2, acc.2) f = (req'', (scanField acc f).1.2, (scanField acc f).2).
Proof.
  destruct acc as [[req has] ids]. unfold scanField. simpl.
  destruct (ftag f); [|eauto]. destruct (fexported f); [|eauto].
  unfold recordDependency.
  destruct (ftype f) as [| | | |e]; simpl; eauto.
  destruct (decide (kind e = KStruct)); simpl; eauto.
Qed.

Lemma scanFields_fold_indep fs acc req' :
  ∃ req'', fold_left scanField fs (req', acc.1.2, acc.2)
           = (req'', (fold_left scanField fs acc).1.2, (fold_left scanField fs acc).2).
Proof.
  revert acc req'. induction fs as [|f fs IH]; intros acc req'; simpl; [eauto|].
  destruct (scanField_indep acc req' f) as [r1 ->].
  apply (IH (scanField acc f) r1).
Qed.

(** The scan result does not depend on the required-dependency map. *)
Lemma checkForDependency_result t req :
  kind t = KPtr →
  ∃ req', checkForDependency env t req = (Ok (scanResult env t), req').
Proof.
  destruct t as [| | | |e]; try discriminate. intros _. simpl.
  destruct (decide (kind e = KStruct)); [|eauto]. unfold scanFields.
  destruct (scanFields_fold_indep (fieldsOf env e) (∅, false, []) req) as [r Hr].
  simpl in Hr. rewrite Hr.
  destruct (fold_left scanField (fieldsOf env e) (∅, false, [])) as [[r0 h0] i0]. simpl. eauto.
Qed.

Lemma Register_error s beanID beanType e :
  registerError beanID (bool_decide (beanType = None)) (built (cont s)) ErrBeanTypeParamIsNil
    = Some e →
  Register env beanID beanType s = (Err e, s).
Proof.
  unfold registerError, Register. intros H.
  destruct (decide (beanID = emptyString)); [by simplify_eq|].
  destruct beanType as [t|]; simpl in *; [|by simplify_eq].
  unfold bind, get. destruct (built (cont s)); by simplify_eq.
Qed.

Lemma RegisterInstance_error s beanID inst e :
  registerError beanID (isNil inst) (built (cont s)) ErrBeanParamIsNil = Some e →
  RegisterInstance env beanID inst s = (Err e, s).
Proof.
  unfold registerError, RegisterInstance. intros H.
  destruct (decide (beanID = emptyString)); [by simplify_eq|].
  destruct inst; simpl in *; try by simplify_eq.
  all: unfold bind, get; destruct (built (cont s)); by simplify_eq.
Qed.

Lemma Register_open s beanID t :
  built (cont s) = false → beanID ≠ emptyString → kind t = KPtr ∨ kind t = KStruct →
  ∃ req',
    Register env beanID (Some t) s
    = (Ok tt, setBeans (<[ToLower beanID := typeDescriptor env (ToLower beanID) t]> (beans s))
                (setRequired req' s)).
Proof.
  intros Hb Hid Hk. unfold Register. rewrite decide_False by done.
  unfold bind at 1, get. rewrite Hb.
  assert (kind (normalizeType t) = KPtr) as Hn.
  { unfold normalizeType. destruct Hk as [Hk|Hk]; rewrite Hk; [done|]. done. }
  destruct (checkForDependency_result (normalizeType t) (required s) Hn) as [req' Hreq].
  exists req'. unfold typeDescriptor.
  assert ((match kind t with
           | KPtr => ret t
           | KStruct => ret (TPtr t)
           | _ => throw ErrBeanTypeNotSupported
           end : M State gotype) = ret (normalizeType t)) as ->.
  { unfold normalizeType. destruct Hk as [Hk|Hk]; by rewrite Hk. }
  unfold bind, ret, zoom. rewrite Hreq. simpl.
  destruct (scanResult env (normalizeType t)) as [has ids]. reflexivity.
Qed.

Lemma RegisterInstance_open s beanID inst :
  built (cont s) = false → beanID ≠ emptyString → isNil inst = false →
  ∃ req' h',
    RegisterInstance env beanID inst s
    = (Ok tt, setBeans (<[ToLower beanID :=
                           instanceDescriptor env (ToLower beanID) inst (length (heap s))]>
                          (beans s))
                (setRequired req' (setHeap h' s))).
Proof.
  intros Hb Hid Hnil. unfold RegisterInstance. rewrite decide_False by done.
  destruct inst as [|str|n|e tgt|n fs]; try discriminate; cbn [typeOf].
  - unfold bind, get, ret, zoom. rewrite Hb. simpl.
    exists (required s), (heap s). by destruct s as [[]].
  - unfold bind, get, ret, zoom. rewrite Hb. simpl.
    exists (required s), (heap s). by destruct s as [[]].
  - unfold bind at 1, get. rewrite Hb.
    rewrite decide_False by done. unfold bind at 1, ret.
    destruct (checkForDependency_result (TPtr e) (required s) eq_refl) as [req' Hreq].
    unfold bind, zoom. rewrite Hreq. exists req', (heap s).
    unfold instanceDescriptor. cbn -[scanResult ToLower].
    destruct (scanResult env (TPtr e)) as [has ids]. by destruct s as [[]].
  - unfold bind at 1, get. rewrite Hb.
    rewrite decide_True by done.
    destruct (checkForDependency_result (TPtr (TStruct n)) (required s) eq_refl)
      as [req' Hreq].
    unfold bind, zoom, alloc, ret. autorewrite with state. rewrite Hreq.
    exists req', (heap s ++ [VStruct n fs]).
    unfold instanceDescriptor.
    destruct (scanResult env (TPtr (TStruct n))) as [has ids]. reflexivity.
Qed.

(** ** Validation *)

Lemma compatible_spec expected registered :
  compatible env expected registered = true ↔ specCompatible env expected registered.
Proof.
  unfold compatible, specCompatible. destruct (kind expected) eqn:Hk.
  1,2,5: by rewrite bool_decide_eq_true.
  - rewrite andb_true_iff, !bool_decide_eq_true. split.
    + intros [Hp He]. destruct registered; try discriminate. simpl in He. congruence.
    + intros ->. done.
  - done.
Qed.

Lemma checkRequired_verdict s id :
  checkRequired env id s
  = (match verdictOf env s id with None => Ok tt | Some e => Err e end, s).
Proof.
  unfold checkRequired, verdictOf, entryVerdict, bind, get.
  destruct (required s !! id) as [expected|]; simpl; [|done].
  destruct (beans s !! id) as [b|]; simpl.
  - destruct (decide (specCompatible env expected (beanType b))) as [Hc|Hc].
    + apply compatible_spec in Hc. by rewrite Hc.
    + destruct (compatible env expected (beanType b)) eqn:Hc'; [|done].
      by apply compatible_spec in Hc'.
  - unfold loadLiteralProvider.
    destruct (decide (kind expected ≠ KString ∨ envProvider env = None)) as [Hd|Hd].
    + destruct Hd as [Hd| ->].
      * by rewrite bool_decide_eq_false_2.
      * rewrite (bool_decide_eq_false_2 (is_Some None)); [by rewrite andb_false_r|].
        by intros [? ?].
    + rewrite !bool_decide_eq_true_2; [done| |].
      * destruct (envProvider env); [eauto|]. exfalso. apply Hd. by right.
      * destruct (decide (kind expected = KString)); [done|]. exfalso. apply Hd. by left.
Qed.

(** The validation loop stops at the first entry with a verdict. *)
Lemma forM_checkRequired s l :
  (Forall (λ id, verdictOf env s id = None) l
   ∧ forM l (checkRequired env) s = (Ok tt, s))
  ∨ ∃ l1 id l2 e,
      l = l1 ++ id :: l2 ∧ Forall (λ id, verdictOf env s id = None) l1
      ∧ verdictOf env s id = Some e ∧ forM l (checkRequired env) s = (Err e, s).
Proof.
  induction l as [|id l IH].
  - left. split; [apply Forall_nil_2|done].
  - rewrite forM_cons. unfold bind. rewrite checkRequired_verdict.
    destruct (verdictOf env s id) as [e|] eqn:Hv.
    + right. exists [], id, l, e. split_and!; [done|apply Forall_nil_2|done|done].
    + destruct IH as [[Hall Hrun]|(l1 & id' & l2 & e & -> & Hall & Hv' & Hrun)].
      * left. split; [by apply Forall_cons_2|done].
      * right. exists (id :: l1), id', l2, e.
        split_and!; [done|by apply Forall_cons_2|done|done].
Qed.

Lemma validate_cases prio s :
  (Forall (λ id, verdictOf env s id = None) (rangeKeys prio (required s))
   ∧ validate env prio s = (Ok tt, s))
  ∨ ∃ l1 id l2 e,
      rangeKeys prio (required s) = l1 ++ id :: l2
      ∧ Forall (λ id, verdictOf env s id = None) l1
      ∧ verdictOf env s id = Some e ∧ validate env prio s = (Err e, s).
Proof. unfold validate, bind, get. apply forM_checkRequired. Qed.

(** ** Instantiation *)

Lemma instantiatedAs_refl b : instantiatedAs b b.
Proof. by left. Qed.

Lemma instantiatedAs_trans b1 b2 b3 :
  instantiatedAs b1 b2 → instantiatedAs b2 b3 → instantiatedAs b1 b3.
Proof.
  intros [->|H12] [->|H23]; [by left|by right|by right|].
  destruct H12 as (_ & _ & e & l & _ & ->).
  destruct H23 as (Hnil & _). discriminate.
Qed.

Global Instance created_preorder : PreOrder created.
Proof.
  split.
  - intros s. split; try done. intros _ k b Hb. exists b. split; [done|by left].
  - intros s1 s2 s3 H1 H2. split.
    + rewrite (cr_built _ _ H2). apply H1.
    + rewrite (cr_required _ _ H2). apply H1.
    + rewrite (cr_init _ _ H2). apply H1.
    + rewrite (cr_calls _ _ H2). apply H1.
    + intros Hwf. by apply H2, H1.
    + intros Hwf k Hk. apply H2; [by apply H1|]. by apply H1.
    + intros Hwf k b Hb. destruct (cr_kept _ _ H1 Hwf k b Hb) as (b2 & Hb2 & H12).
      destruct (cr_kept _ _ H2 (cr_wf _ _ H1 Hwf) k b2 Hb2) as (b3 & Hb3 & H23).
      exists b3. split; [done|]. by eapply instantiatedAs_trans.
Qed.

Lemma instantiateBean_spec k s :
  ∃ s', instantiateBean env k s = (Ok tt, s') ∧ created s s'
        ∧ (wf s → instantiatedAt s' [k]).
Proof.
  unfold instantiateBean, bind, get.
  destruct (beans s !! k) as [bn|] eqn:Hk.
  2:{ exists s. split_and!; [done|reflexivity|]. intros _ k' b Hin Hb.
      apply list_elem_of_singleton in Hin as ->. congruence. }
  destruct (isNil (instance bn)) eqn:Hnil; simpl.
  2:{ exists s. split_and!; [done|reflexivity|]. intros _ k' b Hin Hb.
      apply list_elem_of_singleton in Hin as ->. congruence. }
  destruct (isPtrToStruct (beanType bn)) eqn:Hpts.
  2:{ exists s. split_and!; [done|reflexivity|]. intros _ k' b Hin Hb.
      apply list_elem_of_singleton in Hin as ->. congruence. }
  destruct (beanType bn) as [| | | |e] eqn:Ht; try discriminate.
  unfold onHeap, zoom, createInstance, reflectNew, bind, alloc, ret, storeBean, modify.
  simpl. eexists. split; [reflexivity|].
  set (b' := mkBean (beanID bn) (TPtr e) (VPtr e (Some (length (heap s)))) true
                    (hasDependencies bn) (dependencies bn)).
  split.
  - split; try done.
    + intros Hwf k' b. autorewrite with state.
      rewrite (Hwf k bn Hk). intros Hl. apply lookup_insert_Some in Hl as [[<- <-]|[_ Hl]].
      * simpl. by apply Hwf.
      * by apply Hwf.
    + intros Hwf k' Hn. autorewrite with state. rewrite (Hwf k bn Hk).
      rewrite lookup_insert_ne; [done|congruence].
    + intros Hwf k' b Hb. autorewrite with state. rewrite (Hwf k bn Hk).
      destruct (decide (k = k')) as [<-|Hne].
      * rewrite lookup_insert_eq. exists b'. split; [done|]. right.
        assert (b = bn) as -> by congruence. split_and!; [done|by rewrite Ht|].
        exists e, (length (heap s)). by rewrite Ht.
      * rewrite lookup_insert_ne by done. exists b. split; [done|by left].
  - intros Hwf k' b Hin. apply list_elem_of_singleton in Hin as ->.
    autorewrite with state. rewrite (Hwf k bn Hk), lookup_insert_eq. by intros [= <-].
Qed.

Lemma forM_instantiateBean l s :
  ∃ s', forM l (instantiateBean env) s = (Ok tt, s') ∧ created s s'
        ∧ (wf s → instantiatedAt s' l).
Proof.
  revert s. induction l as [|k l IH]; intros s.
  - exists s. split_and!; [done|reflexivity|]. intros _ k b Hin. by apply elem_of_nil in Hin.
  - rewrite forM_cons. unfold bind.
    destruct (instantiateBean_spec k s) as (s1 & -> & Hc1 & Hd1).
    destruct (IH s1) as (s' & -> & Hc2 & Hd2).
    exists s'. split_and!; [done|by etrans|].
    intros Hwf k' b Hin Hb Hp. specialize (Hd2 (cr_wf _ _ Hc1 Hwf)).
    apply elem_of_cons in Hin as [->|Hin]; [|by eapply Hd2].
    destruct (beans s1 !! k) as [b1|] eqn:Hb1.
    + destruct (cr_kept _ _ Hc2 (cr_wf _ _ Hc1 Hwf) k b1 Hb1) as (b2 & Hb2 & H12).
      assert (b2 = b) as -> by congruence.
      destruct H12 as [->|(Hnil & Hp1 & _)].
      * eapply (Hd1 Hwf k); [by left|done|done].
      * rewrite (Hd1 Hwf k b1) in Hnil; [done|by left|done|done].
    + rewrite (cr_dom _ _ Hc2 (cr_wf _ _ Hc1 Hwf) k Hb1) in Hb. done.
Qed.

Lemma instantiate_spec prio s :
  ∃ s', instantiate env prio s = (Ok tt, s') ∧ created s s'
        ∧ (wf s → ∀ k b, beans s' !! k = Some b → isPtrToStruct (beanType b) = true
                         → isNil (instance b) = false).
Proof.
  unfold instantiate, bind, get.
  destruct (forM_instantiateBean (rangeKeys prio (beans s)) s) as (s' & Hrun & Hc & Hd).
  exists s'. split_and!; [done|done|].
  intros Hwf k b Hb. eapply (Hd Hwf); [|done].
  apply elem_of_rangeKeys.
  destruct (beans s !! k) eqn:Hk; [done|].
  rewrite (cr_dom _ _ Hc Hwf k Hk) in Hb. done.
Qed.

(** ** Injection: what the traversal preserves *)

Global Instance extends_preorder : PreOrder (extends env).
Proof.
  split.
  - intros s. split; try done.
    + intros k b Hb Hn. congruence.
    + exists []. split; [by rewrite app_nil_r|apply Forall_nil_2].
  - intros s1 s2 s3 H1 H2. split.
    + rewrite (ext_built _ _ _ H2). apply H1.
    + rewrite (ext_required _ _ _ H2). apply H1.
    + rewrite (ext_init _ _ _ H2). apply H1.
    + etrans; [apply H1|apply H2].
    + intros k b Hb3 Hn1. destruct (beans s2 !! k) as [b2|] eqn:Hb2.
      * assert (b2 = b) as ->.
        { pose proof (ext_beans _ _ _ H2) as Hsub.
          eapply lookup_weaken in Hb2; [|exact Hsub]. congruence. }
        by eapply (ext_new _ _ _ H1).
      * destruct (ext_new _ _ _ H2 k b Hb3 Hb2) as (lp & t & v & Hlp & Hr & Hk & Hcall & ->).
        exists lp, t, v. rewrite <- (ext_required _ _ _ H1). done.
    + destruct (ext_calls _ _ _ H1) as (n1 & Hn1 & Hf1).
      destruct (ext_calls _ _ _ H2) as (n2 & Hn2 & Hf2).
      exists (n1 ++ n2). split; [by rewrite Hn2, Hn1, app_assoc|].
      apply Forall_app. split.
      * eapply Forall_impl; [exact Hf1|]. intros c (Hc1 & Hc2 & Hc3 & lp & Hlp & Hc4).
        split_and!; try done. exists lp. split; [done|]. intros v Hv.
        eapply lookup_weaken; [by apply Hc4|apply H2].
      * eapply Forall_impl; [exact Hf2|]. intros c (Hc1 & Hc2 & Hc3 & Hc4).
        split_and!; try done.
        -- destruct (beans s1 !! c.1) eqn:Hb1; [|done].
           eapply lookup_weaken in Hb1; [|apply H1]. congruence.
        -- by rewrite <- (ext_required _ _ _ H1).
Qed.

Global Instance extendsD_preorder : PreOrder (extendsD env).
Proof.
  split.
  - intros s. unfold extendsD. reflexivity.
  - intros s1 s2 s3. unfold extendsD. apply transitivity.
Qed.

Lemma extends_setHeap h s : extends env s (setHeap h s).
Proof.
  split; try done.
  - intros k b Hb Hn. autorewrite with state in Hb. congruence.
  - exists []. split; [by rewrite app_nil_r|apply Forall_nil_2].
Qed.

Lemma lookupDependency_cases dep rid s :
  (∃ b, beans s !! dep = Some b ∧ lookupDependency env dep rid s = (Ok b, s))
  ∨ (beans s !! dep = None
     ∧ ((∃ e, lookupDependency env dep rid s = (Err e, s)
              ∧ (providerCalls s = providerCalls s
                 ∧ e = depNotFound dep rid
                 ∧ (required s !! dep = None
                    ∨ (∃ t, required s !! dep = Some t ∧ kind t ≠ KString)
                    ∨ envProvider env = None)))
        ∨ ∃ lp t val found err,
            envProvider env = Some lp ∧ required s !! dep = Some t ∧ kind t = KString
            ∧ lp dep t = (val, found, err)
            ∧ lookupDependency env dep rid s
              = match err with
                | Some e =>
                    (Err ("injectDependencies: literal provider error for '" +:+ dep
                          +:+ "': " +:+ e), logProviderCall dep t s)
                | None =>
                    if found then
                      let depBean := mkBean dep t val false false [] in
                      (Ok depBean,
                       setBeans (<[dep := depBean]> (beans s)) (logProviderCall dep t s))
                    else (Err (depNotFound dep rid), logProviderCall dep t s)
                end)).
Proof.
  unfold lookupDependency, loadLiteralProvider.
  destruct (beans s !! dep) as [b|] eqn:Hb; [left; eauto|right; split; [done|]].
  destruct (required s !! dep) as [t|] eqn:Hr; [|left; eauto 10].
  destruct (decide (kind t = KString)) as [Hk|Hk]; [|left; eauto 10].
  destruct (envProvider env) as [lp|] eqn:Hlp; [|left; eauto 10].
  right. destruct (lp dep t) as [[val found] err] eqn:Hcall.
  exists lp, t, val, found, err. split_and!; try done.
Qed.

Lemma lookupDependency_stable dep rid : stable (extends env) (lookupDependency env dep rid).
Proof.
  intros s.
  destruct (lookupDependency_cases dep rid s)
    as [(b & Hb & ->)|(Hb & [(e & -> & _)|(lp & t & val & found & err & Hlp & Hr & Hk & Hcall & ->)])];
    simpl; try reflexivity.
  assert (Hlog : (∀ v, lp dep t ≠ (v, true, None)) → extends env s (logProviderCall dep t s)).
  { intros Hno. split; try done.
    - intros k b Hb' Hn. autorewrite with state in Hb'. congruence.
    - exists [(dep, t)]. split; [done|]. apply Forall_singleton.
      split_and!; try done. exists lp. split; [done|]. intros v Hv.
      simpl in Hv. by apply Hno in Hv. }
  destruct err as [e|]; simpl; [apply Hlog; intros v; by rewrite Hcall|].
  destruct found; simpl; [|apply Hlog; intros v; by rewrite Hcall].
  split; try done.
  - autorewrite with state. by apply insert_subseteq.
  - intros k b. autorewrite with state. intros Hl Hn.
    apply lookup_insert_Some in Hl as [[<- <-]|[_ Hl]]; [|congruence].
    by exists lp, t, val.
  - exists [(dep, t)]. split; [done|]. apply Forall_singleton.
    split_and!; try done. exists lp. split; [done|]. intros v Hv.
    simpl in Hv. rewrite Hcall in Hv. simplify_eq. autorewrite with state. simpl.
    by rewrite lookup_insert_eq.
Qed.

Lemma stable_modify {S} (R : S → S → Prop) (f : S → S) :
  (∀ s, R s (f s)) → stable R (modify f).
Proof. intros H s. apply H. Qed.

Lemma stable_onState {A} (m : M State A) :
  stable (extends env) m → stable (extendsD env) (onState m).
Proof.
  intros H [s d]. unfold onState, zoom, extendsD. simpl.
  specialize (H s). by destruct (m s).
Qed.

Lemma stable_onHeap {A} (m : M Heap A) : stable (extends env) (onHeap m).
Proof.
  intros s. unfold onHeap, zoom. destruct (m (heap s)) as [o h]. simpl.
  apply extends_setHeap.
Qed.

Lemma injectDependency_stable v id bn dep :
  (∀ x, stable (extendsD env) (v x)) → stable (extendsD env) (injectDependency env v id bn dep).
Proof.
  intros Hv. unfold injectDependency.
  apply stable_bind; [apply _|apply stable_onState, lookupDependency_stable|].
  intros depBean. apply stable_bind; [apply _|apply Hv|]. intros _.
  destruct (isNil (instance depBean)); [apply stable_throw, _|].
  apply stable_bind; [apply _|apply stable_get, _|]. intros s.
  apply stable_bind; [apply _|apply stable_onState, stable_onHeap|]. intros _.
  apply stable_bind; [apply _|apply stable_get, _|]. intros s'.
  apply stable_ret, _.
Qed.

Lemma visit_stable fuel id : stable (extendsD env) (visit env fuel id).
Proof.
  revert id. induction fuel as [|fuel IH]; intros id.
  - intros s. simpl. reflexivity.
  - simpl. apply stable_bind; [apply _|apply stable_get, _|]. intros s.
    destruct (beans s.1 !! id) as [bn|]; [|apply stable_throw, _].
    destruct (decide (id ∈ onPath s.2)); [apply stable_throw, _|].
    destruct (decide (id ∈ visited s.2)); [apply stable_ret, _|].
    apply stable_bind; [apply _|apply stable_modify; intros s0; unfold extendsD; reflexivity|].
    intros _. apply stable_bind; [apply _| |].
    + destruct (hasDependencies bn); [|apply stable_ret, _].
      destruct (isNil (instance bn)); [apply stable_throw, _|].
      apply stable_bind; [apply _| |intros; apply stable_ret, _].
      apply stable_foldM; [apply _|]. intros b x. by apply injectDependency_stable.
    + intros _. apply stable_modify. intros s0. unfold extendsD. reflexivity.
Qed.

Lemma injectDependencies_stable prio : stable (extends env) (injectDependencies env prio).
Proof.
  intros s. unfold injectDependencies.
  pose proof (stable_forM (extendsD env) (visit env (S (size (beans s))))
                (rangeKeys prio (beans s)) (λ x, visit_stable _ x) (s, mkDfs ∅ ∅ [])) as H.
  destruct (forM _ _ _) as [o [s' d]]. exact H.
Qed.

(** ** Injection: termination and the successful runs *)

Lemma edge_mono reg reg' x y : reg ⊆ reg' → edge reg x y → edge reg' x y.
Proof. intros Hsub (b & Hb & Hy). exists b. split; [by eapply lookup_weaken|done]. Qed.

Lemma chainList_mono reg reg' l : reg ⊆ reg' → chainList reg l → chainList reg' l.
Proof.
  intros Hsub. induction l as [|x [|y r] IH]; simpl; try done.
  intros [He Hc]. split; [by eapply edge_mono|by apply IH].
Qed.

Lemma chainList_snoc reg p a b :
  chainList reg (p ++ [a]) → edge reg a b → chainList reg ((p ++ [a]) ++ [b]).
Proof.
  intros Hc He. induction p as [|x p IH]; simpl in *; [done|].
  destruct p as [|y p]; simpl in *.
  - destruct Hc as [Hxa _]. done.
  - destruct Hc as [Hxy Hc]. split; [done|]. by apply IH.
Qed.

Lemma depsInv_extends D0 s s' : extends env s s' → depsInv D0 s → depsInv D0 s'.
Proof.
  intros Hext Hinv k b Hb Hd. destruct (beans s !! k) as [b0|] eqn:Hb0.
  - pose proof (lookup_weaken _ _ _ _ Hb0 (ext_beans _ _ _ Hext)) as Hb'.
    assert (b0 = b) as -> by congruence. by eapply Hinv.
  - destruct (ext_new _ _ _ Hext k b Hb Hb0) as (lp & t & v & _ & _ & _ & _ & ->).
    discriminate.
Qed.

Lemma setField_good l i t x h : good (λ _ _, True) (λ _ _, True) (setField env l i t x h).
Proof.
  unfold setField. destruct (assignable env x t); [|done].
  destruct (h !! l) as [[]|]; done.
Qed.

Lemma injectField_good cell depBean i sf h :
  good (λ _ _, True) (λ _ _, True) (injectField env cell depBean i sf h).
Proof.
  unfold injectField.
  destruct (decide (default emptyString (ftag sf) = emptyString)) as [_|_]; [done|].
  destruct (decide (ToLower (default emptyString (ftag sf)) = beanID depBean)) as [_|_];
    [|done].
  destruct cell as [l|]; [|done].
  destruct (negb (fexported sf)); [done|].
  destruct (decide (ftype sf = beanType depBean)) as [_|_].
  { destruct (beanType depBean) as [| | | |e]; try apply setField_good.
    destruct (_ && _); [|apply setField_good].
    apply good_bind. unfold reflectNew, bind, alloc, ret. simpl. apply setField_good. }
  destruct (decide (kind (ftype sf) = KInterface)) as [_|_].
  { destruct (typeOf (instance depBean)); [|done].
    destruct (envImplements env _ _); [apply setField_good|done]. }
  destruct (_ && _ && _).
  { apply good_bind. unfold alloc. simpl. apply good_bind. unfold setCell.
    destruct (assignable env _ _); [|done]. simpl. apply setField_good. }
  destruct (_ && _ && _).
  { apply good_bind. unfold derefValue.
    destruct (instance depBean) as [| | |e [l'|]|]; try done.
    all: try (destruct (h !! l'); [|done]); simpl; apply setField_good. }
  destruct (_ && _ && _); [apply setField_good|done].
Qed.

Lemma injectIntoStruct_good rb db ch h :
  good (λ _ _, True) (λ _ _, True) (injectIntoStruct env rb db ch h).
Proof.
  unfold injectIntoStruct. destruct (bool_decide _); [done|].
  destruct (receiverOf (instance rb)) as [[cell t]|]; [|done].
  apply (good_forM _ (λ _, True)); [|done].
  intros [i sf] h' _ _. eapply good_mono; [| |apply injectField_good]; done.
Qed.

(** ** The order of the initializers *)

Lemma topo_snoc reg l x :
  topo reg l → (∀ d, d ∈ depsOf (reg !!! x) → d ∈ l) → topo reg (l ++ [x]).
Proof.
  intros Ht Hx i y d Hy Hd.
  destruct (decide (i < length l)) as [Hi|Hi].
  - rewrite lookup_app_l in Hy by done.
    destruct (Ht i y d Hy Hd) as (j & Hj & Hl). exists j. split; [done|].
    rewrite lookup_app_l; [done|lia].
  - rewrite lookup_app_r in Hy by lia.
    destruct (i - length l) as [|n] eqn:Hn; simpl in Hy; [|by destruct n].
    simplify_eq. apply Hx in Hd. apply list_elem_of_lookup in Hd as [j Hj].
    exists j. split; [apply lookup_lt_Some in Hj; lia|].
    rewrite lookup_app_l; [done|by eapply lookup_lt_Some].
Qed.

Global Instance orderGrows_preorder : PreOrder orderGrows.
Proof.
  split.
  - intros t. unfold orderGrows. reflexivity.
  - intros t1 t2 t3. unfold orderGrows. apply transitivity.
Qed.

Lemma visitInit_good reg (D0 : gset string) fuel id t :
  (∀ k, hasDependencies (reg !!! k) = true → k ∈ D0) →
  size (D0 ∖ tOnPath t) < fuel → topoInv reg t → is_Some (reg !! id) →
  good (λ _ t', tOnPath t' = tOnPath t ∧ topoInv reg t' ∧ id ∈ order t'
                ∧ order t `prefix_of` order t')
       (λ f _, orderErr f) (visitInit reg fuel id t).
Proof.
  intros HD. revert id t. induction fuel as [|fuel IH]; intros id t Hfuel Hinv Hreg; [lia|].
  simpl visitInit. unfold bind at 1, get.
  destruct (decide (id ∈ tVisited t)) as [Hvis|Hvis].
  { simpl. split_and!; [done|done| |done].
    rewrite (ti_visited _ _ Hinv) in Hvis. by apply elem_of_list_to_set in Hvis. }
  destruct (decide (id ∈ tOnPath t)) as [Hon|Hon]; [simpl; eauto|].
  apply good_bind. unfold modify at 1. cbn [good].
  set (t1 := mkTopo (tVisited t) ({[id]} ∪ tOnPath t) (order t)).
  set (J := λ t', tOnPath t' = tOnPath t1 ∧ topoInv reg t').
  assert (HJ1 : J t1).
  { split; [done|]. destruct Hinv. split; simpl; try done. set_solver. }
  assert (Hleave : ∀ t', J t' → order t `prefix_of` order t' →
            (∀ d, d ∈ depsOf (reg !!! id) → d ∈ order t') →
            good (λ _ t'', tOnPath t'' = tOnPath t ∧ topoInv reg t'' ∧ id ∈ order t''
                           ∧ order t `prefix_of` order t'')
                 (λ f _, orderErr f)
                 (modify (λ s, mkTopo ({[id]} ∪ tVisited s) (tOnPath s ∖ {[id]})
                                      (order s ++ [id])) t')).
  { intros t' [Ho Hi] Hpre Hdeps. unfold modify. simpl. rewrite Ho. simpl.
    assert (id ∉ order t') as Hnot.
    { intros Hin. destruct Hi as [Hv _ _ _ Hdisj]. rewrite Ho in Hdisj. simpl in Hdisj.
      assert (id ∈ tVisited t') by (rewrite Hv; by apply elem_of_list_to_set).
      set_solver. }
    split_and!.
    - set_solver.
    - destruct Hi as [Hv Ht Hn Hd Hdisj]. split; simpl.
      + rewrite list_to_set_app_L, Hv. simpl. set_solver.
      + by apply topo_snoc.
      + apply NoDup_app. split_and!; [done| |apply NoDup_singleton].
        intros x Hx Hx'. apply list_elem_of_singleton in Hx' as ->. done.
      + intros x Hx. apply elem_of_app in Hx as [Hx|Hx]; [by apply Hd|].
        apply list_elem_of_singleton in Hx as ->. done.
      + rewrite Ho in *. simpl in *. rewrite Hv in *. set_solver.
    - apply elem_of_app. right. by apply list_elem_of_singleton.
    - etrans; [exact Hpre|]. by apply prefix_app_r. }
  apply good_bind.
  destruct (hasDependencies (reg !!! id)) eqn:Hhas.
  2:{ unfold ret. cbn [good]. apply Hleave; [done|done|].
      unfold depsOf. rewrite Hhas. intros d Hd. by apply elem_of_nil in Hd. }
  assert (HidD : id ∈ D0) by (by apply HD).
  eapply good_mono;
    [| |apply (good_forM_acc orderGrows _ J (λ d t', d ∈ order t') (λ f _, orderErr f))].
  - intros _ t' (HJ & Hpre & Hall). cbn [good]. apply Hleave; [done|done|].
    unfold depsOf. rewrite Hhas. done.
  - done.
  - intros d s s' Hd Hpre. destruct Hpre as [k ->]. apply elem_of_app. by left.
  - intros d t' Hd [Ho Hi].
    destruct (reg !! d) as [bd|] eqn:Hbd; [|simpl; eauto].
    eapply (good_mono _ _ (λ f _, orderErr f)); [| |apply IH]; [|done| |done|by eauto].
    + intros _ t'' (Ho'' & Hi'' & Hin & Hpre). split_and!; [|done|done].
      split; [congruence|done].
    + rewrite Ho. simpl.
      assert (D0 ∖ ({[id]} ∪ tOnPath t) ⊂ D0 ∖ tOnPath t) as Hsub by set_solver.
      apply subset_size in Hsub. lia.
  - done.
Qed.

(** ** Injection: termination, the successful runs and the failures *)

Lemma newCalls_refl s : newCalls s s = [].
Proof. unfold newCalls. by rewrite drop_all. Qed.

Lemma newCalls_extends s s' :
  extends env s s' → providerCalls s' = providerCalls s ++ newCalls s s'.
Proof.
  intros He. destruct (ext_calls _ _ _ He) as (new & Hnew & _).
  unfold newCalls. rewrite Hnew. by rewrite drop_app_length.
Qed.

Lemma newCalls_trans s1 s2 s3 :
  extends env s1 s2 → extends env s2 s3 →
  newCalls s1 s3 = newCalls s1 s2 ++ newCalls s2 s3.
Proof.
  intros H12 H23. unfold newCalls at 1.
  rewrite (newCalls_extends _ _ H23), (newCalls_extends _ _ H12), <- app_assoc.
  by rewrite drop_app_length.
Qed.

Lemma callsFailed_prefix s s1 s2 f :
  extends env s s1 → extends env s1 s2 → Forall (foundOk env) (newCalls s s1) →
  callsFailed env s1 f s2 → callsFailed env s f s2.
Proof.
  intros H1 H2 Hok. unfold callsFailed. rewrite (newCalls_trans _ _ _ H1 H2).
  destruct f as [e|e].
  - intros [Hall|(l & c & Hl & Hall & Hc)].
    + left. by apply Forall_app.
    + right. exists (newCalls s s1 ++ l), c. rewrite Hl, app_assoc.
      split_and!; [done|by apply Forall_app|done].
  - intros Hall. by apply Forall_app.
Qed.

Lemma not_cycleError D0 reg e : (∀ x, e ≠ cyclePrefix +:+ x) → cycleError D0 reg e.
Proof. intros H x Hx. by destruct (H x). Qed.

Lemma visitFail_plain D0 s s' e :
  (∀ x, e ≠ cyclePrefix +:+ x) → Forall (foundOk env) (newCalls s.1 s'.1) →
  visitFail env D0 s (FErr e) s'.
Proof. intros He Hc. split; [by apply not_cycleError|by left]. Qed.

Lemma lookupDependency_ok dep rid s b s' :
  lookupDependency env dep rid s = (Ok b, s') →
  beans s' !! dep = Some b
  ∧ (∀ k b', beans s' !! k = Some b' → beans s !! k = None → b' = b)
  ∧ Forall (foundOk env) (newCalls s s').
Proof.
  destruct (lookupDependency_cases dep rid s)
    as [(b0 & Hb & ->)|(Hb & [(e & -> & _)|(lp & t & val & found & err & Hlp & _ & _ & Hc & ->)])].
  - intros [= <- <-]. split_and!; [done|intros; congruence|].
    rewrite newCalls_refl. apply Forall_nil_2.
  - done.
  - destruct err; [done|]. destruct found; [|done]. intros [= <- <-].
    autorewrite with state. split_and!.
    + by rewrite lookup_insert_eq.
    + intros k b' Hl Hn. apply lookup_insert_Some in Hl as [[_ <-]|[_ Hl]]; [done|].
      autorewrite with state in Hl. congruence.
    + unfold newCalls. autorewrite with state. rewrite drop_app_length.
      apply Forall_singleton. exists val. unfold callOutcome. rewrite Hlp. simpl. by rewrite Hc.
Qed.

Lemma lookupDependency_err dep rid s :
  match lookupDependency env dep rid s with
  | (Ok _, _) => True
  | (Err e, s') =>
      (∀ x, e ≠ cyclePrefix +:+ x)
      ∧ (newCalls s s' = [] ∨ ∃ c, newCalls s s' = [c] ∧ callFailure env c e)
  | _ => False
  end.
Proof.
  destruct (lookupDependency_cases dep rid s)
    as [(b0 & Hb & ->)|(Hb & [(e & -> & _ & -> & _)|(lp & t & val & found & err & Hlp & _ & _ & Hc & ->)])].
  - done.
  - split; [intros x; discriminate|]. left. apply newCalls_refl.
  - assert (newCalls s (logProviderCall dep t s) = [(dep, t)]) as Hnew.
    { unfold newCalls. autorewrite with state. by rewrite drop_app_length. }
    assert (callOutcome env (dep, t) = Some (val, found, err)) as Hout.
    { unfold callOutcome. rewrite Hlp. simpl. by rewrite Hc. }
    destruct err as [pe|].
    + split; [intros x; discriminate|]. right. exists (dep, t). split; [done|].
      exists val, found, (Some pe). done.
    + destruct found; [done|]. split; [intros x; discriminate|]. right.
      exists (dep, t). split; [done|]. exists val, false, None. split; [done|]. eauto.
Qed.

Lemma take_snoc_length {A} (l : list A) x : take (length (l ++ [x]) - 1) (l ++ [x]) = l.
Proof.
  rewrite length_app. simpl. replace (length l + 1 - 1) with (length l) by lia.
  by rewrite take_app_length.
Qed.

Lemma onState_run {A} (m : M State A) s d : onState m (s, d) = ((m s).1, ((m s).2, d)).
Proof. unfold onState, zoom. simpl. by destruct (m s). Qed.

Lemma onHeap_run {A} (m : M Heap A) s :
  onHeap m s = ((m (heap s)).1, setHeap (m (heap s)).2 s).
Proof. unfold onHeap, zoom. by destruct (m (heap s)). Qed.

Lemma noNilNew_refl s : noNilNew s s.
Proof. intros k b H1 H2. congruence. Qed.

Lemma visit_good D0 fuel id s :
  visitPre D0 fuel id s →
  good (λ _ s', visitPost env id s s') (visitFail env D0 s) (visit env fuel id s).
Proof.
  revert id s. induction fuel as [|fuel IH]; intros id s Hpre.
  { destruct Hpre. lia. }
  destruct Hpre as [Hdeps Hfuel HonP Hpath Hchain].
  assert (Hnone : Forall (foundOk env) (newCalls s.1 s.1)).
  { rewrite newCalls_refl. apply Forall_nil_2. }
  simpl visit. unfold bind at 1, get.
  destruct (beans s.1 !! id) as [bn|] eqn:Hbn.
  2:{ simpl. apply visitFail_plain; [intros x; discriminate|done]. }
  destruct (decide (id ∈ onPath s.2)) as [Hon|Hon].
  { simpl. split; [|by left]. intros x Hx. exists (path s.2), id. simplify_eq/=.
    split_and!; [done| |done|done]. rewrite HonP in Hon. by apply elem_of_list_to_set in Hon. }
  destruct (decide (id ∈ visited s.2)) as [Hvis|Hvis].
  { simpl. split; [done|done|done|done|apply noNilNew_refl|done|reflexivity]. }
  apply good_bind. unfold enterNode, modify. simpl good.
  set (s1 := (s.1, mkDfs (visited s.2) ({[id]} ∪ onPath s.2) (path s.2 ++ [id]))).
  set (I := λ (b : bean) (s' : State * Dfs),
         onPath s'.2 = onPath s1.2 ∧ path s'.2 = path s1.2
         ∧ visited s1.2 ⊆ visited s'.2 ∧ noNilNew s1.1 s'.1
         ∧ Forall (foundOk env) (newCalls s1.1 s'.1) ∧ extends env s1.1 s'.1).
  assert (HI1 : ∀ b, I b s1).
  { intros b. unfold I. split_and!; [done|done|done|apply noNilNew_refl|done|reflexivity]. }
  assert (Hleave : ∀ b s', I b s' →
            good (λ _ s'', visitPost env id s s'') (visitFail env D0 s) (leaveNode id s')).
  { intros b s' (Ho & Hp & Hv & Hn & Hc & He). unfold leaveNode, modify. simpl. split; simpl.
    - rewrite Ho. simpl. set_solver.
    - rewrite Hp. simpl. apply take_snoc_length.
    - simpl in Hv. set_solver.
    - set_solver.
    - exact Hn.
    - exact Hc.
    - exact He. }
  apply good_bind.
  destruct (hasDependencies bn) eqn:Hhas.
  2:{ unfold ret. cbn [good]. by apply (Hleave bn). }
  destruct (isNil (instance bn)) eqn:Hnil.
  { simpl. apply visitFail_plain; [intros x; discriminate|done]. }
  assert (HidD : id ∈ D0) by (by eapply Hdeps).
  apply good_bind.
  eapply good_mono; [| |apply (good_foldM _ I)].
  { intros b s' HI. unfold ret. cbn [good]. by apply (Hleave b). }
  { done. }
  2:{ apply HI1. }
  intros b dep [st d] Hdep (Ho & Hp & Hv & Hn & Hc & He). simpl in Ho, Hp, Hv, Hn, Hc, He.
  unfold injectDependency. apply good_bind.
  rewrite onState_run.
  pose proof (lookupDependency_err dep (beanID b) st) as Herr.
  pose proof (lookupDependency_stable dep (beanID b) st) as Hst.
  destruct (lookupDependency env dep (beanID b) st) as [[depBean|e|e|] st2] eqn:Hl;
    simpl in Hst; try done.
  2:{ cbn [good fst snd]. destruct Herr as [Hnc Hcalls]. split; [by apply not_cycleError|].
      simpl. rewrite (newCalls_trans _ _ _ He Hst).
      destruct Hcalls as [->|(c & -> & Hcf)].
      - left. by rewrite app_nil_r.
      - right. by exists (newCalls s.1 st), c. }
  apply lookupDependency_ok in Hl as (Hdb & Hnew & Hc2). cbn [good fst snd].
  apply good_bind.
  assert (Hext2 : extends env s.1 st2) by (etrans; [exact He|exact Hst]).
  assert (Hcalls2 : Forall (foundOk env) (newCalls s.1 st2)).
  { rewrite (newCalls_trans _ _ _ He Hst). by apply Forall_app. }
  assert (Hpre3 : visitPre D0 fuel dep (st2, d)).
  { split; simpl.
    - by eapply depsInv_extends.
    - rewrite Ho. simpl.
      assert (D0 ∖ ({[id]} ∪ onPath s.2) ⊂ D0 ∖ onPath s.2) as Hsub by set_solver.
      apply subset_size in Hsub. lia.
    - rewrite Ho, Hp. simpl. rewrite list_to_set_app_L, HonP. simpl. set_solver.
    - rewrite Hp. simpl. apply Forall_app. split; [done|]. by apply Forall_singleton.
    - rewrite Hp. simpl. apply chainList_snoc.
      + eapply chainList_mono; [apply Hext2|done].
      + exists bn. split; [eapply lookup_weaken; [exact Hbn|apply Hext2]|].
        unfold depsOf. by rewrite Hhas. }
  pose proof (good_stable (extendsD env) _ _ _ _ (visit_stable fuel dep) (IH _ _ Hpre3)) as Hg3.
  eapply good_mono; [| |exact Hg3].
  2:{ intros f s3 [[Hcyc Hcf] He3]. split; [done|]. unfold extendsD in He3. simpl in *.
      by eapply callsFailed_prefix. }
  intros _ s3 [[Ho3 Hp3 Hv3 Hid3 Hn3 Hc3 He3] _]. simpl in Ho3, Hp3, Hv3, Hn3, Hc3, He3.
  assert (Hcalls3 : Forall (foundOk env) (newCalls s.1 s3.1)).
  { rewrite (newCalls_trans _ _ _ Hext2 He3). by apply Forall_app. }
  destruct (isNil (instance depBean)) eqn:Hnil'.
  { simpl. apply visitFail_plain; [intros x; discriminate|done]. }
  apply good_bind. unfold get at 1. cbn [good]. apply good_bind.
  destruct s3 as [st3 d3]. rewrite onState_run, onHeap_run. unfold wrapErr. cbn [fst snd].
  pose proof (injectIntoStruct_good b depBean (path d3) (heap st3)) as Hg.
  destruct (injectIntoStruct env b depBean (path d3) (heap st3)) as [[[]|e|e|] h] eqn:Hinj;
    simpl in Hg; try done; cbn [good fst snd].
  2:{ apply visitFail_plain; [intros x; discriminate|done]. }
  simpl in Ho3, Hp3, Hv3, Hn3, He3. unfold bind, ret. cbn [good]. unfold I. simpl. split_and!.
  - congruence.
  - congruence.
  - set_solver.
  - intros k b' Hb' Hk. autorewrite with state in Hb'.
    destruct (beans st2 !! k) as [b2|] eqn:Hb2; [|by eapply Hn3].
    pose proof (lookup_weaken _ _ _ _ Hb2 (ext_beans _ _ _ He3)) as Hb3.
    assert (b2 = b') as -> by congruence.
    destruct (beans st !! k) as [b0|] eqn:Hb0.
    + pose proof (lookup_weaken _ _ _ _ Hb0 (ext_beans _ _ _ Hst)) as Hb02.
      assert (b0 = b') as -> by congruence. by eapply Hn.
    + rewrite (Hnew k b' Hb2 Hb0). done.
  - done.
  - etrans; [exact He|]. etrans; [exact Hst|]. etrans; [exact He3|]. apply extends_setHeap.
Qed.

Lemma noNilNew_trans s1 s2 s3 :
  extends env s2 s3 → noNilNew s1 s2 → noNilNew s2 s3 → noNilNew s1 s3.
Proof.
  intros He H12 H23 k b Hb Hn. destruct (beans s2 !! k) as [b2|] eqn:Hb2; [|by eapply H23].
  pose proof (lookup_weaken _ _ _ _ Hb2 (ext_beans _ _ _ He)) as Hb3.
  assert (b2 = b) as -> by congruence. by eapply H12.
Qed.

Lemma edge_extends s s' x y :
  extends env s s' → is_Some (beans s !! x) → edge (beans s') x y → edge (beans s) x y.
Proof.
  intros He [b Hb] (b' & Hb' & Hy).
  pose proof (lookup_weaken _ _ _ _ Hb (ext_beans _ _ _ He)) as Hb2.
  assert (b' = b) as -> by congruence. by exists b.
Qed.

Lemma chainList_extends s s' l :
  extends env s s' → Forall (λ k, is_Some (beans s !! k)) l →
  chainList (beans s') l → chainList (beans s) l.
Proof.
  intros He. induction l as [|x [|y r] IH]; simpl; try done.
  intros Hall [Hxy Hc]. apply Forall_cons in Hall as [Hx Hall].
  split; [by eapply edge_extends|by apply IH].
Qed.

(** The injection traversal never runs out of fuel; when it succeeds every
    synthesized descriptor has a value and every call to the provider found
    one; an error raised by the cycle check shows a path of registered
    identifiers that follows dependency edges and ends on a node already on
    it; a failed call to the provider ends the traversal with its error. *)
Lemma injectDependencies_good prio s :
  good (λ _ s', noNilNew s s' ∧ Forall (foundOk env) (newCalls s s'))
       (injectFail env s)
       (injectDependencies env prio s).
Proof.
  unfold injectDependencies.
  set (D0 := dom (beans s)). set (s0 := (s, mkDfs ∅ ∅ [])).
  set (I := λ s' : State * Dfs,
         onPath s'.2 = ∅ ∧ path s'.2 = [] ∧ noNilNew s s'.1
         ∧ Forall (foundOk env) (newCalls s s'.1) ∧ extends env s s'.1).
  assert (Hdeps : depsInv D0 s).
  { intros k b Hb _. apply elem_of_dom. eauto. }
  pose proof (good_forM (visit env (S (size (beans s)))) I (visitFail env D0 s0)
                (rangeKeys prio (beans s))) as Hloop.
  pose proof (stable_forM (extendsD env) (visit env (S (size (beans s))))
                (rangeKeys prio (beans s)) (λ x, visit_stable _ x) s0) as Hst.
  destruct (forM (rangeKeys prio (beans s)) (visit env (S (size (beans s)))) s0)
    as [o [s' d]] eqn:Hrun.
  unfold extendsD in Hst. simpl in Hst.
  assert (good (λ _, I) (visitFail env D0 s0) (o, (s', d))) as Hg.
  { rewrite <- Hrun. apply Hloop.
    - intros id [st dd] Hid (Ho & Hp & Hn & Hc & He). simpl in Ho, Hp, Hn, Hc, He.
      assert (Hpre : visitPre D0 (S (size (beans s))) id (st, dd)).
      { split; simpl.
        - by eapply depsInv_extends.
        - rewrite Ho. replace (D0 ∖ ∅) with D0 by set_solver.
          unfold D0. rewrite size_dom. lia.
        - by rewrite Ho, Hp.
        - by rewrite Hp.
        - by rewrite Hp. }
      pose proof (good_stable (extendsD env) _ _ _ _ (visit_stable _ id)
                    (visit_good D0 _ id _ Hpre)) as Hg.
      eapply good_mono; [| |exact Hg].
      + intros _ s3 [[Ho3 Hp3 Hv3 Hid3 Hn3 Hc3 He3] _]. simpl in *.
        split_and!; [congruence|congruence| | |by etrans].
        * by eapply noNilNew_trans.
        * rewrite (newCalls_trans _ _ _ He He3). by apply Forall_app.
      + intros f s3 [[Hcyc Hcf] He3]. unfold extendsD in He3. simpl in *.
        split; [done|]. by eapply callsFailed_prefix.
    - unfold I. simpl. split_and!; [done|done|apply noNilNew_refl| |reflexivity].
      rewrite newCalls_refl. apply Forall_nil_2. }
  clear Hrun Hloop. destruct o as [[]|e|e|]; simpl in *; try done.
  - by destruct Hg as (_ & _ & Hn & Hc & _).
  - destruct Hg as [Hcyc Hcf]. split; [|done].
    intros x Hx. destruct (Hcyc x Hx) as (p & z & -> & Hz & Hall & Hc).
    assert (Forall (λ k, is_Some (beans s !! k)) p) as Hall'.
    { eapply Forall_impl; [exact Hall|]. intros k Hk. by apply elem_of_dom. }
    exists p, z. split_and!; try done.
    eapply chainList_extends; [exact Hst| |exact Hc].
    apply Forall_app. split; [done|]. apply Forall_singleton.
    rewrite Forall_forall in Hall'. by apply Hall'.
Qed.

Lemma lookup_total_None (reg : gmap string bean) k : reg !! k = None → reg !!! k = zeroBean.
Proof. intros H. unfold lookup_total, map_lookup_total. by rewrite H. Qed.

(** The second traversal leaves the state alone and never runs out of fuel;
    when it succeeds, the order lists every registered identifier once, after
    its dependencies. *)
Lemma initializerOrder_spec prio s :
  match initializerOrder prio s with
  | (Ok l, s') =>
      s' = s ∧ topo (beans s) l ∧ NoDup l ∧ ∀ x, x ∈ l ↔ is_Some (beans s !! x)
  | (Err e, s') => s' = s ∧ ∃ r, e = "initializer order: " +:+ r
  | _ => False
  end.
Proof.
  unfold initializerOrder.
  set (reg := beans s). set (D0 := dom reg).
  set (I := λ t : Topo, tOnPath t = ∅ ∧ topoInv reg t).
  pose proof (good_forM_acc orderGrows (visitInit reg (S (size reg))) I
                (λ k t, k ∈ order t) (λ f _, orderErr f) (rangeKeys prio reg)) as Hloop.
  destruct (forM (rangeKeys prio reg) (visitInit reg (S (size reg))) (mkTopo ∅ ∅ []))
    as [o t] eqn:Hrun.
  assert (good (λ _ t', I t' ∧ orderGrows (mkTopo ∅ ∅ []) t'
                        ∧ ∀ k, k ∈ rangeKeys prio reg → k ∈ order t')
               (λ f _, orderErr f) (o, t)) as Hg.
  { rewrite <- Hrun. apply Hloop.
    - intros k t1 t2 Hk [r Hr]. rewrite Hr. apply elem_of_app. by left.
    - intros k t1 Hk [Ho Hi].
      eapply good_mono; [| |apply (visitInit_good reg D0)].
      + intros _ t2 (Ho2 & Hi2 & Hin & Hpre). split_and!; try done.
        split; [congruence|done].
      + done.
      + intros k' Hk'. apply elem_of_dom. destruct (reg !! k') eqn:Hr; [done|].
        rewrite (lookup_total_None _ _ Hr) in Hk'. done.
      + rewrite Ho. replace (D0 ∖ ∅) with D0 by set_solver. unfold D0.
        rewrite size_dom. lia.
      + done.
      + by apply elem_of_rangeKeys in Hk.
    - split; [done|]. split; simpl; try done.
      + apply NoDup_nil_2.
      + intros x Hx. by apply elem_of_nil in Hx. }
  destruct o as [[]|e|e|]; simpl in Hg; try done.
  destruct Hg as ([_ Hi] & _ & Hall). destruct Hi as [Hv Ht Hn Hd _].
  split_and!; try done.
  intros x. split; [apply Hd|]. intros Hx. apply Hall. by apply elem_of_rangeKeys.
Qed.

(** ** The initializers *)

Lemma runInitializer_skip s id :
  ¬ hasInitializer env (beans s) id → runInitializer env id s = (Ok tt, s).
Proof.
  unfold hasInitializer, runInitializer. intros Hno.
  destruct (isNil (instance (beans s !!! id))) eqn:Hnil; [done|].
  destruct (typeOf (instance (beans s !!! id)) ≫= envInitializerOf env) eqn:Hi; [|done].
  exfalso. apply Hno. split; [done|]. eauto.
Qed.

Lemma runInitializer_call s id :
  hasInitializer env (beans s) id →
  ∃ initialize,
    typeOf (instance (beans s !!! id)) ≫= envInitializerOf env = Some initialize
    ∧ runInitializer env id s
      = (match (initialize (instance (beans s !!! id)) (heap s)).1 with
         | None => Ok tt
         | Some e => Err (hookError id e)
         end,
         logInitCall id (initialize (instance (beans s !!! id)) (heap s)).1
           (setHeap (initialize (instance (beans s !!! id)) (heap s)).2 s)).
Proof.
  unfold hasInitializer, runInitializer. intros [Hnil [init Hi]].
  exists init. split; [done|]. rewrite Hnil, Hi.
  destruct (init (instance (beans s !!! id)) (heap s)) as [[e|] h]; done.
Qed.

(** The initializers run through the order once; the loop stops at the
    first one that fails. *)
Lemma forM_runInitializer l s :
  match forM l (runInitializer env) s with
  | (Ok _, s') =>
      cont s' = cont s ∧ providerCalls s' = providerCalls s
      ∧ initCalls s'
        = initCalls s ++ map (λ id, (id, None)) (filter (hasInitializer env (beans s)) l)
  | (Err e, s') =>
      cont s' = cont s ∧ providerCalls s' = providerCalls s
      ∧ ∃ l1 id l2 ierr,
          l = l1 ++ id :: l2 ∧ hasInitializer env (beans s) id
          ∧ initCalls s'
            = initCalls s ++ map (λ id, (id, None)) (filter (hasInitializer env (beans s)) l1)
                          ++ [(id, Some ierr)]
          ∧ e = hookError id ierr
  | _ => False
  end.
Proof.
  revert s. induction l as [|id l IH]; intros s.
  - simpl. by rewrite app_nil_r.
  - rewrite forM_cons. unfold bind.
    destruct (decide (hasInitializer env (beans s) id)) as [Hh|Hh].
    + destruct (runInitializer_call s id Hh) as (init & Hi & ->).
      set (r := init (instance (beans s !!! id)) (heap s)).
      set (s1 := logInitCall id r.1 (setHeap r.2 s)).
      destruct (r.1) as [ierr|] eqn:Hr.
      * split_and!; [done|done|]. exists [], id, l, ierr. by split_and!.
      * specialize (IH s1). destruct (forM l (runInitializer env) s1) as [[[]|e| |] s'];
          try done.
        -- destruct IH as (Hc & Hp & Hcalls). split_and!; [done|done|].
           rewrite Hcalls. rewrite filter_cons_True by done.
           unfold s1. autorewrite with state. simpl. by rewrite <- app_assoc.
        -- destruct IH as (Hc & Hp & l1 & id' & l2 & ierr & -> & Hh' & Hcalls & ->).
           split_and!; [done|done|]. exists (id :: l1), id', l2, ierr.
           split_and!; [done|done| |done].
           rewrite Hcalls. rewrite filter_cons_True by done.
           unfold s1. autorewrite with state. simpl. by rewrite <- !app_assoc.
    + rewrite (runInitializer_skip s id Hh).
      specialize (IH s). destruct (forM l (runInitializer env) s) as [[[]|e| |] s'];
        try done.
      * destruct IH as (Hc & Hp & Hcalls). split_and!; [done|done|].
        by rewrite filter_cons_False.
      * destruct IH as (Hc & Hp & l1 & id' & l2 & ierr & -> & Hh' & Hcalls & ->).
        split_and!; [done|done|]. exists (id :: l1), id', l2, ierr.
        split_and!; [done|done| |done]. by rewrite filter_cons_False.
Qed.

(** ** The phases of a build *)

Lemma buildSteps_run sch s : BuildRun env sch s (buildSteps env sch s).
Proof.
  unfold buildSteps. unfold bind at 1.
  destruct (validate_cases (prioRequired sch) s)
    as [[_ Hv]|(l1 & id & l2 & e & _ & _ & _ & Hv)]; rewrite Hv; [|by apply RunInvalid].
  unfold bind at 1.
  destruct (instantiate_spec (prioCreate sch) s) as (s1 & Hi & _). rewrite Hi.
  unfold bind at 1.
  pose proof (injectDependencies_good (prioInject sch) s1) as Hg.
  destruct (injectDependencies env (prioInject sch) s1) as [[[]|e|e|] s2] eqn:Hinj;
    [|by eapply RunInjectErr|by eapply RunInjectPanic|by destruct Hg].
  unfold bind.
  pose proof (initializerOrder_spec (prioInit sch) s2) as Ho.
  destruct (initializerOrder (prioInit sch) s2) as [[l|e|e|] s2'] eqn:Hord; try done.
  - destruct Ho as (-> & _). destruct (forM l (runInitializer env) s2) as [o s3] eqn:Hrun.
    by eapply RunInit.
  - destruct Ho as [-> _]. by eapply RunOrderErr.
Qed.

(** ** [Build] as a whole *)

Lemma Build_closed sch s : built (cont s) = true → Build env sch s = (Ok tt, s).
Proof. intros H. unfold Build. by rewrite H. Qed.

Lemma BuildRun_frame sch s r :
  BuildRun env sch s r → built (cont r.2) = built (cont s) ∧ required r.2 = required s.
Proof.
  intros Hrun.
  assert (∀ s1, instantiate env (prioCreate sch) s = (Ok tt, s1) → created s s1) as Hcr.
  { intros s1 Hi. destruct (instantiate_spec (prioCreate sch) s) as (s1' & Hi' & Hc & _).
    congruence. }
  assert (∀ s1 o s2, injectDependencies env (prioInject sch) s1 = (o, s2) → extends env s1 s2)
    as Hex.
  { intros s1 o s2 Hi. pose proof (injectDependencies_stable (prioInject sch) s1) as H.
    by rewrite Hi in H. }
  destruct Hrun as [e Hv|s1 s2 e Hv Hi Hj|s1 s2 e Hv Hi Hj|s1 s2 e Hv Hi Hj Ho
                   |s1 s2 l o s3 Hv Hi Hj Ho Hr]; simpl.
  - done.
  - apply Hcr in Hi. apply Hex in Hj. destruct Hi, Hj. split; congruence.
  - apply Hcr in Hi. apply Hex in Hj. destruct Hi, Hj. split; congruence.
  - apply Hcr in Hi. apply Hex in Hj. destruct Hi, Hj. split; congruence.
  - apply Hcr in Hi. apply Hex in Hj. destruct Hi, Hj.
    pose proof (forM_runInitializer l s2) as Hh. rewrite Hr in Hh.
    assert (cont s3 = cont s2) as Hc by (destruct o; naive_solver).
    unfold required. rewrite Hc. split; [congruence|]. unfold required in *. congruence.
Qed.

(** A run of [Build] on an open container goes through the phases; the
    container is marked as built when they succeed (or panic). *)
Lemma Build_open sch s o s' :
  built (cont s) = false → Build env sch s = (o, s') →
  ∃ s3, BuildRun env sch s (o, s3)
        ∧ s' = match o with
               | Ok _ | Panic _ => setBuilt true s3
               | _ => s3
               end.
Proof.
  intros Hb. unfold Build. rewrite Hb.
  pose proof (buildSteps_run sch s) as Hrun.
  destruct (buildSteps env sch s) as [[[]|e|e|] s3]; intros [= <- <-]; eauto.
Qed.

Lemma Build_not_OutOfFuel sch s : (Build env sch s).1 ≠ OutOfFuel.
Proof.
  destruct (built (cont s)) eqn:Hb; [by rewrite Build_closed|].
  destruct (Build env sch s) as [o s'] eqn:HB.
  destruct (Build_open sch s o s' Hb HB) as (s3 & Hrun & _). simpl. intros ->.
  inversion Hrun as [| | | |s1 s2 l o s3' Hv Hi Hj Ho Hr].
  pose proof (forM_runInitializer l s2) as Hh. by rewrite Hr in Hh.
Qed.

(** A build that returns an error leaves the container open. *)
Lemma Build_Err_open sch s e s' :
  Build env sch s = (Err e, s') → built (cont s) = false ∧ built (cont s') = false.
Proof.
  intros HB. destruct (built (cont s)) eqn:Hb; [by rewrite Build_closed in HB|].
  destruct (Build_open sch s _ _ Hb HB) as (s3 & Hrun & ->).
  apply BuildRun_frame in Hrun as [Hbuilt _]. simpl in Hbuilt. split; congruence.
Qed.

(** A build that succeeds closes the container. *)
Lemma Build_Ok_closed sch s s' : Build env sch s = (Ok tt, s') → built (cont s') = true.
Proof.
  intros HB. destruct (built (cont s)) eqn:Hb.
  - rewrite Build_closed in HB by done. congruence.
  - by destruct (Build_open sch s _ _ Hb HB) as (s3 & _ & ->).
Qed.

(** ** Claims about registration *)

(** C8. After a successful [Build], [Register] and
    [RegisterInstance] leave the state as it is and return an error: the
    empty-identifier error for an empty identifier, else the nil-argument
    error for a nil argument, else the registration-closed error.  After a
    [Build] that returned an error the container is still open and a
    registration with a non-empty identifier and a supported argument
    succeeds. *)
Theorem registration_after_build sch s o s' :
  Build env sch s = (o, s') →
  match o with
  | Ok _ =>
      (∀ beanID beanType,
         Register env beanID beanType s'
         = (Err (if decide (beanID = emptyString) then ErrBeanIdParamIsEmpty
                 else if decide (beanType = None) then ErrBeanTypeParamIsNil
                 else ErrRegistrationClosed), s'))
      ∧ (∀ beanID inst,
           RegisterInstance env beanID inst s'
           = (Err (if decide (beanID = emptyString) then ErrBeanIdParamIsEmpty
                   else if isNil inst then ErrBeanParamIsNil
                   else ErrRegistrationClosed), s'))
  | Err _ =>
      built (cont s') = false
      ∧ (∀ beanID t, beanID ≠ emptyString → kind t = KPtr ∨ kind t = KStruct →
                     (Register env beanID (Some t) s').1 = Ok tt)
      ∧ (∀ beanID inst, beanID ≠ emptyString → isNil inst = false →
                        (RegisterInstance env beanID inst s').1 = Ok tt)
  | _ => True
  end.
Proof.
  intros HB. destruct o as [[]|e|e|]; [| |done|done].
  - apply Build_Ok_closed in HB. split.
    + intros beanID beanType. apply Register_error. unfold registerError. rewrite HB.
      destruct (decide (beanID = emptyString)); [done|].
      by destruct beanType.
    + intros beanID inst. apply RegisterInstance_error. unfold registerError. rewrite HB.
      destruct (decide (beanID = emptyString)); [done|]. by destruct (isNil inst).
  - apply Build_Err_open in HB as [_ Hb]. split_and!; [done| |].
    + intros beanID t Hid Hk. destruct (Register_open s' beanID t Hb Hid Hk) as [r ->]. done.
    + intros beanID inst Hid Hnil.
      destruct (RegisterInstance_open s' beanID inst Hb Hid Hnil) as (r & h & ->). done.
Qed.

(** C9.  On an open container, a registration under an identifier that is
    already registered succeeds and stores, under the lowercased identifier,
    the descriptor built from the arguments of this call alone; the other
    entries of the registry are kept. *)
Theorem duplicate_registration_replaces s beanID b0 :
  built (cont s) = false → beanID ≠ emptyString →
  beans s !! ToLower beanID = Some b0 →
  (∀ t, kind t = KPtr ∨ kind t = KStruct →
        ∃ s', Register env beanID (Some t) s = (Ok tt, s')
              ∧ beans s' = <[ToLower beanID := typeDescriptor env (ToLower beanID) t]> (beans s))
  ∧ (∀ inst, isNil inst = false →
        ∃ s', RegisterInstance env beanID inst s = (Ok tt, s')
              ∧ beans s' = <[ToLower beanID :=
                              instanceDescriptor env (ToLower beanID) inst (length (heap s))]>
                             (beans s)).
Proof.
  intros Hb Hid _. split.
  - intros t Hk. destruct (Register_open s beanID t Hb Hid Hk) as [r ->]. eauto.
  - intros inst Hnil. destruct (RegisterInstance_open s beanID inst Hb Hid Hnil) as (r & h & ->).
    eauto.
Qed.

(** ** Claims about validation *)

(** C5.  The validation step treats the entry [(id, expected)] as the
    specification says ([entryVerdict]); when some entry has a verdict,
    [Build] returns the verdict of the first such entry in iteration order
    and leaves the state as it was. *)
Theorem validation_verdicts sch s :
  built (cont s) = false →
  (∀ id, checkRequired env id s
         = (match verdictOf env s id with None => Ok tt | Some e => Err e end, s))
  ∧ (∀ id e, verdictOf env s id = Some e →
       ∃ l1 id' l2 e',
         rangeKeys (prioRequired sch) (required s) = l1 ++ id' :: l2
         ∧ Forall (λ k, verdictOf env s k = None) l1
         ∧ verdictOf env s id' = Some e'
         ∧ Build env sch s = (Err e', s)).
Proof.
  intros Hb. split; [apply checkRequired_verdict|].
  intros id e Hv.
  destruct (validate_cases (prioRequired sch) s)
    as [[Hall Hval]|(l1 & id' & l2 & e' & Hl & Hall & Hv' & Hval)].
  - rewrite Forall_forall in Hall. rewrite Hall in Hv; [done|].
    apply elem_of_rangeKeys. unfold verdictOf in Hv.
    destruct (required s !! id); [done|discriminate].
  - exists l1, id', l2, e'. split_and!; try done.
    unfold Build, buildSteps. rewrite Hb. unfold bind at 1. by rewrite Hval.
Qed.

(** What a run that passed validation did to the state. *)
Lemma BuildRun_phases sch s o s3 :
  BuildRun env sch s (o, s3) →
  (s3 = s ∧ ∃ e, o = Err e ∧ validate env (prioRequired sch) s = (Err e, s))
  ∨ ∃ s1 oi s2,
      validate env (prioRequired sch) s = (Ok tt, s)
      ∧ instantiate env (prioCreate sch) s = (Ok tt, s1)
      ∧ injectDependencies env (prioInject sch) s1 = (oi, s2)
      ∧ (isOk oi = false → o = oi)
      ∧ cont s3 = cont s2 ∧ providerCalls s3 = providerCalls s2.
Proof.
  intros Hrun.
  inversion Hrun as [e Hv|s1 s2 e Hv Hi Hj|s1 s2 e Hv Hi Hj|s1 s2 e Hv Hi Hj Ho
                    |s1 s2 l o' s3' Hv Hi Hj Ho Hr]; subst.
  - left. eauto.
  - right. exists s1, (Err e), s3. by split_and!.
  - right. exists s1, (Panic e), s3. by split_and!.
  - right. exists s1, (Ok tt), s3. by split_and!.
  - right. exists s1, (Ok tt), s2. split_and!; try done.
    all: pose proof (forM_runInitializer l s2) as Hh; rewrite Hr in Hh;
      destruct o as [[]|e|e|]; naive_solver.
Qed.

Lemma created_instantiated s s1 prio :
  wf s → instantiate env prio s = (Ok tt, s1) →
  created s s1
  ∧ ∀ k b, beans s1 !! k = Some b → isPtrToStruct (beanType b) = true
           → isNil (instance b) = false.
Proof.
  intros Hwf Hi. destruct (instantiate_spec prio s) as (s1' & Hi' & Hc & Hall).
  assert (s1' = s1) as -> by congruence. split; [done|by apply Hall].
Qed.

Lemma injectDependencies_extends prio s1 oi s2 :
  injectDependencies env prio s1 = (oi, s2) → extends env s1 s2.
Proof.
  intros Hj. pose proof (injectDependencies_stable prio s1) as H. by rewrite Hj in H.
Qed.

(** ** Claims about the instances after a build *)


(** C10.  A [Build] that returns an error leaves the container open, so
    that a later [Build] runs the phases again; what the failed run stored
    stays: when validation had passed, every descriptor registered without
    an instance for a pointer-to-struct type now holds the instance allocated
    for it, and every value the literal provider found is stored under its
    identifier. *)
Theorem failed_build_is_not_rolled_back sch s e s' :
  wf s → Build env sch s = (Err e, s') →
  built (cont s') = false
  ∧ (∀ sch', ∃ s3, BuildRun env sch' s' ((Build env sch' s').1, s3))
  ∧ (validate env (prioRequired sch) s = (Ok tt, s) →
     ∀ k b, beans s !! k = Some b → isNil (instance b) = true →
            isPtrToStruct (beanType b) = true →
            ∃ t l, beanType b = TPtr t
                   ∧ beans s' !! k = Some (mkBean (beanID b) (beanType b) (VPtr t (Some l)) true
                                                  (hasDependencies b) (dependencies b)))
  ∧ (∀ c v, c ∈ newCalls s s' → callOutcome env c = Some (v, true, None) →
            beans s' !! c.1 = Some (mkBean c.1 c.2 v false false [])).
Proof.
  intros Hwf HB. destruct (Build_Err_open _ _ _ _ HB) as [Hb Hb'].
  split; [done|]. split.
  { intros sch'. destruct (Build env sch' s') as [o' s''] eqn:HB'.
    destruct (Build_open sch' s' _ _ Hb' HB') as (s3 & Hrun & _). eauto. }
  destruct (Build_open sch s _ _ Hb HB) as (s3 & Hrun & ->).
  destruct (BuildRun_phases _ _ _ _ Hrun)
    as [(-> & e' & He & Hv)|(s1 & oi & s2 & Hv & Hi & Hj & Hoi & Hc & Hpc)].
  { split; [intros Hv'; congruence|]. intros c v Hin. rewrite newCalls_refl in Hin.
    by apply elem_of_nil in Hin. }
  destruct (created_instantiated s s1 _ Hwf Hi) as [Hcr Hall].
  pose proof (injectDependencies_extends _ _ _ _ Hj) as Hex.
  assert (beans s3 = beans s2) as Hbeans by (unfold beans; by rewrite Hc).
  split.
  - intros _ k b Hk Hnil Hp.
    destruct (cr_kept _ _ Hcr Hwf k b Hk) as (b1 & Hk1 & Hinst).
    pose proof (lookup_weaken _ _ _ _ Hk1 (ext_beans _ _ _ Hex)) as Hk2.
    destruct Hinst as [->|(_ & _ & t & l & Ht & ->)].
    + rewrite (Hall k b Hk1 Hp) in Hnil. done.
    + exists t, l. split; [done|]. by rewrite Hbeans.
  - intros c v Hin Hout.
    assert (newCalls s s3 = newCalls s1 s2) as Hnc.
    { unfold newCalls. by rewrite Hpc, (cr_calls _ _ Hcr). }
    rewrite Hnc in Hin.
    destruct (ext_calls _ _ _ Hex) as (new & Hnew & Hall').
    assert (newCalls s1 s2 = new) as Hn2.
    { unfold newCalls. rewrite Hnew. by rewrite drop_app_length. }
    rewrite Hn2 in Hin. rewrite Forall_forall in Hall'.
    destruct (Hall' c Hin) as (_ & _ & _ & lp & Hlp & Hfound).
    unfold callOutcome in Hout. rewrite Hlp in Hout. simplify_eq.
    rewrite Hbeans. by apply Hfound.
Qed.

(** ** Strings and paths *)

Lemma append_String x (a b : string) : String x a +:+ b = String x (a +:+ b).
Proof. reflexivity. Qed.

Lemma append_assoc (a b c : string) : (a +:+ b) +:+ c = a +:+ (b +:+ c).
Proof. induction a as [|x a IH]; [done|]. by rewrite !append_String, IH. Qed.

Lemma append_nil_r (a : string) : a +:+ emptyString = a.
Proof. induction a as [|x a IH]; [done|]. by rewrite append_String, IH. Qed.

Lemma length_append (a b : string) :
  String.length (a +:+ b) = String.length a + String.length b.
Proof. induction a as [|x a IH]; [done|]. rewrite append_String. simpl. by rewrite IH. Qed.

Lemma Join_cons x y r sep : Join (x :: y :: r) sep = x +:+ sep +:+ Join (y :: r) sep.
Proof. done. Qed.

Lemma Join_snoc p z sep : p ≠ [] → Join (p ++ [z]) sep = Join p sep +:+ sep +:+ z.
Proof.
  induction p as [|x [|y r] IH]; intros Hne; [done|done|].
  change ((x :: y :: r) ++ [z]) with (x :: y :: (r ++ [z])). rewrite !Join_cons.
  change (y :: r ++ [z]) with ((y :: r) ++ [z]). rewrite IH by done.
  by rewrite !append_assoc.
Qed.

Lemma joinLoop_Join i p s :
  p ≠ [] → joinLoop (S i) p s = s +:+ pathSep +:+ Join p pathSep.
Proof.
  revert i s. induction p as [|x [|y r] IH]; intros i s Hne; [done| |].
  - simpl. by rewrite append_assoc.
  - rewrite Join_cons. change (joinLoop (S i) (x :: y :: r) s)
      with (joinLoop (S (S i)) (y :: r) ((s +:+ pathSep) +:+ x)).
    rewrite IH by done. by rewrite !append_assoc.
Qed.

Lemma joinLoop_start p : joinLoop 0 p emptyString = Join p pathSep.
Proof.
  destruct p as [|x [|y r]]; [done|done|].
  change (joinLoop 0 (x :: y :: r) emptyString) with (joinLoop 1 (y :: r) x).
  by rewrite joinLoop_Join.
Qed.

Lemma joinPath_Join p z :
  z ≠ emptyString → Forall (λ k, k ≠ emptyString) p → p ≠ [] →
  joinPath p z = Join (p ++ [z]) pathSep.
Proof.
  intros Hz Hp Hne. unfold joinPath. rewrite joinLoop_start.
  rewrite decide_False by done. rewrite Join_snoc by done.
  assert (0 < String.length (Join p pathSep)) as Hlen.
  { destruct p as [|x [|y r]]; [done| |].
    - apply Forall_cons in Hp as [Hx _]. destruct x; [done|simpl; lia].
    - apply Forall_cons in Hp as [Hx _]. rewrite Join_cons, length_append.
      destruct x; [done|simpl; lia]. }
  apply Nat.ltb_lt in Hlen. rewrite Hlen. by rewrite append_assoc.
Qed.

Lemma Join_app_occurs p q sep : q ≠ [] → occursIn (Join q sep) (Join (p ++ q) sep).
Proof.
  intros Hq. induction p as [|x p IH].
  - exists emptyString, emptyString. simpl. by rewrite append_nil_r.
  - destruct IH as (pre & post & IH). destruct (p ++ q) as [|y r] eqn:Hpq.
    { apply app_eq_nil in Hpq as [_ ->]. done. }
    exists (x +:+ sep +:+ pre), post. simpl app. rewrite Hpq, Join_cons, IH.
    by rewrite !append_assoc.
Qed.

Lemma chainList_app_r reg p q : chainList reg (p ++ q) → chainList reg q.
Proof.
  induction p as [|x p IH]; [done|]. simpl.
  destruct (p ++ q) eqn:Hpq.
  - apply app_eq_nil in Hpq as [_ ->]. done.
  - intros [_ H]. by apply IH.
Qed.

(** ** Cycles and topological orders *)

Lemma before_trans l x y z : NoDup l → before l x y → before l y z → before l x z.
Proof.
  intros Hnd (i & j & Hij & Hi & Hj) (j' & k & Hjk & Hj' & Hk).
  assert (j = j') as <- by (by eapply NoDup_lookup).
  exists i, k. split_and!; [lia|done|done].
Qed.

Lemma before_irrefl l x : NoDup l → ¬ before l x x.
Proof.
  intros Hnd (i & j & Hij & Hi & Hj).
  assert (i = j) by (by eapply NoDup_lookup). lia.
Qed.

Lemma edge_before reg l x y :
  topo reg l → (∀ k, is_Some (reg !! k) → k ∈ l) → edge reg x y → before l y x.
Proof.
  intros Ht Hall (b & Hb & Hy).
  assert (x ∈ l) as Hx by (apply Hall; eauto).
  apply list_elem_of_lookup in Hx as [i Hi].
  assert (reg !!! x = b) as Hbx by (by apply lookup_total_correct).
  rewrite <- Hbx in Hy. destruct (Ht i x y Hi Hy) as (j & Hj & Hl).
  by exists j, i.
Qed.

Lemma chain_before reg l x p y :
  topo reg l → NoDup l → (∀ k, is_Some (reg !! k) → k ∈ l) →
  chainList reg (x :: p ++ [y]) → before l y x.
Proof.
  intros Ht Hnd Hall. revert x. induction p as [|z p IH]; intros x.
  - simpl. intros [He _]. by eapply edge_before.
  - change (chainList reg (x :: (z :: p) ++ [y]))
      with (edge reg x z ∧ chainList reg (z :: p ++ [y])).
    intros [He Hc]. eapply before_trans; [done|by apply IH|by eapply edge_before].
Qed.

(** A registry that has a topological order has no cycle. *)
Lemma topo_no_cycle reg l x p :
  topo reg l → NoDup l → (∀ k, is_Some (reg !! k) → k ∈ l) → ¬ cycle reg x p.
Proof.
  intros Ht Hnd Hall Hc. eapply before_irrefl; [done|]. by eapply chain_before.
Qed.

Lemma instantiatedAs_depsOf b b' : instantiatedAs b b' → depsOf b' = depsOf b.
Proof. by intros [->|(_ & _ & e & l & _ & ->)]. Qed.

Lemma edge_created s s1 x y : wf s → created s s1 → edge (beans s) x y ↔ edge (beans s1) x y.
Proof.
  intros Hwf Hcr. split.
  - intros (b & Hb & Hy). destruct (cr_kept _ _ Hcr Hwf x b Hb) as (b1 & Hb1 & Hi).
    exists b1. split; [done|]. by rewrite (instantiatedAs_depsOf _ _ Hi).
  - intros (b1 & Hb1 & Hy). destruct (beans s !! x) as [b|] eqn:Hb.
    + destruct (cr_kept _ _ Hcr Hwf x b Hb) as (b1' & Hb1' & Hi).
      assert (b1' = b1) as -> by congruence.
      exists b. split; [done|]. by rewrite <- (instantiatedAs_depsOf _ _ Hi).
    + rewrite (cr_dom _ _ Hcr Hwf x Hb) in Hb1. done.
Qed.

Lemma chainList_created s s1 l :
  wf s → created s s1 → chainList (beans s) l ↔ chainList (beans s1) l.
Proof.
  intros Hwf Hcr. induction l as [|x [|y r] IH]; simpl; [done|done|].
  simpl in IH. by rewrite IH, (edge_created s s1 x y Hwf Hcr).
Qed.

(** ** Claims about cycles *)

Lemma verdict_not_cycle s id e x : verdictOf env s id = Some e → e ≠ cyclePrefix +:+ x.
Proof.
  unfold verdictOf, entryVerdict. destruct (required s !! id) as [t|]; [|done]. simpl.
  destruct (beans s !! id) as [b|].
  - destruct (decide _); [done|]. intros [= <-]. discriminate.
  - destruct (decide _); [|done]. intros [= <-]. discriminate.
Qed.

(** The error of a run is an error of the cycle check only when the
    injection traversal raised it. *)
Lemma BuildRun_cycle_error sch s y s3 :
  BuildRun env sch s (Err (cyclePrefix +:+ y), s3) →
  ∃ s1, instantiate env (prioCreate sch) s = (Ok tt, s1)
        ∧ injectDependencies env (prioInject sch) s1 = (Err (cyclePrefix +:+ y), s3).
Proof.
  intros Hrun.
  inversion Hrun as [e Hv|s1 s2 e Hv Hi Hj|s1 s2 e Hv Hi Hj|s1 s2 e Hv Hi Hj Ho
                    |s1 s2 l o' s3' Hv Hi Hj Ho Hr]; subst.
  - destruct (validate_cases (prioRequired sch) s3)
      as [[_ Hv']|(l1 & id & l2 & e & _ & _ & Hverd & Hv')]; [congruence|].
    assert (e = cyclePrefix +:+ y) as -> by congruence.
    by destruct (verdict_not_cycle _ _ _ y Hverd).
  - eauto.
  - pose proof (initializerOrder_spec (prioInit sch) s3) as Hs. rewrite Ho in Hs.
    destruct Hs as [_ [r Hr]]. discriminate.
  - pose proof (forM_runInitializer l s2) as Hh. rewrite Hr in Hh.
    destruct Hh as (_ & _ & l1 & id & l2 & ierr & _ & _ & _ & He). discriminate.
Qed.

(** A registry with a dependency cycle is never built successfully, and the
    error of the cycle check carries a path that ends with a cycle. *)
Lemma cycle_error_path sch s o s' :
  wf s → built (cont s) = false → beans s !! emptyString = None →
  Build env sch s = (o, s') →
  (∀ x l, cycle (beans s) x l → isOk o = false)
  ∧ (∀ y, o = Err (cyclePrefix +:+ y) →
       ∃ p1 z p2,
         cycle (beans s) z p2
         ∧ y = Join (p1 ++ z :: p2 ++ [z]) pathSep
         ∧ occursIn (Join (z :: p2 ++ [z]) pathSep) y).
Proof.
  intros Hwf Hb Hempty HB.
  destruct (Build_open sch s _ _ Hb HB) as (s3 & Hrun & Hs'). split.
  - intros x l Hcyc. destruct o as [[]|e|e|]; try done. exfalso.
    inversion Hrun as [| | | |s1 s2 ord o' s3' Hv Hi Hj Ho Hr]; subst.
    destruct (created_instantiated s s1 _ Hwf Hi) as [Hcr _].
    pose proof (injectDependencies_extends _ _ _ _ Hj) as Hex.
    pose proof (initializerOrder_spec (prioInit sch) s2) as Hs. rewrite Ho in Hs.
    destruct Hs as (_ & Ht & Hnd & Hall).
    apply (topo_no_cycle (beans s2) ord x l Ht Hnd); [intros k Hk; by apply Hall|].
    unfold cycle in *. eapply chainList_mono; [apply Hex|].
    by apply (chainList_created s s1).
  - intros y ->. apply BuildRun_cycle_error in Hrun as (s1 & Hi & Hj).
    destruct (created_instantiated s s1 _ Hwf Hi) as [Hcr _].
    pose proof (injectDependencies_good (prioInject sch) s1) as Hg. rewrite Hj in Hg.
    destruct Hg as [Hcyc _]. destruct (Hcyc y eq_refl) as (p & z & -> & Hz & Hall & Hchain).
    apply (chainList_created s s1) in Hchain; [|done|done].
    assert (Forall (λ k, k ≠ emptyString) p) as Hne.
    { eapply Forall_impl; [exact Hall|]. intros k [b Hk] ->.
      rewrite (cr_dom _ _ Hcr Hwf _ Hempty) in Hk. done. }
    assert (z ≠ emptyString) as Hzne by (rewrite Forall_forall in Hne; by apply Hne).
    apply list_elem_of_split in Hz as (p1 & p2 & ->).
    exists p1, z, p2.
    assert ((p1 ++ z :: p2) ++ [z] = p1 ++ z :: p2 ++ [z]) as Heq by (by rewrite <- app_assoc).
    rewrite joinPath_Join; [|done|done|by destruct p1]. rewrite Heq in *.
    split_and!; [|done|].
    + unfold cycle. by eapply chainList_app_r.
    + by apply Join_app_occurs.
Qed.

(** ** The two cycles of the tests *)

Lemma visit_on_path f id s bn :
  beans s.1 !! id = Some bn → id ∈ onPath s.2 →
  visit env (S f) id s = (Err (cyclePrefix +:+ joinPath (path s.2) id), s).
Proof.
  intros Hb Hon. simpl. unfold bind, get. rewrite Hb. by rewrite decide_True.
Qed.

(** A node whose first dependency fails in the recursive call. *)
Lemma visit_first_dep_fails f id s bn dep rest bd e s2 :
  beans s.1 !! id = Some bn → id ∉ onPath s.2 → id ∉ visited s.2 →
  hasDependencies bn = true → isNil (instance bn) = false →
  dependencies bn = dep :: rest → beans s.1 !! dep = Some bd →
  visit env f dep (s.1, mkDfs (visited s.2) ({[id]} ∪ onPath s.2) (path s.2 ++ [id]))
  = (Err e, s2) →
  visit env (S f) id s = (Err e, s2).
Proof.
  intros Hb Hon Hvis Hhas Hnil Hdeps Hdep Hrec. simpl. unfold bind at 1, get. rewrite Hb.
  rewrite decide_False by done. rewrite decide_False by done.
  unfold bind at 1, enterNode, modify. unfold bind at 1. rewrite Hhas, Hnil, Hdeps.
  unfold bind at 1. simpl foldM. unfold bind at 1. unfold injectDependency.
  unfold bind at 1. rewrite onState_run. unfold lookupDependency. simpl fst. rewrite Hdep.
  simpl. unfold bind at 1. by rewrite Hrec.
Qed.

Lemma created_dom s s1 : wf s → created s s1 → dom (beans s1) = dom (beans s).
Proof.
  intros Hwf Hcr. apply set_eq. intros k. rewrite !elem_of_dom.
  destruct (beans s !! k) as [b|] eqn:Hb.
  - destruct (cr_kept _ _ Hcr Hwf k b Hb) as (b' & -> & _). split; eauto.
  - rewrite (cr_dom _ _ Hcr Hwf k Hb). done.
Qed.

(** What the instantiation loop leaves of a descriptor that has
    dependencies and a pointer-to-struct type. *)
Lemma created_receiver s s1 prio k b :
  wf s → instantiate env prio s = (Ok tt, s1) → beans s !! k = Some b →
  isPtrToStruct (beanType b) = true →
  ∃ b1, beans s1 !! k = Some b1 ∧ isNil (instance b1) = false
        ∧ hasDependencies b1 = hasDependencies b ∧ dependencies b1 = dependencies b.
Proof.
  intros Hwf Hi Hb Hp. destruct (created_instantiated s s1 prio Hwf Hi) as [Hcr Hall].
  destruct (cr_kept _ _ Hcr Hwf k b Hb) as (b1 & Hb1 & Hinst).
  exists b1. split; [done|].
  destruct Hinst as [->|(_ & _ & e & l & _ & ->)]; [|done].
  split_and!; [by eapply Hall|done|done].
Qed.

Lemma injectDependencies_first prio s k rest e s2 d2 :
  rangeKeys prio (beans s) = k :: rest →
  visit env (S (size (beans s))) k (s, mkDfs ∅ ∅ []) = (Err e, (s2, d2)) →
  injectDependencies env prio s = (Err e, s2).
Proof.
  intros Hr Hv. unfold injectDependencies. rewrite Hr, forM_cons. unfold bind. by rewrite Hv.
Qed.

Lemma Build_inject_fails sch s s1 e s2 :
  built (cont s) = false → validate env (prioRequired sch) s = (Ok tt, s) →
  instantiate env (prioCreate sch) s = (Ok tt, s1) →
  injectDependencies env (prioInject sch) s1 = (Err e, s2) →
  Build env sch s = (Err e, s2).
Proof.
  intros Hb Hv Hi Hj. unfold Build, buildSteps. rewrite Hb.
  unfold bind at 1. rewrite Hv. unfold bind at 1. rewrite Hi. unfold bind at 1. by rewrite Hj.
Qed.

(** A single component that depends on its own identifier. *)
Lemma self_cycle sch s x b :
  built (cont s) = false → x ≠ emptyString → beans s = {[x := b]} → beanID b = x →
  hasDependencies b = true → dependencies b = [x] → isPtrToStruct (beanType b) = true →
  validate env (prioRequired sch) s = (Ok tt, s) →
  ∃ s', Build env sch s = (Err (cyclePrefix +:+ x +:+ pathSep +:+ x), s').
Proof.
  intros Hb Hx Hreg Hid Hhas Hdeps Hp Hv.
  assert (Hwf : wf s).
  { intros k b'. rewrite Hreg. intros Hl. apply lookup_singleton_Some in Hl as [<- <-]. done. }
  destruct (instantiate_spec (prioCreate sch) s) as (s1 & Hi & Hcr & _).
  assert (beans s !! x = Some b) as Hbx by (rewrite Hreg; apply lookup_singleton_eq).
  destruct (created_receiver s s1 _ x b Hwf Hi Hbx Hp) as (b1 & Hb1 & Hnil & Hhas1 & Hdeps1).
  assert (size (beans s1) = 1) as Hsize.
  { rewrite <- size_dom, (created_dom s s1 Hwf Hcr), size_dom, Hreg. apply map_size_singleton. }
  assert (∃ rest, rangeKeys (prioInject sch) (beans s1) = x :: rest) as [rest Hr].
  { destruct (rangeKeys (prioInject sch) (beans s1)) as [|k rest] eqn:Hr.
    - assert (x ∈ rangeKeys (prioInject sch) (beans s1)) as Hin
        by (apply elem_of_rangeKeys; eauto).
      rewrite Hr in Hin. by apply elem_of_nil in Hin.
    - assert (k ∈ rangeKeys (prioInject sch) (beans s1)) as Hin by (rewrite Hr; left).
      apply elem_of_rangeKeys, elem_of_dom in Hin.
      rewrite (created_dom s s1 Hwf Hcr), Hreg, dom_singleton_L in Hin.
      apply elem_of_singleton in Hin as ->. eauto. }
  eexists. eapply Build_inject_fails; [done|done|exact Hi|].
  eapply injectDependencies_first; [exact Hr|]. rewrite Hsize.
  eapply (visit_first_dep_fails 1 x (s1, mkDfs ∅ ∅ []) b1 x [] b1);
    [exact Hb1|set_solver|set_solver|congruence|exact Hnil|congruence|exact Hb1|].
  cbn [fst snd visited onPath path app].
  rewrite (visit_on_path 0 x _ b1); [|exact Hb1|simpl; set_solver].
  cbn [fst snd visited onPath path].
  rewrite joinPath_Join; [|done|by apply Forall_singleton|done]. reflexivity.
Qed.

Lemma two_node_visit s1 u v bu bv :
  beans s1 !! u = Some bu → beans s1 !! v = Some bv →
  u ≠ v → u ≠ emptyString → v ≠ emptyString →
  hasDependencies bu = true → hasDependencies bv = true →
  dependencies bu = [v] → dependencies bv = [u] →
  isNil (instance bu) = false → isNil (instance bv) = false →
  ∃ r, visit env 3 u (s1, mkDfs ∅ ∅ [])
       = (Err (cyclePrefix +:+ u +:+ pathSep +:+ v +:+ pathSep +:+ u), r).
Proof.
  intros Hu Hv Huv Hune Hvne Hhu Hhv Hdu Hdv Hnu Hnv. eexists.
  eapply (visit_first_dep_fails 2 u (s1, mkDfs ∅ ∅ []) bu v [] bv);
    [exact Hu|set_solver|set_solver|done|done|done|exact Hv|].
  cbn [fst snd visited onPath path app].
  eapply (visit_first_dep_fails 1 v _ bv u [] bu);
    [exact Hv|simpl; set_solver|set_solver|done|done|done|exact Hu|].
  cbn [fst snd visited onPath path app].
  rewrite (visit_on_path 0 u _ bu); [|exact Hu|simpl; set_solver].
  cbn [fst snd visited onPath path].
  rewrite joinPath_Join; [|done| |done].
  - reflexivity.
  - apply Forall_cons. split; [done|]. by apply Forall_singleton.
Qed.

(** Two components that depend on each other. *)
Lemma two_node_cycle sch s a b ba bb :
  built (cont s) = false → a ≠ emptyString → b ≠ emptyString → a ≠ b →
  beans s = {[a := ba; b := bb]} → beanID ba = a → beanID bb = b →
  hasDependencies ba = true → hasDependencies bb = true →
  dependencies ba = [b] → dependencies bb = [a] →
  isPtrToStruct (beanType ba) = true → isPtrToStruct (beanType bb) = true →
  validate env (prioRequired sch) s = (Ok tt, s) →
  ∃ s',
    Build env sch s = (Err (cyclePrefix +:+ a +:+ pathSep +:+ b +:+ pathSep +:+ a), s')
    ∨ Build env sch s = (Err (cyclePrefix +:+ b +:+ pathSep +:+ a +:+ pathSep +:+ b), s').
Proof.
  intros Hb Ha Hbne Hab Hreg Hida Hidb Hha Hhb Hda Hdb Hpa Hpb Hv.
  assert (beans s !! a = Some ba) as Hba by (rewrite Hreg; apply lookup_insert_eq).
  assert (beans s !! b = Some bb) as Hbb.
  { rewrite Hreg, lookup_insert_ne by done. apply lookup_singleton_eq. }
  assert (Hwf : wf s).
  { intros k b'. rewrite Hreg. intros Hl.
    apply lookup_insert_Some in Hl as [[<- <-]|[_ Hl]]; [done|].
    apply lookup_singleton_Some in Hl as [<- <-]. done. }
  destruct (instantiate_spec (prioCreate sch) s) as (s1 & Hi & Hcr & _).
  destruct (created_receiver s s1 _ a ba Hwf Hi Hba Hpa) as (a1 & Ha1 & Hna & Hha1 & Hda1).
  destruct (created_receiver s s1 _ b bb Hwf Hi Hbb Hpb) as (b1 & Hb1 & Hnb & Hhb1 & Hdb1).
  assert (size (beans s1) = 2) as Hsize.
  { rewrite <- size_dom, (created_dom s s1 Hwf Hcr), size_dom, Hreg.
    rewrite map_size_insert_None; [by rewrite map_size_singleton|].
    by apply lookup_singleton_None. }
  assert (∃ k rest, rangeKeys (prioInject sch) (beans s1) = k :: rest ∧ (k = a ∨ k = b))
    as (k & rest & Hr & Hk).
  { destruct (rangeKeys (prioInject sch) (beans s1)) as [|k rest] eqn:Hr.
    - assert (a ∈ rangeKeys (prioInject sch) (beans s1)) as Hin
        by (apply elem_of_rangeKeys; eauto).
      rewrite Hr in Hin. by apply elem_of_nil in Hin.
    - assert (k ∈ rangeKeys (prioInject sch) (beans s1)) as Hin by (rewrite Hr; left).
      apply elem_of_rangeKeys, elem_of_dom in Hin.
      rewrite (created_dom s s1 Hwf Hcr), Hreg, dom_insert_L, dom_singleton_L in Hin.
      exists k, rest. split; [done|]. set_solver. }
  destruct Hk as [-> | ->].
  - destruct (two_node_visit s1 a b a1 b1) as [[s2 d2] Hvis]; try done; try congruence.
    exists s2. left. eapply Build_inject_fails; [done|done|exact Hi|].
    eapply injectDependencies_first; [exact Hr|]. rewrite Hsize. exact Hvis.
  - destruct (two_node_visit s1 b a b1 a1) as [[s2 d2] Hvis]; try done; try congruence.
    exists s2. right. eapply Build_inject_fails; [done|done|exact Hi|].
    eapply injectDependencies_first; [exact Hr|]. rewrite Hsize. exact Hvis.
Qed.

(** ** Claims about the initializers *)

Lemma before_split l d x :
  before l d x ↔ ∃ l1 l2 l3, l = l1 ++ d :: l2 ++ x :: l3.
Proof.
  split.
  - intros (i & j & Hij & Hi & Hj).
    apply list_elem_of_split_length in Hi as (l1 & r & -> & ->).
    rewrite lookup_app_r in Hj by lia.
    replace (j - length l1) with (S (j - length l1 - 1)) in Hj by lia. simpl in Hj.
    apply list_elem_of_split_length in Hj as (l2 & l3 & -> & _). eauto.
  - intros (l1 & l2 & l3 & ->). exists (length l1), (length l1 + S (length l2)).
    split_and!; [lia| |].
    + by rewrite list_lookup_middle.
    + rewrite lookup_app_r by lia.
      replace (length l1 + S (length l2) - length l1) with (S (length l2)) by lia. simpl.
      by rewrite list_lookup_middle.
Qed.

Lemma before_filter (P : string → Prop) `{!∀ x, Decision (P x)} l d x :
  before l d x → P d → P x → before (filter P l) d x.
Proof.
  intros (l1 & l2 & l3 & ->)%before_split Hd Hx. apply before_split.
  exists (filter P l1), (filter P l2), (filter P l3).
  rewrite filter_app, filter_cons_True, filter_app, filter_cons_True; done.
Qed.

Lemma before_prefix p l d x :
  p `prefix_of` l → NoDup l → x ∈ p → before l d x → before p d x.
Proof.
  intros [r ->] Hnd Hx (i & j & Hij & Hi & Hj).
  apply list_elem_of_lookup in Hx as [j' Hj'].
  assert (j = j') as <-.
  { eapply NoDup_lookup; [done|done|]. by apply lookup_app_l_Some. }
  assert (j < length p) by (by eapply lookup_lt_Some).
  exists i, j. split_and!; [done| |done].
  rewrite lookup_app_l in Hi; [done|lia].
Qed.

Lemma three_in_order (l : list string) a b c :
  NoDup l → (∀ x, x ∈ l → x = a ∨ x = b ∨ x = c) →
  before l b a → before l a c → l = [b; a; c].
Proof.
  intros Hnd Hall (i & j & Hij & Hi & Hj) (j' & k & Hjk & Hj' & Hk).
  assert (j = j') as <- by (by eapply NoDup_lookup).
  assert (List.length l <= 3)%nat as Hlen.
  { change 3 with (List.length [a; b; c]). apply submseteq_length, NoDup_submseteq; [done|].
    intros x Hx. destruct (Hall x Hx) as [-> | [-> | ->] ]; set_solver. }
  assert (k < List.length l)%nat by (by eapply lookup_lt_Some).
  assert (i = 0 ∧ j = 1 ∧ k = 2)%nat as (-> & -> & ->) by lia.
  destruct l as [|x0 [|x1 [|x2 [|x3 r]]]]; simpl in *; try lia. by simplify_eq.
Qed.

(** What a run did with the initializers: nothing, or it went through a
    prefix of the initializer order, up to the end if it succeeded. *)
Lemma BuildRun_inits sch s o s3 :
  BuildRun env sch s (o, s3) →
  (newInits s s3 = [] ∧ o ≠ Ok tt)
  ∨ ∃ ord,
      (∃ s1 s2, instantiate env (prioCreate sch) s = (Ok tt, s1)
                ∧ injectDependencies env (prioInject sch) s1 = (Ok tt, s2)
                ∧ beans s3 = beans s2)
      ∧ topo (beans s3) ord ∧ NoDup ord ∧ (∀ x, x ∈ ord ↔ is_Some (beans s3 !! x))
      ∧ match o with
        | Ok _ =>
            newInits s s3
            = map (λ id, (id, None)) (filter (hasInitializer env (beans s3)) ord)
        | Err e =>
            ∃ l1 id l2 ierr,
              ord = l1 ++ id :: l2 ∧ hasInitializer env (beans s3) id
              ∧ newInits s s3
                = map (λ id, (id, None)) (filter (hasInitializer env (beans s3)) l1)
                  ++ [(id, Some ierr)]
              ∧ e = hookError id ierr
        | _ => False
        end.
Proof.
  intros Hrun.
  assert (∀ s1, instantiate env (prioCreate sch) s = (Ok tt, s1) → initCalls s1 = initCalls s)
    as Hcr.
  { intros s1 Hi. destruct (instantiate_spec (prioCreate sch) s) as (s1' & Hi' & Hc & _).
    assert (s1' = s1) as -> by congruence. apply Hc. }
  assert (∀ s1 oi s2, injectDependencies env (prioInject sch) s1 = (oi, s2)
                      → initCalls s2 = initCalls s1) as Hex.
  { intros s1 oi s2 Hj. apply injectDependencies_extends in Hj. apply Hj. }
  inversion Hrun as [e Hv|s1 s2 e Hv Hi Hj|s1 s2 e Hv Hi Hj|s1 s2 e Hv Hi Hj Ho
                    |s1 s2 l o' s3' Hv Hi Hj Ho Hr]; subst.
  - left. unfold newInits. by rewrite drop_all.
  - left. unfold newInits. rewrite (Hex _ _ _ Hj), (Hcr _ Hi). by rewrite drop_all.
  - left. unfold newInits. rewrite (Hex _ _ _ Hj), (Hcr _ Hi). by rewrite drop_all.
  - left. unfold newInits. rewrite (Hex _ _ _ Hj), (Hcr _ Hi). by rewrite drop_all.
  - right. exists l.
    pose proof (initializerOrder_spec (prioInit sch) s2) as Hs. rewrite Ho in Hs.
    destruct Hs as (_ & Ht & Hnd & Hall).
    pose proof (forM_runInitializer l s2) as Hh. rewrite Hr in Hh.
    assert (initCalls s2 = initCalls s) as Hic by (rewrite (Hex _ _ _ Hj); by apply Hcr).
    destruct o as [[]|e|e|]; try done.
    + destruct Hh as (Hc & _ & Hcalls). assert (beans s3 = beans s2) as -> by
        (unfold beans; by rewrite Hc).
      split; [by exists s1, s2|]. split_and!; try done. unfold newInits. rewrite Hcalls, Hic. by rewrite drop_app_length.
    + destruct Hh as (Hc & _ & l1 & id & l2 & ierr & -> & Hid & Hcalls & ->).
      assert (beans s3 = beans s2) as -> by (unfold beans; by rewrite Hc).
      split; [by exists s1, s2|]. split_and!; try done. exists l1, id, l2, ierr. split_and!; try done.
      unfold newInits. rewrite Hcalls, Hic. by rewrite drop_app_length.
Qed.

Lemma hasInitializer_registered reg id : hasInitializer env reg id → is_Some (reg !! id).
Proof.
  intros [Hn _]. destruct (reg !! id) as [b|] eqn:Hb; [eauto|].
  by rewrite (lookup_total_None _ _ Hb) in Hn.
Qed.

Lemma fst_map_None (l : list string) :
  (map (λ id, (id, @None string)) l).*1 = l.
Proof. induction l as [|x l IH]; simpl; by f_equal. Qed.

(** C7. On an open container, the initializers [Build] calls are called
    after the injection traversal has returned without error, and are those of
    instances that implement the interface, each at most once; on success
    every such instance had its initializer called; a bean's initializer is
    called after those of the beans it depends on; a failing initializer is
    the last one called, and the build fails with its error wrapped with the
    bean's identifier. With three such beans, [c] depending on [a] and [a] on
    [b], the calls are [b], [a], [c] in this order. *)
Theorem initializers_run_in_dependency_order sch s o s' :
  built (cont s) = false → Build env sch s = (o, s') →
  let calls := newInits s s' in
  let hooked := hasInitializer env (beans s') in
  NoDup calls.*1
  ∧ (∀ id, id ∈ calls.*1 → hooked id)
  ∧ (o = Ok tt → ∀ id, hooked id → id ∈ calls.*1)
  ∧ (∀ x d, x ∈ calls.*1 → edge (beans s') x d → hooked d → before calls.*1 d x)
  ∧ (∀ id ierr, (id, Some ierr) ∈ calls →
       o = Err (hookError id ierr) ∧ last calls = Some (id, Some ierr))
  ∧ (∀ a b c, o = Ok tt → (∀ id, hooked id ↔ id = a ∨ id = b ∨ id = c) →
       edge (beans s') c a → edge (beans s') a b → calls.*1 = [b; a; c])
  ∧ (calls ≠ [] →
     ∃ s1 s2, instantiate env (prioCreate sch) s = (Ok tt, s1)
              ∧ injectDependencies env (prioInject sch) s1 = (Ok tt, s2)
              ∧ beans s' = beans s2).
Proof.
  intros Hb HB calls hooked. destruct (Build_open sch s o s' Hb HB) as (s3 & Hrun & Hs').
  assert (beans s' = beans s3 ∧ initCalls s' = initCalls s3) as [Hbe Hic].
  { destruct o; subst s'; by autorewrite with state. }
  assert (calls = newInits s s3) as Hcalls by (unfold calls, newInits; by rewrite Hic).
  subst hooked. rewrite Hbe. clearbody calls. subst calls. clear Hbe Hic Hs' HB s'.
  destruct (BuildRun_inits sch s o s3 Hrun)
    as [[-> Ho]|(ord & Hinj & Ht & Hnd & Hall & Hcase)].
  { split_and!; [constructor|set_solver|done|set_solver|set_solver|done|done]. }
  set (F := filter (hasInitializer env (beans s3)) ord).
  assert (NoDup F) as HndF by (by apply NoDup_filter).
  assert (∀ x d, x ∈ F → edge (beans s3) x d → hasInitializer env (beans s3) d → before F d x)
    as HbefF.
  { intros x d [Hx _]%list_elem_of_filter He Hd. apply before_filter; [|done..].
    eapply edge_before; [done| |done]. intros k Hk. by apply Hall. }
  assert ((newInits s s3).*1 `prefix_of` F
          ∧ (o = Ok tt → (newInits s s3).*1 = F)
          ∧ (∀ id ierr, (id, Some ierr) ∈ newInits s s3 →
               o = Err (hookError id ierr) ∧ last (newInits s s3) = Some (id, Some ierr)))
    as (Hpre & Hok & Hfail).
  { destruct o as [[]|e|e|]; try done.
    - rewrite Hcase, fst_map_None. split_and!; [done|done|].
      intros id ierr (y & Hy & _)%list_elem_of_fmap. done.
    - destruct Hcase as (l1 & id & l2 & ierr & -> & Hid & -> & ->).
      rewrite fmap_app, fst_map_None. split_and!; [|done|].
      + unfold F. rewrite filter_app, filter_cons_True by done.
        simpl. eexists (filter _ l2). by rewrite <- app_assoc.
      + intros id' ierr' [(y & Hy & _)%list_elem_of_fmap| [= -> ->]%list_elem_of_singleton]%elem_of_app;
          [done|]. by rewrite last_snoc. }
  destruct Hpre as [r Hr]. split_and!.
  - rewrite Hr in HndF. by apply NoDup_app in HndF as [? _].
  - intros id Hid. assert (id ∈ F) as [? _]%list_elem_of_filter; [|done].
    rewrite Hr. set_solver.
  - intros Ho id Hid. rewrite (Hok Ho). apply list_elem_of_filter. split; [done|].
    by apply Hall, hasInitializer_registered.
  - intros x d Hx He Hd. apply (before_prefix _ F); [by exists r|done|done|].
    apply HbefF; [|done..]. rewrite Hr. set_solver.
  - done.
  - intros a b c Ho Hh Hca Hab. rewrite (Hok Ho). apply three_in_order; [done| | |].
    + intros x [Hx _]%list_elem_of_filter. by apply Hh.
    + apply HbefF; [|done|]; [apply list_elem_of_filter; split|]; try (apply Hh; eauto; fail).
      apply Hall. destruct Hab as (? & ? & _); eauto.
    + apply HbefF; [|done|]; [apply list_elem_of_filter; split|]; try (apply Hh; eauto; fail).
      apply Hall. destruct Hca as (? & ? & _); eauto.
  - intros _. exact Hinj.
Qed.

(** ** Field injection *)

Lemma selects_iff depID sf :
  selects depID sf
  ↔ default emptyString (ftag sf) ≠ emptyString
    ∧ ToLower (default emptyString (ftag sf)) = depID ∧ fexported sf = true.
Proof.
  unfold selects, annotation. destruct (ftag sf) as [a|]; simpl.
  - destruct (decide (a = emptyString)) as [->|Ha]; simpl; [naive_solver|].
    split; [intros [? [= ?]]|intros (_ & -> & ?)]; done.
  - naive_solver.
Qed.

Lemma sameTypes_refl h : sameTypes h h.
Proof. intros k x Hk. eauto. Qed.

Lemma sameTypes_trans h1 h2 h3 : sameTypes h1 h2 → sameTypes h2 h3 → sameTypes h1 h3.
Proof.
  intros H12 H23 k x Hk. destruct (H12 k x Hk) as (x' & Hk' & Ht).
  destruct (H23 k x' Hk') as (x'' & Hk'' & Ht'). exists x''. split; [done|congruence].
Qed.

Lemma sameTypes_alloc h v : sameTypes h (h ++ [v]).
Proof. intros k x Hk. exists x. split; [|done]. by apply lookup_app_l_Some. Qed.

Lemma sameTypes_store l i x h : sameTypes h (store l i x h).
Proof.
  unfold store. destruct (h !! l) as [[| | | |n fs]|] eqn:Hl; try apply sameTypes_refl.
  intros k y Hk. destruct (decide (k = l)) as [->|Hne].
  - exists (VStruct n (<[i:=x]> fs)). split.
    + apply list_lookup_insert_eq. by eapply lookup_lt_Some.
    + assert (y = VStruct n fs) as -> by congruence. done.
  - exists y. split; [|done]. rewrite <- Hk. by apply list_lookup_insert_ne.
Qed.

Lemma sameTypes_struct h h' l n fs :
  sameTypes h h' → h !! l = Some (VStruct n fs) → ∃ fs', h' !! l = Some (VStruct n fs').
Proof.
  intros Hs Hl. destruct (Hs _ _ Hl) as (x' & Hl' & Ht).
  destruct x'; simpl in Ht; try discriminate. injection Ht as ->. eauto.
Qed.

Lemma sameTypes_pointeeOk h h' v : sameTypes h h' → pointeeOk h v → pointeeOk h' v.
Proof.
  intros Hs. destruct v as [| | |e [l|]|]; simpl; try done.
  intros (x & Hl & Ht). destruct (Hs _ _ Hl) as (x' & Hl' & Ht'). exists x'.
  split; [done|congruence].
Qed.

Lemma setField_store l i t x h n fs :
  assignable env x t = true → h !! l = Some (VStruct n fs) →
  setField env l i t x h = (Ok tt, store l i x h).
Proof. intros Ha Hl. unfold setField, store. by rewrite Ha, Hl. Qed.

Lemma assignable_same x t : typeOf x = Some t → assignable env x t = true.
Proof. intros Ht. unfold assignable. rewrite Ht. by rewrite bool_decide_eq_true_2. Qed.

Lemma firstRule_cases ft dt dv :
  firstRule env ft dt dv
  = if decide (ft = dt) then Some ExactType
    else if decide (applies env ft dt dv InterfaceField) then Some InterfaceField
    else if decide (applies env ft dt dv PointerFromValue) then Some PointerFromValue
    else if decide (applies env ft dt dv ValueFromPointer) then Some ValueFromPointer
    else if decide (applies env ft dt dv PointerToPointer) then Some PointerToPointer
    else None.
Proof.
  unfold firstRule, rules. rewrite !filter_cons, filter_nil.
  repeat case_decide; done.
Qed.

Lemma emptyStructPointer_test e :
  bool_decide (kind e = KStruct) && (length (fieldsOf env e) =? 0)%nat
  = bool_decide (emptyStructPointer env (TPtr e)).
Proof.
  simpl. destruct (decide (kind e = KStruct)) as [Hk|Hk].
  - rewrite (bool_decide_eq_true_2 _ Hk). simpl.
    destruct (Nat.eqb_spec (length (fieldsOf env e)) 0) as [H0|H0].
    + by rewrite bool_decide_eq_true_2.
    + rewrite bool_decide_eq_false_2; [done|]. by intros [_ ?].
  - rewrite (bool_decide_eq_false_2 _ Hk). simpl.
    rewrite bool_decide_eq_false_2; [done|]. by intros [? _].
Qed.

Lemma rule3_test ft dt dv :
  bool_decide (kind ft = KPtr) && bool_decide (kind dt = KStruct)
    && bool_decide (Elem ft = Some dt)
  = bool_decide (applies env ft dt dv PointerFromValue).
Proof.
  rewrite <- !bool_decide_and. apply bool_decide_ext. simpl.
  destruct ft; simpl; split; intros H; destruct_and?; simplify_eq; done.
Qed.

Lemma rule4_test ft dt dv :
  bool_decide (kind ft = KStruct) && bool_decide (kind dt = KPtr)
    && bool_decide (Elem dt = Some ft)
  = bool_decide (applies env ft dt dv ValueFromPointer).
Proof.
  rewrite <- !bool_decide_and. apply bool_decide_ext. simpl.
  destruct dt; simpl; split; intros H; destruct_and?; simplify_eq; done.
Qed.

Lemma rule5_test ft dt dv :
  bool_decide (kind ft = KPtr) && bool_decide (kind dt = KPtr)
    && bool_decide (Elem ft = Elem dt)
  = bool_decide (applies env ft dt dv PointerToPointer).
Proof.
  rewrite <- !bool_decide_and. apply bool_decide_ext. simpl. tauto.
Qed.

(** The last rule never applies where the first one does not. *)
Lemma rule5_exact ft dt dv : applies env ft dt dv PointerToPointer → ft = dt.
Proof. simpl. destruct ft, dt; simpl; intros (? & ? & ?); simplify_eq; done. Qed.

Lemma insert_last_cell (h : Heap) (z x : value) : <[length h := x]> (h ++ [z]) = h ++ [x].
Proof.
  replace (length h) with (length h + 0) at 1 by lia.
  by rewrite insert_app_r.
Qed.

(** One step of the loop of [injectIntoStruct] does what the rules say. *)
Lemma injectField_refines l n fs depBean i sf h :
  typeOf (instance depBean) = Some (beanType depBean) →
  h !! l = Some (VStruct n fs) →
  pointeeOk h (instance depBean) →
  injectField env (Some l) depBean i sf h = (Ok tt, specInjectField env l depBean i sf h).
Proof.
  intros Hty Hl Hp. unfold injectField, specInjectField.
  destruct (decide (default emptyString (ftag sf) = emptyString)) as [He|He].
  { rewrite decide_False; [done|]. by intros (? & _)%selects_iff. }
  destruct (decide (ToLower (default emptyString (ftag sf)) = beanID depBean)) as [Hid|Hid];
    [|rewrite decide_False; [done|by intros (_ & ? & _)%selects_iff]].
  destruct (fexported sf) eqn:Hex; cbn [negb];
    [|rewrite decide_False; [done|intros (_ & _ & ?)%selects_iff; congruence]].
  assert (selects (beanID depBean) sf) as Hsel by (by apply selects_iff).
  destruct (decide (selects (beanID depBean) sf)) as [_|?]; [|done].
  rewrite firstRule_cases.
  destruct (decide (ftype sf = beanType depBean)) as [Heq|Hne].
  { rewrite Heq. unfold assigned.
    destruct (beanType depBean) as [| |m|m|e] eqn:Hdt.
    1-4: destruct (decide (emptyStructPointer env _));
      (apply (setField_store _ _ _ _ _ n fs); [by apply assignable_same|done]).
    rewrite emptyStructPointer_test. destruct (decide (emptyStructPointer env (TPtr e))) as [Hes|Hes].
    - rewrite (bool_decide_eq_true_2 _ Hes). unfold reflectNew, bind, alloc, ret.
      apply (setField_store _ _ _ _ _ n fs); [by apply assignable_same|].
      by apply lookup_app_l_Some.
    - rewrite (bool_decide_eq_false_2 _ Hes).
      apply (setField_store _ _ _ _ _ n fs); [by apply assignable_same|done]. }
  destruct (decide (kind (ftype sf) = KInterface)) as [Hki|Hki].
  { rewrite Hty. destruct (envImplements env (beanType depBean) (ftype sf)) eqn:Him.
    - rewrite decide_True by (simpl; by rewrite Hty). simpl.
      apply (setField_store _ _ _ _ _ n fs); [|done].
      unfold assignable. rewrite Hty, Him, (bool_decide_eq_true_2 _ Hki). apply orb_true_r.
    - rewrite decide_False by (simpl; rewrite Hty, Him; by intros [_ ?]).
      repeat (rewrite decide_False; [|simpl; destruct (ftype sf); intros ?; destruct_and?; done]).
      done. }
  rewrite decide_False by (simpl; by intros [? _]).
  rewrite (rule3_test _ _ (instance depBean)), (rule4_test _ _ (instance depBean)),
    (rule5_test _ _ (instance depBean)).
  destruct (decide (applies env (ftype sf) (beanType depBean) (instance depBean)
                      PointerFromValue)) as [H3|H3].
  { rewrite (bool_decide_eq_true_2 _ H3). destruct H3 as [Hk Hft]. rewrite Hft.
    unfold assigned, bind, alloc, setCell.
    rewrite (assignable_same _ _ Hty). rewrite insert_last_cell.
    apply (setField_store _ _ _ _ _ n fs); [by apply assignable_same|].
    by apply lookup_app_l_Some. }
  rewrite (bool_decide_eq_false_2 _ H3).
  destruct (decide (applies env (ftype sf) (beanType depBean) (instance depBean)
                      ValueFromPointer)) as [H4|H4].
  { rewrite (bool_decide_eq_true_2 _ H4). destruct H4 as [Hk Hdt].
    rewrite Hdt in Hty. unfold assigned, bind, derefValue, pointee.
    destruct (instance depBean) as [| | |e [c|]|]; simpl in Hty, Hp; try done.
    destruct Hp as (x & Hc & Hx). rewrite Hc. simpl. injection Hty as ->.
    by apply (setField_store _ _ _ _ _ n fs); [apply assignable_same|]. }
  rewrite (bool_decide_eq_false_2 _ H4).
  destruct (decide (applies env (ftype sf) (beanType depBean) (instance depBean)
                      PointerToPointer)) as [H5|H5].
  { by apply rule5_exact in H5. }
  by rewrite (bool_decide_eq_false_2 _ H5).
Qed.

Lemma assigned_heap r dt dv h :
  (assigned env r dt dv h).2 = h ∨ ∃ v, (assigned env r dt dv h).2 = h ++ [v].
Proof. destruct r; simpl; eauto. case_decide; destruct dt; simpl; eauto. Qed.

Lemma specInjectField_frame l n fs depBean i sf h :
  h !! l = Some (VStruct n fs) →
  sameTypes h (specInjectField env l depBean i sf h)
  ∧ ∃ fs', specInjectField env l depBean i sf h !! l = Some (VStruct n fs')
      ∧ length fs' = length fs
      ∧ (∀ j, j ≠ i → fs' !! j = fs !! j)
      ∧ (¬ selects (beanID depBean) sf
         ∨ firstRule env (ftype sf) (beanType depBean) (instance depBean) = None → fs' = fs)
      ∧ (∀ r, selects (beanID depBean) sf →
           firstRule env (ftype sf) (beanType depBean) (instance depBean) = Some r →
           i < length fs →
           fs' !! i = Some (assigned env r (beanType depBean) (instance depBean) h).1).
Proof.
  intros Hl. unfold specInjectField.
  destruct (decide (selects (beanID depBean) sf)) as [Hs|Hs];
    [|split; [apply sameTypes_refl|]; exists fs; split_and!; done].
  destruct (firstRule env (ftype sf) (beanType depBean) (instance depBean)) as [r|] eqn:Hr;
    [|split; [apply sameTypes_refl|]; exists fs; split_and!; done].
  pose proof (assigned_heap r (beanType depBean) (instance depBean) h) as Hh.
  destruct (assigned env r (beanType depBean) (instance depBean) h) as [x h1] eqn:Ha.
  simpl in Hh.
  assert (h1 !! l = Some (VStruct n fs) ∧ sameTypes h h1) as [Hl1 Hs1].
  { destruct Hh as [->|[v ->]]; [split; [done|apply sameTypes_refl]|].
    split; [by apply lookup_app_l_Some|apply sameTypes_alloc]. }
  split; [eapply sameTypes_trans; [done|apply sameTypes_store]|].
  unfold store. rewrite Hl1. exists (<[i:=x]> fs). split_and!.
  - apply list_lookup_insert_eq. by eapply lookup_lt_Some.
  - by rewrite length_insert.
  - intros j Hj. by apply list_lookup_insert_ne.
  - intros [?|?]; done.
  - intros r' _ [= <-] Hi. rewrite Ha. simpl. by apply list_lookup_insert_eq.
Qed.

Lemma specInject_frame l n depBean li :
  ∀ h fs, h !! l = Some (VStruct n fs) →
  sameTypes h (specInject env l depBean li h)
  ∧ ∃ fs', specInject env l depBean li h !! l = Some (VStruct n fs')
      ∧ length fs' = length fs
      ∧ ∀ j, (∀ sf, (j, sf) ∈ li →
                ¬ selects (beanID depBean) sf
                ∨ firstRule env (ftype sf) (beanType depBean) (instance depBean) = None) →
             fs' !! j = fs !! j.
Proof.
  induction li as [|[i sf] li IH]; intros h fs Hl; simpl.
  { split; [apply sameTypes_refl|]. exists fs. done. }
  destruct (specInjectField_frame l n fs depBean i sf h Hl)
    as (Hs1 & fs1 & Hl1 & Hlen1 & Hne1 & Hun1 & _).
  destruct (IH _ _ Hl1) as (Hs2 & fs2 & Hl2 & Hlen2 & Hun2).
  split; [by eapply sameTypes_trans|]. exists fs2. split_and!; [done|congruence|].
  intros j Hj. rewrite Hun2 by (intros sf' Hin; apply Hj; by right).
  destruct (decide (j = i)) as [->|Hji]; [|by apply Hne1].
  rewrite Hun1; [done|]. apply Hj. by left.
Qed.

Lemma injectFields_refine l n depBean li :
  typeOf (instance depBean) = Some (beanType depBean) →
  ∀ h fs, h !! l = Some (VStruct n fs) → pointeeOk h (instance depBean) →
  forM li (λ '(i, sf), injectField env (Some l) depBean i sf) h
  = (Ok tt, specInject env l depBean li h).
Proof.
  intros Hty. induction li as [|[i sf] li IH]; intros h fs Hl Hp; [done|].
  rewrite forM_cons. unfold bind. rewrite (injectField_refines l n fs) by done.
  destruct (specInjectField_frame l n fs depBean i sf h Hl) as (Hs1 & fs1 & Hl1 & _).
  simpl. apply (IH _ fs1); [done|]. by eapply sameTypes_pointeeOk.
Qed.

Lemma elem_of_zip_seq {A} (l : list A) k i x :
  (i, x) ∈ zip (seq k (length l)) l ↔ (k <= i)%nat ∧ l !! (i - k)%nat = Some x.
Proof.
  revert k. induction l as [|y l IH]; intros k; simpl.
  { split; [by intros ?%elem_of_nil|by intros [_ ?]]. }
  rewrite elem_of_cons, IH. split.
  - intros [[= -> ->]|[Hk Hl]].
    + split; [lia|]. by rewrite Nat.sub_diag.
    + split; [lia|]. replace (i - k) with (S (i - S k)) by lia. done.
  - intros [Hk Hl]. destruct (decide (i = k)) as [->|Hne].
    + left. rewrite Nat.sub_diag in Hl. simpl in Hl. congruence.
    + right. split; [lia|]. replace (i - k) with (S (i - S k)) in Hl by lia. done.
Qed.

Lemma elem_of_indexed {A} (l : list A) i x : (i, x) ∈ indexed l ↔ l !! i = Some x.
Proof.
  unfold indexed. rewrite elem_of_zip_seq, Nat.sub_0_r. split; [by intros [_ ?]|].
  intros ?. split; [lia|done].
Qed.

Lemma NoDup_indexed {A} (l : list A) : NoDup (indexed l).*1.
Proof. unfold indexed. rewrite fst_zip by (by rewrite length_seq). apply NoDup_seq. Qed.

(** C6. Injecting a dependency into a receiver that is a pointer to a struct
    raises no error and does to each field what the rules say: a field is
    selected when it is exported and its lowercased annotation is the
    identifier of the dependency; a selected field is assigned by the first
    rule that applies, in the order exact type (a fresh instance for a pointer
    to a struct without fields), interface field, pointer from value, value
    from pointer, pointer to pointer; a field that is not selected, or that no
    rule fits, keeps its value. *)
Theorem field_injection_rules receiverBean depBean chain h e l n fs :
  instance receiverBean = VPtr e (Some l) → kind e = KStruct →
  h !! l = Some (VStruct n fs) →
  typeOf (instance depBean) = Some (beanType depBean) →
  pointeeOk h (instance depBean) →
  beanID depBean ∉ chain →
  let fits sf := firstRule env (ftype sf) (beanType depBean) (instance depBean) in
  let h' := specInject env l depBean (indexed (fieldsOf env e)) h in
  injectIntoStruct env receiverBean depBean chain h = (Ok tt, h')
  ∧ ∃ fs', h' !! l = Some (VStruct n fs') ∧ length fs' = length fs
      ∧ (∀ i, (∀ sf, fieldsOf env e !! i = Some sf →
                 ¬ selects (beanID depBean) sf ∨ fits sf = None) →
              fs' !! i = fs !! i)
      ∧ (∀ i sf r, fieldsOf env e !! i = Some sf → i < length fs →
           selects (beanID depBean) sf → fits sf = Some r →
           ∃ hi, sameTypes h hi
                 ∧ fs' !! i
                   = Some (assigned env r (beanType depBean) (instance depBean) hi).1).
Proof.
  intros Hrecv Hk Hl Hty Hp Hch fits h'. split.
  { unfold injectIntoStruct. rewrite bool_decide_eq_false_2 by done.
    rewrite Hrecv. simpl. destruct (decide (kind e = KStruct)) as [_|?]; [|done].
    by apply (injectFields_refine l n depBean _ Hty h fs). }
  destruct (specInject_frame l n depBean (indexed (fieldsOf env e)) h fs Hl)
    as (_ & fs' & Hl' & Hlen & Hun).
  exists fs'. split_and!; [done|done| |].
  - intros i Hi. apply Hun. intros sf Hin%elem_of_indexed. by apply Hi.
  - intros i sf r Hin%elem_of_indexed Hi Hsel Hr.
    apply list_elem_of_split in Hin as (l1 & l2 & Hsplit).
    pose proof (NoDup_indexed (fieldsOf env e)) as Hnd.
    rewrite Hsplit, fmap_app, fmap_cons in Hnd. simpl in Hnd.
    apply NoDup_app in Hnd as (_ & _ & Hnd). apply NoDup_cons in Hnd as [Hnot _].
    subst h'. rewrite Hsplit in Hl'. unfold specInject in Hl'.
    rewrite foldl_app in Hl'. simpl in Hl'. fold (specInject env l depBean l1 h) in Hl'.
    destruct (specInject_frame l n depBean l1 h fs Hl) as (Hs1 & fs1 & Hl1 & Hlen1 & _).
    exists (specInject env l depBean l1 h). split; [done|].
    destruct (specInjectField_frame l n fs1 depBean i sf _ Hl1)
      as (_ & fs2 & Hl2 & Hlen2 & _ & _ & Has).
    fold (specInject env l depBean l2 (specInjectField env l depBean i sf
                                         (specInject env l depBean l1 h))) in Hl'.
    destruct (specInject_frame l n depBean l2 _ fs2 Hl2) as (_ & fs3 & Hl3 & _ & Hun3).
    assert (fs3 = fs') as -> by congruence.
    rewrite Hun3; [apply Has; [done|done|lia]|].
    intros sf' Hin. exfalso. apply Hnot. apply list_elem_of_fmap. by exists (i, sf').
Qed.

(** ** Identifiers and letter case *)

Lemma ToLower_empty a : ToLower a = emptyString ↔ a = emptyString.
Proof. destruct a; simpl; split; intros H; by try discriminate. Qed.

(** C3. Identifiers are stored and looked up in lowercase, and
    the identifier given at registration and the annotation of a field are
    compared after lowercasing only: with an annotation [tag] and an
    identifier [id] that have the same lowercase form, registering and
    resolving under either gives the same result, a field annotated with
    either is scanned and injected in the same way, and a field annotated
    [tag] is selected by the dependency registered as [id]. *)
Theorem identifiers_compared_in_lowercase id tag :
  id ≠ emptyString → ToLower tag = ToLower id →
  (∀ t s, Register env tag t s = Register env id t s)
  ∧ (∀ inst s, RegisterInstance env tag inst s = RegisterInstance env id inst s)
  ∧ (∀ sch s, ResolveSafe env sch tag s = ResolveSafe env sch id s)
  ∧ (∀ t s, built (cont s) = false → kind t = KPtr ∨ kind t = KStruct →
       ∃ s' b, Register env id (Some t) s = (Ok tt, s')
               ∧ beans s' !! ToLower id = Some b ∧ beanID b = ToLower id)
  ∧ (∀ sch s b, built (cont s) = true → beans s !! ToLower id = Some b →
       isNil (instance b) = false → ResolveSafe env sch id s = (Ok (instance b), s))
  ∧ (∀ sf, (∀ acc, scanField acc (withTag tag sf) = scanField acc (withTag id sf))
           ∧ ∀ cell depBean i,
               injectField env cell depBean i (withTag tag sf)
               = injectField env cell depBean i (withTag id sf))
  ∧ (∀ sf depBean, ftag sf = Some tag → fexported sf = true →
       beanID depBean = ToLower id → selects (beanID depBean) sf).
Proof.
  intros Hid Hlow.
  assert (tag ≠ emptyString) as Htag.
  { intros ->. symmetry in Hlow. change (ToLower emptyString) with emptyString in Hlow.
    by apply Hid, ToLower_empty. }
  split_and!.
  - intros t s. unfold Register. rewrite Hlow.
    by destruct (decide (tag = emptyString)), (decide (id = emptyString)).
  - intros inst s. unfold RegisterInstance. rewrite Hlow.
    by destruct (decide (tag = emptyString)), (decide (id = emptyString)).
  - intros sch s. unfold ResolveSafe. rewrite Hlow.
    by destruct (decide (tag = emptyString)), (decide (id = emptyString)).
  - intros t s Hb Hk. destruct (Register_open s id t Hb Hid Hk) as (req' & HR).
    eexists _, (typeDescriptor env (ToLower id) t). split_and!; [exact HR| |done].
    autorewrite with state. apply lookup_insert_eq.
  - intros sch s b Hb Hl Hn. unfold ResolveSafe.
    destruct (decide (id = emptyString)); [done|].
    unfold bind, get, ret. rewrite Hb, Hl, Hn. done.
  - intros sf. split.
    + intros acc. unfold scanField, withTag. simpl. by rewrite Hlow.
    + intros cell depBean i. unfold injectField, withTag. simpl. rewrite Hlow.
      by destruct (decide (tag = emptyString)), (decide (id = emptyString)).
  - intros sf depBean Hsf Hex Hdep. apply selects_iff. rewrite Hsf. simpl.
    split_and!; [done|congruence|done].
Qed.

(** C1. A container whose registry has a dependency cycle is
    never built successfully. When [Build] returns the error of the cycle
    check, its text is the prefix followed by the traversal path joined with
    [pathSep], and the path ends with a cycle of the registry, from the node
    entered twice back to itself: the cycle, joined with [pathSep], occurs in
    the text. A registry that passes validation and holds a single component
    created by the container and depending on its own identifier [x] fails
    with the path [x -> x]; one that holds two such components [a] and [b]
    depending on each other fails with [a -> b -> a] or with [b -> a -> b]. *)
Theorem cycle_detection sch s o s' :
  wf s → built (cont s) = false → beans s !! emptyString = None →
  Build env sch s = (o, s') →
  (∀ x l, cycle (beans s) x l → isOk o = false)
  ∧ (∀ y, o = Err (cyclePrefix +:+ y) →
       ∃ p1 z p2,
         cycle (beans s) z p2
         ∧ y = Join (p1 ++ z :: p2 ++ [z]) pathSep
         ∧ occursIn (Join (z :: p2 ++ [z]) pathSep) y)
  ∧ (validate env (prioRequired sch) s = (Ok tt, s) →
     (∀ x b, beans s = {[x := b]} → hasDependencies b = true → dependencies b = [x] →
        isPtrToStruct (beanType b) = true →
        o = Err (cyclePrefix +:+ x +:+ pathSep +:+ x))
     ∧ (∀ a b ba bb, a ≠ b → beans s = {[a := ba; b := bb]} →
          hasDependencies ba = true → hasDependencies bb = true →
          dependencies ba = [b] → dependencies bb = [a] →
          isPtrToStruct (beanType ba) = true → isPtrToStruct (beanType bb) = true →
          o = Err (cyclePrefix +:+ a +:+ pathSep +:+ b +:+ pathSep +:+ a)
          ∨ o = Err (cyclePrefix +:+ b +:+ pathSep +:+ a +:+ pathSep +:+ b))).
Proof.
  intros Hwf Hb Hempty HB.
  destruct (cycle_error_path sch s o s' Hwf Hb Hempty HB) as [H1 H2].
  split_and!; [exact H1|exact H2|]. intros Hv. split.
  - intros x b Hreg Hhas Hdeps Hp.
    assert (beans s !! x = Some b) as Hx by (rewrite Hreg; apply lookup_singleton_eq).
    destruct (self_cycle sch s x b) as [s2 HB2]; try done.
    + intros ->. congruence.
    + by apply Hwf.
    + congruence.
  - intros a b ba bb Hab Hreg Hha Hhb Hda Hdb Hpa Hpb.
    assert (beans s !! a = Some ba) as Ha by (rewrite Hreg; apply lookup_insert_eq).
    assert (beans s !! b = Some bb) as Hbb.
    { rewrite Hreg, lookup_insert_ne by done. apply lookup_singleton_eq. }
    destruct (two_node_cycle sch s a b ba bb) as [s2 [HB2|HB2]]; try done.
    + intros ->. congruence.
    + intros ->. congruence.
    + by apply Hwf.
    + by apply Hwf.
    + left. congruence.
    + right. congruence.
Qed.

End Properties.

(** * The properties on the scenarios *)

Lemma run_result {A S} (r : outcome A * S) (o : outcome A) : r.1 = o → r = (o, r.2).
Proof. destruct r as [o' s]. simpl. by intros ->. Qed.

Lemma wf_decide (s : State) :
  bool_decide (map_Forall (λ k b, beanID b = k) (beans s)) = true → wf s.
Proof. intros H. apply bool_decide_eq_true_1 in H. exact H. Qed.

(** ** Registration after a build *)

Lemma registration_after_build_witness :
  (Build plainEnv sch0 serviceState).1 = Ok tt
  ∧ Register plainEnv "Late" (Some (TPtr (TStruct "Logger")))
      (Build plainEnv sch0 serviceState).2
    = (Err ErrRegistrationClosed, (Build plainEnv sch0 serviceState).2).
Proof.
  assert ((Build plainEnv sch0 serviceState).1 = Ok tt) as Hok by (vm_compute; reflexivity).
  split; [exact Hok|].
  pose proof (registration_after_build plainEnv sch0 serviceState (Ok tt) _
                (run_result _ _ Hok)) as [H _].
  exact (H "Late" (Some (TPtr (TStruct "Logger")))).
Defined.

(** After a successful build, a registration with an empty identifier is
    refused for its argument, not because the registration is closed. *)
Lemma registration_after_build_counterexample :
  (Build plainEnv sch0 serviceState).1 = Ok tt
  ∧ (Register plainEnv emptyString (Some (TPtr (TStruct "Logger")))
       (Build plainEnv sch0 serviceState).2).1
    = Err ErrBeanIdParamIsEmpty
  ∧ ErrBeanIdParamIsEmpty ≠ ErrRegistrationClosed.
Proof. split_and!; [vm_compute; reflexivity|reflexivity|discriminate]. Qed.

(** ** Registering twice *)

Lemma duplicate_registration_replaces_witness :
  built (cont cycleState) = false
  ∧ beans cycleState !! "a"
    = Some (mkBean "a" (TPtr (TStruct "cycleA")) VNil false true ["b"])
  ∧ ∃ s', Register plainEnv "A" (Some (TPtr (TStruct "cycleB"))) cycleState = (Ok tt, s')
          ∧ beans s'
            = <[ToLower "A" := typeDescriptor plainEnv (ToLower "A") (TPtr (TStruct "cycleB"))]>
                (beans cycleState).
Proof.
  assert (built (cont cycleState) = false) as Hb by reflexivity.
  assert (beans cycleState !! ToLower "A"
          = Some (mkBean "a" (TPtr (TStruct "cycleA")) VNil false true ["b"])) as Hl
    by (vm_compute; reflexivity).
  split_and!; [exact Hb|exact Hl|].
  assert ("A" ≠ emptyString) as Hid by discriminate.
  destruct (duplicate_registration_replaces plainEnv cycleState "A" _ Hb Hid Hl) as [H _].
  apply H. by left.
Defined.

(** ** Validation *)

Lemma validation_verdicts_witness :
  built (cont cycleMissingState) = false
  ∧ verdictOf plainEnv cycleMissingState "servicebeanconfig"
    = Some (notRegistered "servicebeanconfig")
  ∧ checkRequired plainEnv "servicebeanconfig" cycleMissingState
    = (Err (notRegistered "servicebeanconfig"), cycleMissingState).
Proof.
  assert (built (cont cycleMissingState) = false) as Hb by reflexivity.
  assert (verdictOf plainEnv cycleMissingState "servicebeanconfig"
          = Some (notRegistered "servicebeanconfig")) as Hv by (vm_compute; reflexivity).
  split_and!; [exact Hb|exact Hv|].
  destruct (validation_verdicts plainEnv sch0 cycleMissingState Hb) as [H _].
  specialize (H "servicebeanconfig"). rewrite Hv in H. exact H.
Defined.

(** ** Letter case *)

Lemma identifiers_compared_in_lowercase_witness :
  ToLower "ServiceBeanConfig" = ToLower "servicebeanconfig"
  ∧ ∀ t s, Register plainEnv "ServiceBeanConfig" t s
           = Register plainEnv "servicebeanconfig" t s.
Proof.
  assert ("servicebeanconfig" ≠ emptyString) as Hid by discriminate.
  assert (ToLower "ServiceBeanConfig" = ToLower "servicebeanconfig") as Hlow
    by (vm_compute; reflexivity).
  split; [exact Hlow|].
  apply (identifiers_compared_in_lowercase plainEnv _ _ Hid Hlow).
Defined.

(** The quick start of the README: the configuration is registered as
    [servicebeanconfig], the field of the service is annotated
    [ServiceBeanConfig], and the build stores the registered instance in the
    field. *)
Lemma identifiers_compared_in_lowercase_counterexample :
  "servicebeanconfig" ≠ "ServiceBeanConfig"
  ∧ ftag <$> fieldsOf plainEnv (TStruct "Service") !! 0 = Some (Some "ServiceBeanConfig")
  ∧ (Build plainEnv sch0 readmeState).1 = Ok tt
  ∧ instance <$> beans (Build plainEnv sch0 readmeState).2 !! "servicebeanconfig"
    = Some (VPtr (TStruct "Config") (Some 0))
  ∧ instance <$> beans (Build plainEnv sch0 readmeState).2 !! "servicebean"
    = Some (VPtr (TStruct "Service") (Some 2))
  ∧ heap (Build plainEnv sch0 readmeState).2 !! 2
    = Some (VStruct "Service" [VPtr (TStruct "Config") (Some 0);
                                VPtr (TStruct "Logger") (Some 1)]).
Proof. split_and!; [discriminate|vm_compute; reflexivity..]. Qed.

(** ** One injection step *)

Lemma field_injection_rules_witness :
  pointeeOk stepHeap (instance stepDependency)
  ∧ injectIntoStruct plainEnv stepReceiver stepDependency ["servicebean"] stepHeap
    = (Ok tt, [ VStruct "Config" [VStr "/etc"];
                VStruct "Service" [VPtr (TStruct "Config") (Some 0);
                                   VPtr (TStruct "Logger") None] ]).
Proof.
  assert (pointeeOk stepHeap (instance stepDependency)) as Hp.
  { simpl. eexists. split; reflexivity. }
  split; [exact Hp|].
  assert (beanID stepDependency ∉ ["servicebean"]) as Hch.
  { intros Hin. apply list_elem_of_singleton in Hin. discriminate. }
  destruct (field_injection_rules plainEnv stepReceiver stepDependency ["servicebean"]
              stepHeap (TStruct "Service") 1 "Service"
              [VPtr (TStruct "Config") None; VPtr (TStruct "Logger") None]
              eq_refl eq_refl eq_refl eq_refl Hp Hch) as [H _].
  rewrite H. vm_compute. reflexivity.
Defined.

(** ** Initializers *)

Lemma initializers_run_in_dependency_order_witness :
  built (cont orderState) = false
  ∧ (newInits orderState (Build (orderEnv []) sch0 orderState).2).*1
    = ["orderb"; "ordera"; "orderc"]
  ∧ NoDup (newInits orderState (Build (orderEnv []) sch0 orderState).2).*1.
Proof.
  assert (built (cont orderState) = false) as Hb by reflexivity.
  split_and!; [exact Hb|vm_compute; reflexivity|].
  destruct (initializers_run_in_dependency_order (orderEnv []) sch0 orderState _ _ Hb
              (surjective_pairing _)) as [H _].
  exact H.
Defined.

(** ** Cycles *)

Lemma cycleState_cycle : cycle (beans cycleState) "a" ["b"].
Proof.
  unfold cycle. simpl. split_and!; [| |done].
  - eexists. split; [vm_compute; reflexivity|]. simpl. by left.
  - eexists. split; [vm_compute; reflexivity|]. simpl. by left.
Qed.

Lemma cycle_detection_witness :
  wf cycleState ∧ built (cont cycleState) = false
  ∧ beans cycleState !! emptyString = None
  ∧ validate plainEnv (prioRequired sch0) cycleState = (Ok tt, cycleState)
  ∧ isOk (Build plainEnv sch0 cycleState).1 = false
  ∧ ((Build plainEnv sch0 cycleState).1
     = Err (cyclePrefix +:+ "a" +:+ pathSep +:+ "b" +:+ pathSep +:+ "a")
     ∨ (Build plainEnv sch0 cycleState).1
       = Err (cyclePrefix +:+ "b" +:+ pathSep +:+ "a" +:+ pathSep +:+ "b")).
Proof.
  assert (wf cycleState) as Hwf by (apply wf_decide; vm_compute; reflexivity).
  assert (built (cont cycleState) = false) as Hb by reflexivity.
  assert (beans cycleState !! emptyString = None) as He by (vm_compute; reflexivity).
  assert (validate plainEnv (prioRequired sch0) cycleState = (Ok tt, cycleState)) as Hv
    by (vm_compute; reflexivity).
  destruct (cycle_detection plainEnv sch0 cycleState _ _ Hwf Hb He (surjective_pairing _))
    as (H1 & _ & H3).
  split_and!; [exact Hwf|exact Hb|exact He|exact Hv| |].
  - apply (H1 "a" ["b"]). exact cycleState_cycle.
  - destruct (H3 Hv) as [_ H2].
    apply (H2 "a" "b" (mkBean "a" (TPtr (TStruct "cycleA")) VNil false true ["b"])
              (mkBean "b" (TPtr (TStruct "cycleB")) VNil false true ["a"]));
      [discriminate|vm_compute; reflexivity|reflexivity..].
Defined.

(** Two beans that depend on each other, next to a service whose
    configuration is not registered: the build fails in the validation step,
    and its error shows no path. *)
Lemma cycle_detection_counterexample :
  cycle (beans cycleMissingState) "a" ["b"]
  ∧ (Build plainEnv sch0 cycleMissingState).1
    = Err "bean `servicebeanconfig` is required but not registered"
  ∧ Contains "bean `servicebeanconfig` is required but not registered" pathSep = false.
Proof.
  split_and!; [|vm_compute; reflexivity..].
  unfold cycle. simpl. split_and!; [| |done].
  - eexists. split; [vm_compute; reflexivity|]. simpl. by left.
  - eexists. split; [vm_compute; reflexivity|]. simpl. by left.
Qed.

(** ** Instances *)



(** ** A failed build *)

Lemma failed_build_is_not_rolled_back_witness :
  wf cycleState
  ∧ (Build plainEnv sch0 cycleState).1 = Err "dependency cycle detected: a -> b -> a"
  ∧ built (cont (Build plainEnv sch0 cycleState).2) = false
  ∧ isNil <$> (instance <$> beans cycleState !! "a") = Some true
  ∧ isNil <$> (instance <$> beans (Build plainEnv sch0 cycleState).2 !! "a") = Some false.
Proof.
  assert (wf cycleState) as Hwf by (apply wf_decide; vm_compute; reflexivity).
  assert ((Build plainEnv sch0 cycleState).1 = Err "dependency cycle detected: a -> b -> a")
    as Herr by (vm_compute; reflexivity).
  split_and!; [exact Hwf|exact Herr| |vm_compute; reflexivity..].
  destruct (failed_build_is_not_rolled_back plainEnv sch0 cycleState _ _ Hwf
              (run_result _ _ Herr)) as [H _].
  exact H.
Defined.

(** * Further properties of the container *)

Section Further.

Variable env : Env.

(** ** Registration *)

(** A registration succeeds exactly when the identifier is not empty, the
    argument is usable and the container is open; otherwise it returns one of
    the errors of the package and leaves the container as it was. *)
Theorem registration_outcomes id s :
  (∀ t,
     ((Register env id t s).1 = Ok tt
      ↔ id ≠ emptyString ∧ built (cont s) = false
        ∧ ∃ t', t = Some t' ∧ (kind t' = KPtr ∨ kind t' = KStruct))
     ∧ ((Register env id t s).1 ≠ Ok tt →
        ∃ e, Register env id t s = (Err e, s)
             ∧ e ∈ [ErrBeanIdParamIsEmpty; ErrBeanTypeParamIsNil; ErrRegistrationClosed;
                    ErrBeanTypeNotSupported]))
  ∧ (∀ inst,
       ((RegisterInstance env id inst s).1 = Ok tt
        ↔ id ≠ emptyString ∧ built (cont s) = false ∧ isNil inst = false)
       ∧ ((RegisterInstance env id inst s).1 ≠ Ok tt →
          ∃ e, RegisterInstance env id inst s = (Err e, s)
               ∧ e ∈ [ErrBeanIdParamIsEmpty; ErrBeanParamIsNil; ErrRegistrationClosed])).
Proof.
  split.
  - intros t. destruct (decide (id = emptyString)) as [Hid|Hid].
    { assert (Register env id t s = (Err ErrBeanIdParamIsEmpty, s)) as ->.
      { unfold Register. by rewrite decide_True. }
      split; [split; [done|by intros [? _]]|]. intros _. eexists. split; [done|]. by left. }
    destruct t as [t|].
    2:{ assert (Register env id None s = (Err ErrBeanTypeParamIsNil, s)) as ->.
        { unfold Register. by rewrite decide_False. }
        split; [split; [done|by intros (_ & _ & ? & ? & _)]|].
        intros _. eexists. split; [done|]. right. by left. }
    destruct (built (cont s)) eqn:Hb.
    { assert (Register env id (Some t) s = (Err ErrRegistrationClosed, s)) as ->.
      { unfold Register. rewrite decide_False by done. unfold bind, get. by rewrite Hb. }
      split; [split; [done|by intros (_ & ? & _)]|].
      intros _. eexists. split; [done|]. right. right. by left. }
    destruct (decide (kind t = KPtr ∨ kind t = KStruct)) as [Hk|Hk].
    { destruct (Register_open env s id t Hb Hid Hk) as [req' ->]. simpl.
      split; [split; [eauto 6|done]|done]. }
    assert (Register env id (Some t) s = (Err ErrBeanTypeNotSupported, s)) as ->.
    { unfold Register. rewrite decide_False by done. unfold bind at 1, get. rewrite Hb.
      unfold bind. destruct (kind t); try done; exfalso; apply Hk; auto. }
    split; [split; [done|]|].
    + intros (_ & _ & t' & [= <-] & Hk'). done.
    + intros _. eexists. split; [done|]. do 3 right. by left.
  - intros inst. destruct (decide (id = emptyString)) as [Hid|Hid].
    { assert (RegisterInstance env id inst s = (Err ErrBeanIdParamIsEmpty, s)) as ->.
      { unfold RegisterInstance. by rewrite decide_True. }
      split; [split; [done|by intros [? _]]|]. intros _. eexists. split; [done|]. by left. }
    destruct (isNil inst) eqn:Hn.
    { assert (RegisterInstance env id inst s = (Err ErrBeanParamIsNil, s)) as ->.
      { unfold RegisterInstance. rewrite decide_False by done. by destruct inst. }
      split; [split; [done|by intros (_ & _ & ?)]|].
      intros _. eexists. split; [done|]. right. by left. }
    destruct (built (cont s)) eqn:Hb.
    { assert (RegisterInstance env id inst s = (Err ErrRegistrationClosed, s)) as ->.
      { unfold RegisterInstance. rewrite decide_False by done.
        destruct inst; try done; unfold bind, get; simpl; by rewrite Hb. }
      split; [split; [done|by intros (_ & ? & _)]|].
      intros _. eexists. split; [done|]. right. right. by left. }
    destruct (RegisterInstance_open env s id inst Hb Hid Hn) as (req' & h' & ->). simpl.
    split; [split; done|done].
Qed.

(** ** The scan *)

Lemma scanField_wanted req has ids sf :
  scanField (req, has, ids) sf
  = match wanted sf with
    | Some d => (<[d.1 := d.2]> req, true, ids ++ [d.1])
    | None => (req, has, ids)
    end.
Proof.
  unfold scanField, wanted. destruct (ftag sf) as [tag|]; [|done].
  destruct (fexported sf); [|done].
  destruct (ftype sf) as [| |n|n|e]; simpl; try done.
  destruct (decide (kind e = KStruct)); done.
Qed.

Lemma scanFields_wanted_acc fields : ∀ req has ids,
  fold_left scanField fields (req, has, ids)
  = (recordAll req (omap wanted fields),
     has || bool_decide (omap wanted fields ≠ []),
     ids ++ (omap wanted fields).*1).
Proof.
  induction fields as [|sf fields IH]; intros req has ids; simpl.
  { by rewrite orb_false_r, app_nil_r. }
  rewrite scanField_wanted. destruct (wanted sf) as [d|]; [|apply IH].
  rewrite IH. simpl. rewrite <- app_assoc, orb_true_r. done.
Qed.

Lemma scanFields_wanted fields req :
  scanFields fields req
  = (recordAll req (omap wanted fields), bool_decide (omap wanted fields ≠ []),
     (omap wanted fields).*1).
Proof. unfold scanFields. by rewrite scanFields_wanted_acc. Qed.

(** [checkForDependency] records the exported fields that have an annotation
    and whose type is a pointer to a struct, a string or an interface, in the
    order of the fields, under the lowercased annotation; for a type that is
    not a pointer to a struct it records nothing. *)
Theorem checkForDependency_records t req :
  match t with
  | TPtr (TStruct n) =>
      checkForDependency env t req
      = (Ok (bool_decide (omap wanted (fieldsOf env (TStruct n)) ≠ []),
             (omap wanted (fieldsOf env (TStruct n))).*1),
         recordAll req (omap wanted (fieldsOf env (TStruct n))))
  | TStruct _ => ∃ e, checkForDependency env t req = (Panic e, req)
  | _ => checkForDependency env t req = (Ok (false, []), req)
  end.
Proof.
  destruct t as [| |n|n|e]; try done; [by eexists|].
  destruct e as [| |n|n|e]; try done.
  unfold checkForDependency. simpl. by rewrite scanFields_wanted.
Qed.

Lemma scanResult_wanted t :
  scanResult env t = (bool_decide (wantedOf env t ≠ []), (wantedOf env t).*1).
Proof.
  unfold scanResult, wantedOf. destruct t as [| | | |e]; try done.
  destruct (decide (kind e = KStruct)); [|done]. by rewrite scanFields_wanted.
Qed.

Lemma checkForDependency_run t req :
  kind t = KPtr →
  checkForDependency env t req = (Ok (scanResult env t), recordAll req (wantedOf env t)).
Proof.
  destruct t as [| | | |e]; try discriminate. intros _.
  rewrite scanResult_wanted. unfold checkForDependency, wantedOf.
  destruct (decide (kind e = KStruct)); [|done]. by rewrite scanFields_wanted.
Qed.

Lemma Register_run s id t :
  built (cont s) = false → id ≠ emptyString → kind t = KPtr ∨ kind t = KStruct →
  Register env id (Some t) s
  = (Ok tt, setBeans (<[ToLower id := typeDescriptor env (ToLower id) t]> (beans s))
              (setRequired (recordAll (required s) (wantedOf env (normalizeType t))) s)).
Proof.
  intros Hb Hid Hk. unfold Register. rewrite decide_False by done.
  unfold bind at 1, get. rewrite Hb.
  assert (kind (normalizeType t) = KPtr) as Hn.
  { unfold normalizeType. destruct Hk as [Hk|Hk]; rewrite Hk; [done|]. done. }
  unfold typeDescriptor.
  assert ((match kind t with
           | KPtr => ret t
           | KStruct => ret (TPtr t)
           | _ => throw ErrBeanTypeNotSupported
           end : M State gotype) = ret (normalizeType t)) as ->.
  { unfold normalizeType. destruct Hk as [Hk|Hk]; by rewrite Hk. }
  unfold bind, ret, zoom. rewrite (checkForDependency_run _ _ Hn). simpl.
  destruct (scanResult env (normalizeType t)) as [has ids]. reflexivity.
Qed.

(** The type under which an instance is registered, and the heap after the
    copy of an instance given as a struct value. *)
Lemma RegisterInstance_run s id inst :
  built (cont s) = false → id ≠ emptyString → isNil inst = false →
  RegisterInstance env id inst s
  = (Ok tt,
     setBeans (<[ToLower id := instanceDescriptor env (ToLower id) inst (length (heap s))]>
                 (beans s))
       (setRequired
          (recordAll (required s)
             (wantedOf env (beanType (instanceDescriptor env (ToLower id) inst
                                        (length (heap s))))))
          (setHeap (match inst with
                    | VStruct _ _ => heap s ++ [inst]
                    | _ => heap s
                    end) s))).
Proof.
  intros Hb Hid Hnil. unfold RegisterInstance. rewrite decide_False by done.
  destruct inst as [|str|n|e tgt|n fs]; try discriminate; cbn [typeOf].
  - unfold bind, get, ret, zoom. rewrite Hb. simpl. by destruct s as [[]].
  - unfold bind, get, ret, zoom. rewrite Hb. simpl. by destruct s as [[]].
  - unfold bind at 1, get. rewrite Hb.
    rewrite decide_False by done. unfold bind at 1, ret.
    unfold bind, zoom. rewrite (checkForDependency_run (TPtr e) _ eq_refl).
    unfold instanceDescriptor. cbn -[scanResult ToLower wantedOf].
    destruct (scanResult env (TPtr e)) as [has ids]. by destruct s as [[]].
  - unfold bind at 1, get. rewrite Hb.
    rewrite decide_True by done.
    unfold bind, zoom, alloc, ret. autorewrite with state.
    rewrite (checkForDependency_run (TPtr (TStruct n)) _ eq_refl).
    unfold instanceDescriptor. cbn -[scanResult ToLower wantedOf].
    destruct (scanResult env (TPtr (TStruct n))) as [has ids]. reflexivity.
Qed.

(** ** The invariants of the registry *)

Lemma recordAll_lookup ws : ∀ req k t,
  recordAll req ws !! k = Some t → req !! k = Some t ∨ (k, t) ∈ ws.
Proof.
  induction ws as [|[k' t'] ws IH]; intros req k t; simpl; [auto|].
  intros [H|H]%IH; [|right; by right]. simpl in H.
  apply lookup_insert_Some in H as [[<- <-]|[_ H]]; [right; by left|by left].
Qed.

Lemma recordAll_mono ws : ∀ req k, is_Some (req !! k) → is_Some (recordAll req ws !! k).
Proof.
  induction ws as [|[k' t'] ws IH]; intros req k Hk; simpl; [done|].
  apply IH. simpl. destruct (decide (k' = k)) as [->|Hne].
  - rewrite lookup_insert_eq. eauto.
  - by rewrite lookup_insert_ne.
Qed.

Lemma recordAll_recorded ws : ∀ req d, d ∈ ws.*1 → is_Some (recordAll req ws !! d).
Proof.
  induction ws as [|[k' t'] ws IH]; intros req d; simpl; [by intros ?%elem_of_nil|].
  intros [->|Hd]%elem_of_cons; [|by apply IH].
  apply recordAll_mono. simpl. rewrite lookup_insert_eq. eauto.
Qed.

Lemma wanted_kind sf k t :
  wanted sf = Some (k, t) → kind t = KStruct ∨ kind t = KString ∨ kind t = KInterface.
Proof.
  unfold wanted. destruct (ftag sf); [|done]. destruct (fexported sf); [|done].
  destruct (ftype sf) as [| |n|n|e]; try done.
  - intros [= _ <-]. auto.
  - intros [= _ <-]. auto.
  - destruct (decide (kind e = KStruct)); [|done]. intros [= _ <-]. auto.
Qed.

Lemma wantedOf_kind t0 k t :
  (k, t) ∈ wantedOf env t0 → kind t = KStruct ∨ kind t = KString ∨ kind t = KInterface.
Proof.
  unfold wantedOf. destruct t0 as [| | | |e]; try by intros ?%elem_of_nil.
  destruct (decide (kind e = KStruct)); [|by intros ?%elem_of_nil].
  intros (sf & _ & Hw)%list_elem_of_omap. by eapply wanted_kind.
Qed.

Lemma wantedOf_ptr t : wantedOf env t ≠ [] → isPtrToStruct t = true.
Proof.
  unfold wantedOf. destruct t as [| | | |e]; try done.
  destruct (decide (kind e = KStruct)) as [Hk|]; [|done]. intros _. simpl.
  by apply bool_decide_eq_true_2.
Qed.

Lemma fmap_nil_iff {A B} (f : A → B) (l : list A) : f <$> l ≠ [] ↔ l ≠ [].
Proof. by destruct l. Qed.

(** The invariant after a descriptor [b] with the scan of its type has been
    stored. *)
Lemma regInv_store s h k b :
  regInv s → beanID b = k →
  hasDependencies b = bool_decide (wantedOf env (beanType b) ≠ []) →
  dependencies b = (wantedOf env (beanType b)).*1 →
  (singleton b = true → typeOf (instance b) = Some (beanType b)) →
  regInv (setBeans (<[k := b]> (beans s))
            (setRequired (recordAll (required s) (wantedOf env (beanType b))) (setHeap h s))).
Proof.
  intros [Hwf Hdeps Hhas Hty Hreq] Hid Hh Hd Ht.
  set (s' := setBeans _ _).
  assert (beans s' = <[k := b]> (beans s)) as Hbe by reflexivity.
  assert (required s' = recordAll (required s) (wantedOf env (beanType b))) as Hre
    by reflexivity.
  clearbody s'. split; unfold wf; rewrite ?Hbe, ?Hre.
  - intros k' b' [[<- <-]|[_ Hl]]%lookup_insert_Some; [done|by apply Hwf].
  - intros k' b' d [[<- <-]|[_ Hl]]%lookup_insert_Some Hin.
    + rewrite Hd in Hin. by apply recordAll_recorded.
    + apply recordAll_mono. by eapply Hdeps.
  - intros k' b' [[<- <-]|[_ Hl]]%lookup_insert_Some; [|by eapply Hhas].
    split.
    + rewrite Hh, Hd. apply bool_decide_ext. by rewrite fmap_nil_iff.
    + rewrite Hh. intros Hne%bool_decide_eq_true_1. by apply wantedOf_ptr.
  - intros k' b' [[<- <-]|[_ Hl]]%lookup_insert_Some; [done|by eapply Hty].
  - intros k' t [H|H]%recordAll_lookup; [by eapply Hreq|by eapply wantedOf_kind].
Qed.

Lemma regInv_initState : regInv initState.
Proof. split; intros k b; by rewrite ?lookup_empty. Qed.

Lemma regInv_same s s' :
  beans s' = beans s → required s' = required s → regInv s → regInv s'.
Proof.
  intros Hb Hr [Hwf Hdeps Hhas Hty Hreq].
  split; unfold wf in *; rewrite ?Hb, ?Hr; done.
Qed.

Lemma regInv_cont s s' : cont s' = cont s → regInv s → regInv s'.
Proof. intros Hc. apply regInv_same; unfold beans, required; by rewrite Hc. Qed.

Lemma regInv_created s s1 : regInv s → created s s1 → regInv s1.
Proof.
  intros [Hwf Hdeps Hhas Hty Hreq] Hcr.
  assert (∀ k b', beans s1 !! k = Some b' →
                  ∃ b, beans s !! k = Some b ∧ instantiatedAs b b') as Horig.
  { intros k b' Hb'. destruct (beans s !! k) as [b|] eqn:Hb.
    - destruct (cr_kept _ _ Hcr Hwf k b Hb) as (b'' & Hb'' & Hi). exists b.
      split; [done|]. congruence.
    - rewrite (cr_dom _ _ Hcr Hwf k Hb) in Hb'. done. }
  split.
  - by apply (cr_wf _ _ Hcr).
  - intros k b' d Hb' Hd. destruct (Horig k b' Hb') as (b & Hb & Hi).
    rewrite (cr_required _ _ Hcr). apply (Hdeps k b d Hb).
    by destruct Hi as [->|(_ & _ & e & l & _ & ->)].
  - intros k b' Hb'. destruct (Horig k b' Hb') as (b & Hb & Hi).
    destruct (Hhas k b Hb) as [H1 H2].
    by destruct Hi as [->|(_ & _ & e & l & _ & ->)].
  - intros k b' Hb' Hs. destruct (Horig k b' Hb') as (b & Hb & Hi).
    destruct Hi as [->|(_ & _ & e & l & He & ->)]; [by eapply Hty|]. simpl. by rewrite He.
  - rewrite (cr_required _ _ Hcr). exact Hreq.
Qed.

Lemma regInv_extends s s' : regInv s → extends env s s' → regInv s'.
Proof.
  intros [Hwf Hdeps Hhas Hty Hreq] Hex.
  assert (∀ k b, beans s' !! k = Some b →
                 beans s !! k = Some b ∨ ephemeral env s k b) as Horig.
  { intros k b Hb. destruct (beans s !! k) as [b0|] eqn:Hb0.
    - left. pose proof (lookup_weaken _ _ _ _ Hb0 (ext_beans _ _ _ Hex)). congruence.
    - right. by apply (ext_new _ _ _ Hex). }
  split.
  - intros k b [Hb|(lp & t & v & _ & _ & _ & _ & ->)]%Horig; [by apply Hwf|done].
  - intros k b d [Hb|(lp & t & v & _ & _ & _ & _ & ->)]%Horig Hd.
    + rewrite (ext_required _ _ _ Hex). by eapply Hdeps.
    + by apply elem_of_nil in Hd.
  - intros k b [Hb|(lp & t & v & _ & _ & _ & _ & ->)]%Horig; [by eapply Hhas|done].
  - intros k b [Hb|(lp & t & v & _ & _ & _ & _ & ->)]%Horig; [by eapply Hty|done].
  - rewrite (ext_required _ _ _ Hex). exact Hreq.
Qed.

Lemma regInv_Build sch s : regInv s → regInv (Build env sch s).2.
Proof.
  intros Hinv. destruct (built (cont s)) eqn:Hb; [by rewrite Build_closed|].
  destruct (Build env sch s) as [o s'] eqn:HB.
  destruct (Build_open env sch s o s' Hb HB) as (s3 & Hrun & Hs'). simpl.
  assert (regInv s3) as H3.
  { apply BuildRun_phases in Hrun
      as [[-> _]|(s1 & oi & s2 & _ & Hi & Hj & _ & Hc & _)]; [done|].
    apply (regInv_cont s2); [done|].
    apply (regInv_extends s1); [|by eapply injectDependencies_extends].
    apply (regInv_created s); [done|].
    by destruct (created_instantiated env s s1 _ (inv_wf _ Hinv) Hi). }
  destruct o; subst s'; try done; by apply (regInv_same s3).
Qed.

Lemma registration_cases_Register id t s :
  (∃ e, Register env id t s = (Err e, s))
  ∨ (built (cont s) = false ∧ id ≠ emptyString
     ∧ ∃ t', t = Some t' ∧ (kind t' = KPtr ∨ kind t' = KStruct)).
Proof.
  destruct (decide (id = emptyString)) as [Hid|Hid].
  { left. eexists. unfold Register. by rewrite decide_True. }
  destruct t as [t|]; [|left; eexists; unfold Register; by rewrite decide_False].
  destruct (built (cont s)) eqn:Hb.
  { left. eexists. unfold Register. rewrite decide_False by done. unfold bind, get.
    by rewrite Hb. }
  destruct (decide (kind t = KPtr ∨ kind t = KStruct)) as [Hk|Hk]; [right; eauto 6|].
  left. exists ErrBeanTypeNotSupported.
  unfold Register. rewrite decide_False by done. unfold bind at 1, get. rewrite Hb.
  unfold bind. destruct (kind t); try done; exfalso; apply Hk; auto.
Qed.

Lemma registration_cases_RegisterInstance id inst s :
  (∃ e, RegisterInstance env id inst s = (Err e, s))
  ∨ (built (cont s) = false ∧ id ≠ emptyString ∧ isNil inst = false).
Proof.
  destruct (registerError id (isNil inst) (built (cont s)) ErrBeanParamIsNil) as [e|] eqn:He.
  { left. exists e. by apply RegisterInstance_error. }
  right. unfold registerError in He.
  destruct (decide (id = emptyString)); [done|]. destruct (isNil inst); [done|].
  by destruct (built (cont s)).
Qed.

Lemma instanceDescriptor_scan k inst l :
  isNil inst = false →
  let b := instanceDescriptor env k inst l in
  beanID b = k
  ∧ hasDependencies b = bool_decide (wantedOf env (beanType b) ≠ [])
  ∧ dependencies b = (wantedOf env (beanType b)).*1
  ∧ singleton b = true
  ∧ typeOf (instance b) = Some (beanType b).
Proof.
  intros Hn. destruct inst; try done; unfold instanceDescriptor;
    cbn [beanID hasDependencies dependencies beanType singleton instance typeOf default];
    rewrite scanResult_wanted; done.
Qed.

Lemma regInv_Register id t s : regInv s → regInv (Register env id t s).2.
Proof.
  intros Hinv.
  destruct (registration_cases_Register id t s) as [(e & ->)|(Hb & Hid & t' & -> & Hk)];
    [done|].
  rewrite (Register_run s id t' Hb Hid Hk). simpl.
  replace (setRequired (recordAll (required s) (wantedOf env (normalizeType t'))) s)
    with (setRequired (recordAll (required s) (wantedOf env (normalizeType t')))
            (setHeap (heap s) s)) by (by destruct s as [[]]).
  apply (regInv_store s (heap s) (ToLower id) (typeDescriptor env (ToLower id) t'));
    try done; unfold typeDescriptor; simpl; by rewrite scanResult_wanted.
Qed.

Lemma regInv_RegisterInstance id inst s :
  regInv s → regInv (RegisterInstance env id inst s).2.
Proof.
  intros Hinv.
  destruct (registration_cases_RegisterInstance id inst s)
    as [(e & ->)|(Hb & Hid & Hn)]; [done|].
  rewrite (RegisterInstance_run s id inst Hb Hid Hn). simpl.
  destruct (instanceDescriptor_scan (ToLower id) inst (length (heap s)) Hn)
    as (H1 & H2 & H3 & _ & H4).
  by apply regInv_store.
Qed.

(** The descriptors that [Register], [RegisterInstance] and [Build] leave in
    the registry are stored under their own identifier, have their
    dependencies in the required-dependency map, have dependencies only when
    their type is a pointer to a struct, and have an instance of their type
    when they are singletons; the required types are structs, strings and
    interfaces. *)
Theorem registry_invariant s :
  regInv s →
  (∀ id t, regInv (Register env id t s).2)
  ∧ (∀ id inst, regInv (RegisterInstance env id inst s).2)
  ∧ (∀ sch, regInv (Build env sch s).2).
Proof.
  intros Hinv. split_and!.
  - intros id t. by apply regInv_Register.
  - intros id inst. by apply regInv_RegisterInstance.
  - intros sch. by apply regInv_Build.
Qed.

(** ** What [Build] does to the registry *)

Lemma ephemeral_required s s' k b :
  required s' = required s → ephemeral env s' k b → ephemeral env s k b.
Proof. intros Hr (lp & t & v & H). rewrite Hr in H. by exists lp, t, v. Qed.

Lemma Build_kept sch s o s' :
  wf s → Build env sch s = (o, s') →
  required s' = required s
  ∧ (∀ k b, beans s !! k = Some b → ∃ b', beans s' !! k = Some b' ∧ instantiatedAs b b')
  ∧ (∀ k b, beans s' !! k = Some b → beans s !! k = None → ephemeral env s k b)
  ∧ providerCalls s `prefix_of` providerCalls s'.
Proof.
  intros Hwf HB. destruct (built (cont s)) eqn:Hb.
  { rewrite Build_closed in HB by done. injection HB as <- <-.
    split_and!; [done| |congruence|done]. intros k b Hk. exists b. split; [done|by left]. }
  destruct (Build_open env sch s o s' Hb HB) as (s3 & Hrun & Hs').
  assert (beans s' = beans s3 ∧ required s' = required s3
          ∧ providerCalls s' = providerCalls s3) as (-> & -> & ->).
  { destruct o; subst s'; done. }
  clear Hs' HB.
  apply BuildRun_phases in Hrun
    as [[-> _]|(s1 & oi & s2 & _ & Hi & Hj & _ & Hc & Hpc)].
  { split_and!; [done| |congruence|done]. intros k b Hk. exists b. split; [done|by left]. }
  destruct (created_instantiated env s s1 _ Hwf Hi) as [Hcr _].
  pose proof (injectDependencies_extends env _ _ _ _ Hj) as Hex.
  assert (beans s3 = beans s2 ∧ required s3 = required s2) as [-> ->].
  { unfold beans, required. by rewrite Hc. }
  rewrite Hpc. split_and!.
  - rewrite (ext_required _ _ _ Hex). apply (cr_required _ _ Hcr).
  - intros k b Hk. destruct (cr_kept _ _ Hcr Hwf k b Hk) as (b' & Hb' & Hi').
    exists b'. split; [|done]. by eapply lookup_weaken, (ext_beans _ _ _ Hex).
  - intros k b Hk Hn. apply (ephemeral_required s s1); [apply (cr_required _ _ Hcr)|].
    apply (ext_new _ _ _ Hex); [done|]. by apply (cr_dom _ _ Hcr).
  - destruct (ext_calls _ _ _ Hex) as (new & -> & _).
    rewrite (cr_calls _ _ Hcr). by exists new.
Qed.

(** Whatever its outcome, [Build] leaves the required-dependency map as it
    is, keeps every descriptor, changing at most a missing instance of a
    pointer-to-struct type into a fresh one, and adds only descriptors
    synthesized from the literal provider; without a provider it adds none. *)
Theorem build_keeps_registrations sch s o s' :
  wf s → Build env sch s = (o, s') →
  required s' = required s
  ∧ (∀ k b, beans s !! k = Some b → ∃ b', beans s' !! k = Some b' ∧ instantiatedAs b b')
  ∧ (∀ k b, beans s !! k = Some b → isNil (instance b) = false → beans s' !! k = Some b)
  ∧ (∀ k b, beans s' !! k = Some b → beans s !! k = None → ephemeral env s k b)
  ∧ (envProvider env = None → dom (beans s') = dom (beans s))
  ∧ providerCalls s `prefix_of` providerCalls s'.
Proof.
  intros Hwf HB. destruct (Build_kept sch s o s' Hwf HB) as (Hreq & Hkept & Hnew & Hcalls).
  split_and!; try done.
  - intros k b Hk Hn. destruct (Hkept k b Hk) as (b' & Hb' & [->|(Hnil & _)]); [done|].
    congruence.
  - intros Hnone. apply set_eq. intros k. rewrite !elem_of_dom. split.
    + intros [b Hb]. destruct (beans s !! k) as [b0|] eqn:Hk; [eauto|].
      destruct (Hnew k b Hb Hk) as (lp & _ & _ & Hlp & _). congruence.
    + intros [b Hb]. destruct (Hkept k b Hb) as (b' & Hb' & _). eauto.
Qed.

(** ** Building twice *)

(** A [Build] that returns without error, or that panics, marks the
    container as built: a later [Build] does nothing, under any iteration
    order. *)
Theorem build_is_idempotent sch s o s' :
  Build env sch s = (o, s') → isOk o = true ∨ (∃ e, o = Panic e) →
  built (cont s') = true ∧ ∀ sch', Build env sch' s' = (Ok tt, s').
Proof.
  intros HB Ho.
  assert (built (cont s') = true) as Hb'.
  { destruct (built (cont s)) eqn:Hb.
    { rewrite Build_closed in HB by done. by injection HB as <- <-. }
    destruct (Build_open env sch s o s' Hb HB) as (s3 & _ & ->).
    destruct Ho as [Ho|[e ->]]; [by destruct o|done]. }
  split; [done|]. intros sch'. by apply Build_closed.
Qed.

(** ** Resolution *)

Lemma ResolveSafe_run sch id s :
  id ≠ emptyString →
  ResolveSafe env sch id s
  = match Build env sch s with
    | (Ok _, s1) => (resolved (beans s1) (ToLower id), s1)
    | (Err e, s1) => (Err e, s1)
    | (Panic e, s1) => (Panic e, s1)
    | (OutOfFuel, s1) => (OutOfFuel, s1)
    end.
Proof.
  intros Hid. unfold ResolveSafe. rewrite decide_False by done.
  unfold bind at 1, get. destruct (built (cont s)) eqn:Hb.
  - rewrite Build_closed by done. unfold bind, ret, get, resolved.
    destruct (beans s !! ToLower id) as [bn|]; [|done]. by destruct (isNil (instance bn)).
  - unfold bind at 1. destruct (Build env sch s) as [[[]|e|e|] s1]; try done.
    unfold bind, get, resolved.
    destruct (beans s1 !! ToLower id) as [bn|]; [|done]. by destruct (isNil (instance bn)).
Qed.

Lemma resolved_Ok reg k v : resolved reg k = Ok v → isNil v = false.
Proof.
  unfold resolved. destruct (reg !! k) as [bn|]; [|done].
  destruct (isNil (instance bn)) eqn:Hn; [done|]. by intros [= <-].
Qed.

(** [ResolveSafe] builds the container first, whatever the identifier is,
    unless it is empty: the error of a failed [Build] is returned and leaves
    the container open; after a [Build] without error the container is
    closed, also when the lookup then fails. *)
Theorem ResolveSafe_builds_first sch id s o s1 :
  id ≠ emptyString → Build env sch s = (o, s1) →
  match o with
  | Ok _ =>
      built (cont s1) = true
      ∧ ResolveSafe env sch id s = (resolved (beans s1) (ToLower id), s1)
  | Err e => built (cont s1) = false ∧ ResolveSafe env sch id s = (Err e, s1)
  | Panic e => built (cont s1) = true ∧ ResolveSafe env sch id s = (Panic e, s1)
  | OutOfFuel => False
  end.
Proof.
  intros Hid HB. rewrite (ResolveSafe_run sch id s Hid), HB.
  destruct o as [[]|e|e|].
  - split; [|done]. by eapply Build_Ok_closed.
  - split; [|done]. by eapply Build_Err_open.
  - split; [|done]. destruct (built (cont s)) eqn:Hb.
    + rewrite Build_closed in HB by done. done.
    + by destruct (Build_open env sch s _ _ Hb HB) as (s3 & _ & ->).
  - pose proof (Build_not_OutOfFuel env sch s) as H. rewrite HB in H. done.
Qed.

(** A successful resolution returns a value that is not nil and leaves the
    container built; resolving again, under an identifier with the same
    lowercase form, returns the same value and changes nothing. *)
Theorem ResolveSafe_is_stable sch id s v s' :
  ResolveSafe env sch id s = (Ok v, s') →
  isNil v = false ∧ built (cont s') = true
  ∧ ∀ sch' id', ToLower id' = ToLower id → ResolveSafe env sch' id' s' = (Ok v, s').
Proof.
  intros HR.
  assert (id ≠ emptyString) as Hid.
  { intros ->. unfold ResolveSafe in HR. by rewrite decide_True in HR. }
  rewrite (ResolveSafe_run sch id s Hid) in HR.
  destruct (Build env sch s) as [[[]|e|e|] s1] eqn:HB; try done.
  injection HR as Hv <-.
  assert (built (cont s1) = true) as Hb by (by eapply Build_Ok_closed).
  split_and!; [by eapply resolved_Ok|done|].
  intros sch' id' Hlow.
  assert (id' ≠ emptyString) as Hid'.
  { intros ->. symmetry in Hlow. change (ToLower emptyString) with emptyString in Hlow.
    by apply Hid, ToLower_empty. }
  rewrite (ResolveSafe_run sch' id' s1 Hid'), Build_closed by done. by rewrite Hlow, Hv.
Qed.

(** ** [Resolve] *)

(** [Resolve] returns what [ResolveSafe] returns and panics with its error;
    it never returns an error, and after a successful resolution of an
    identifier it does not panic on it. *)
Theorem Resolve_panics_on_error sch id s :
  (∀ v s', ResolveSafe env sch id s = (Ok v, s') ↔ Resolve env sch id s = (Ok v, s'))
  ∧ (∀ e s', ResolveSafe env sch id s = (Err e, s') → Resolve env sch id s = (Panic e, s'))
  ∧ (∀ e, (Resolve env sch id s).1 ≠ Err e)
  ∧ (∀ v s', ResolveSafe env sch id s = (Ok v, s') →
       ∀ sch' id', ToLower id' = ToLower id → Resolve env sch' id' s' = (Ok v, s')).
Proof.
  split_and!.
  - intros v s'. unfold Resolve. destruct (ResolveSafe env sch id s) as [[]]; split; done.
  - intros e s' H. unfold Resolve. by rewrite H.
  - intros e. unfold Resolve. by destruct (ResolveSafe env sch id s) as [[]].
  - intros v s' HR sch' id' Hlow.
    assert (id ≠ emptyString) as Hid.
    { intros ->. unfold ResolveSafe in HR. by rewrite decide_True in HR. }
    assert (id' ≠ emptyString) as Hid'.
    { intros ->. symmetry in Hlow. change (ToLower emptyString) with emptyString in Hlow.
      by apply Hid, ToLower_empty. }
    rewrite (ResolveSafe_run sch id s Hid) in HR.
    destruct (Build env sch s) as [[[]|e|e|] s1] eqn:HB; try done.
    injection HR as Hv <-.
    unfold Resolve. rewrite (ResolveSafe_run sch' id' s1 Hid'), Build_closed
      by (by eapply Build_Ok_closed).
    by rewrite Hlow, Hv.
Qed.

(** ** [ResolveAs] *)

Lemma typeOf_kind v t : typeOf v = Some t → kind t ≠ KInterface ∧ isNil v = false.
Proof. destruct v; simpl; intros [= <-]; done. Qed.

(** After a [Build] without error, [ResolveAs] with the type of a singleton
    descriptor returns its instance; with another type that is not an
    interface it returns an error that shows the identifier as given; with
    an interface type it succeeds when the type of the descriptor implements
    it. *)
Theorem ResolveAs_registered_type sch id s s1 b :
  regInv s → id ≠ emptyString → Build env sch s = (Ok tt, s1) →
  beans s1 !! ToLower id = Some b → singleton b = true →
  ResolveAs env (beanType b) sch id s = (Ok (instance b), s1)
  ∧ (∀ T, kind T ≠ KInterface → T ≠ beanType b →
       ResolveAs env T sch id s
       = (Err ("bean '" +:+ id +:+ "' is not of requested type"), s1))
  ∧ (∀ T, kind T = KInterface →
       ResolveAs env T sch id s
       = (if envImplements env (beanType b) T then Ok (instance b)
          else Err ("bean '" +:+ id +:+ "' is not of requested type"), s1)).
Proof.
  intros Hinv Hid HB Hb Hs.
  pose proof (regInv_Build sch s Hinv) as Hinv1. rewrite HB in Hinv1. simpl in Hinv1.
  pose proof (inv_typed _ Hinv1 _ _ Hb Hs) as Hty.
  destruct (typeOf_kind _ _ Hty) as [Hk Hn].
  assert (ResolveSafe env sch id s = (Ok (instance b), s1)) as HR.
  { rewrite (ResolveSafe_run sch id s Hid), HB. unfold resolved. by rewrite Hb, Hn. }
  unfold ResolveAs. rewrite HR. unfold assertType. rewrite Hty. split_and!.
  - rewrite decide_False by done. by rewrite bool_decide_eq_true_2.
  - intros T HT Hne. rewrite decide_False by done. by rewrite bool_decide_eq_false_2.
  - intros T HT. rewrite decide_True by done. by destruct (envImplements env (beanType b) T).
Qed.

(** ** From registration to resolution *)

Lemma Build_Ok_instantiated sch s s' k b :
  wf s → built (cont s) = false → Build env sch s = (Ok tt, s') → beans s !! k = Some b →
  ∃ b', beans s' !! k = Some b' ∧ instantiatedAs b b'
        ∧ (isPtrToStruct (beanType b) = true → isNil (instance b') = false).
Proof.
  intros Hwf Hb HB Hk.
  destruct (Build_open env sch s _ _ Hb HB) as (s3 & Hrun & ->).
  apply BuildRun_phases in Hrun
    as [[_ (e & He & _)]|(s1 & oi & s2 & _ & Hi & Hj & _ & Hc & _)]; [done|].
  destruct (created_instantiated env s s1 _ Hwf Hi) as [Hcr Hnn].
  pose proof (injectDependencies_extends env _ _ _ _ Hj) as Hex.
  destruct (cr_kept _ _ Hcr Hwf k b Hk) as (b' & Hb' & Hi').
  exists b'. split_and!; [|done|].
  - change (beans s3 !! k = Some b'). unfold beans. rewrite Hc.
    by eapply lookup_weaken, (ext_beans _ _ _ Hex).
  - intros Hp. apply (Hnn k b' Hb').
    by destruct Hi' as [->|(_ & _ & e & l & _ & ->)].
Qed.

Lemma wf_store s s' k b :
  wf s → beanID b = k → beans s' = <[k := b]> (beans s) → wf s'.
Proof.
  intros Hwf Hid Hbe k' b'. rewrite Hbe.
  intros [[<- <-]|[_ Hl]]%lookup_insert_Some; [done|by apply Hwf].
Qed.

(** A type registered on an open container, then a [Build] without error:
    resolving the identifier, in any letter case, returns a pointer to a
    fresh struct when the type is a struct or a pointer to one, and the
    not-initialized error for another pointer type. An instance registered
    the same way is returned as it was given, or as the pointer to its copy
    when it was given as a struct value. *)
Theorem register_build_resolve sch s id :
  wf s → built (cont s) = false → id ≠ emptyString →
  (∀ t s2, kind t = KPtr ∨ kind t = KStruct →
     Build env sch (Register env id (Some t) s).2 = (Ok tt, s2) →
     ∀ sch' id', ToLower id' = ToLower id →
       if isPtrToStruct (normalizeType t) then
         ∃ e l, normalizeType t = TPtr e
                ∧ ResolveSafe env sch' id' s2 = (Ok (VPtr e (Some l)), s2)
       else
         ResolveSafe env sch' id' s2
         = (Err ("bean '" +:+ ToLower id +:+ "' is not initialized"), s2))
  ∧ (∀ inst s2, isNil inst = false →
       Build env sch (RegisterInstance env id inst s).2 = (Ok tt, s2) →
       ∀ sch' id', ToLower id' = ToLower id →
         ResolveSafe env sch' id' s2
         = (Ok (match inst with
                | VStruct n _ => VPtr (TStruct n) (Some (length (heap s)))
                | _ => inst
                end), s2)).
Proof.
  intros Hwf Hb Hid.
  assert (∀ id', ToLower id' = ToLower id → id' ≠ emptyString) as Hne.
  { intros id' Hlow ->. symmetry in Hlow. change (ToLower emptyString) with emptyString in Hlow.
    by apply Hid, ToLower_empty. }
  split.
  - intros t s2 Hk HB sch' id' Hlow.
    rewrite (Register_run s id t Hb Hid Hk) in HB. simpl in HB.
    set (s1 := setBeans _ _) in HB.
    assert (beans s1 = <[ToLower id := typeDescriptor env (ToLower id) t]> (beans s)) as Hbe
      by reflexivity.
    assert (wf s1) as Hwf1.
    { by apply (wf_store s s1 (ToLower id) (typeDescriptor env (ToLower id) t)). }
    assert (beans s1 !! ToLower id = Some (typeDescriptor env (ToLower id) t)) as Hl
      by (rewrite Hbe; apply lookup_insert_eq).
    destruct (Build_Ok_instantiated sch s1 s2 _ _ Hwf1 Hb HB Hl) as (b' & Hb' & Hi & Hnn).
    rewrite (ResolveSafe_run sch' id' s2 (Hne id' Hlow)),
      (Build_closed env sch' s2 (Build_Ok_closed env _ _ _ HB)).
    unfold resolved. rewrite Hlow, Hb'.
    destruct (isPtrToStruct (normalizeType t)) eqn:Hp.
    + specialize (Hnn Hp). destruct Hi as [->|(_ & _ & e & l & He & ->)]; [done|].
      exists e, l. split; [exact He|done].
    + destruct Hi as [->|(_ & Hp' & _)]; [done|]. simpl in Hp'. congruence.
  - intros inst s2 Hn HB sch' id' Hlow.
    rewrite (RegisterInstance_run s id inst Hb Hid Hn) in HB. simpl in HB.
    set (s1 := setBeans _ _) in HB.
    assert (beans s1 = <[ToLower id := instanceDescriptor env (ToLower id) inst
                                         (length (heap s))]> (beans s)) as Hbe
      by reflexivity.
    destruct (instanceDescriptor_scan (ToLower id) inst (length (heap s)) Hn)
      as (Hbid & _ & _ & _ & Hty).
    assert (wf s1) as Hwf1.
    { by apply (wf_store s s1 (ToLower id)
                  (instanceDescriptor env (ToLower id) inst (length (heap s)))). }
    assert (beans s1 !! ToLower id
            = Some (instanceDescriptor env (ToLower id) inst (length (heap s)))) as Hl
      by (rewrite Hbe; apply lookup_insert_eq).
    destruct (Build_Ok_instantiated sch s1 s2 _ _ Hwf1 Hb HB Hl) as (b' & Hb' & Hi & _).
    destruct (typeOf_kind _ _ Hty) as [_ Hnn].
    rewrite (ResolveSafe_run sch' id' s2 (Hne id' Hlow)),
      (Build_closed env sch' s2 (Build_Ok_closed env _ _ _ HB)).
    unfold resolved. rewrite Hlow, Hb'.
    destruct Hi as [->|(Hnil & _)]; [|congruence]. rewrite Hnn. by destruct inst.
Qed.

(** ** Struct types and struct values *)

(** Registering a struct type is registering the pointer type to it;
    registering a struct value is registering a pointer to a fresh copy of
    it. *)
Theorem struct_registration_is_pointer_registration id s :
  (∀ t, kind t = KStruct → Register env id (Some t) s = Register env id (Some (TPtr t)) s)
  ∧ (∀ n fs, id ≠ emptyString → built (cont s) = false →
       RegisterInstance env id (VStruct n fs) s
       = RegisterInstance env id (VPtr (TStruct n) (Some (length (heap s))))
           (setHeap (heap s ++ [VStruct n fs]) s)).
Proof.
  split.
  - intros t Hk. destruct (decide (id = emptyString)) as [Hid|Hid].
    { unfold Register. by rewrite !decide_True. }
    destruct (built (cont s)) eqn:Hb.
    { unfold Register. rewrite !decide_False by done. unfold bind, get. by rewrite Hb. }
    rewrite (Register_run s id t Hb Hid (or_intror Hk)).
    rewrite (Register_run s id (TPtr t) Hb Hid (or_introl eq_refl)).
    unfold typeDescriptor, normalizeType. by rewrite Hk.
  - intros n fs Hid Hb.
    rewrite (RegisterInstance_run s id (VStruct n fs) Hb Hid eq_refl).
    rewrite (RegisterInstance_run (setHeap (heap s ++ [VStruct n fs]) s) id
               (VPtr (TStruct n) (Some (length (heap s)))) Hb Hid eq_refl).
    by destruct s as [[]].
Qed.

(** ** [createInstance] *)

Lemma zeroValue_typeOf e : kind e ≠ KInterface → typeOf (zeroValue env e) = Some e.
Proof.
  unfold zeroValue. destruct (length (envDecls env)); by destruct e.
Qed.

(** For a struct type or a pointer type, [createInstance] returns a pointer
    of the pointer type to a fresh cell that holds the zero value of the
    element type; for any other type it returns the not-supported error and
    allocates nothing. *)
Theorem createInstance_result t h :
  match createInstance env t h with
  | (Ok v, h') =>
      ∃ e, normalizeType t = TPtr e ∧ v = VPtr e (Some (length h))
           ∧ h' = h ++ [zeroValue env e] ∧ h !! length h = None
           ∧ typeOf v = Some (normalizeType t)
           ∧ (kind e ≠ KInterface → pointeeOk h' v)
  | (Err e, h') =>
      h' = h ∧ kind t ≠ KPtr ∧ kind t ≠ KStruct
      ∧ e = "beanType is not supported: " +:+ kindString (kind t)
  | _ => False
  end.
Proof.
  destruct t as [| |n|n|e]; simpl; try done.
  - exists (TStruct n). split_and!; try done.
    + by apply lookup_ge_None_2.
    + intros _. exists (zeroValue env (TStruct n)). split; [apply list_lookup_middle; done|].
      by apply zeroValue_typeOf.
  - exists e. split_and!; try done.
    + by apply lookup_ge_None_2.
    + intros Hk. exists (zeroValue env e). split; [apply list_lookup_middle; done|].
      by apply zeroValue_typeOf.
Qed.

(** ** [joinPath] *)

(** On identifiers that are not empty, [joinPath] is [strings.Join] of the
    path followed by the last node; an empty last node is left out. *)
Theorem joinPath_is_Join p last :
  Forall (λ k, k ≠ emptyString) p →
  joinPath p last
  = Join (p ++ (if decide (last = emptyString) then [] else [last])) pathSep.
Proof.
  intros Hp. destruct (decide (last = emptyString)) as [->|Hl].
  { rewrite app_nil_r. unfold joinPath. rewrite decide_True by done. apply joinLoop_start. }
  destruct p as [|x p]; [unfold joinPath; by rewrite decide_False|].
  by apply joinPath_Join.
Qed.

(** ** Validation and the order of iteration *)

Lemma verdictOf_absent s id : required s !! id = None → verdictOf env s id = None.
Proof. intros H. unfold verdictOf. by rewrite H. Qed.

(** The validation step changes nothing, and whether it succeeds does not
    depend on the order in which the required-dependency map is iterated: it
    succeeds exactly when no entry has a verdict, and an error it returns is
    the verdict of some entry. *)
Theorem validation_is_order_independent prio prio' s :
  (validate env prio s).2 = s
  ∧ ((validate env prio s).1 = Ok tt ↔ ∀ id, verdictOf env s id = None)
  ∧ ((validate env prio s).1 = Ok tt ↔ (validate env prio' s).1 = Ok tt)
  ∧ (∀ e, (validate env prio s).1 = Err e → ∃ id, verdictOf env s id = Some e).
Proof.
  assert (∀ q, (validate env q s).2 = s
               ∧ ((validate env q s).1 = Ok tt ↔ ∀ id, verdictOf env s id = None)
               ∧ (∀ e, (validate env q s).1 = Err e → ∃ id, verdictOf env s id = Some e))
    as Hall.
  { intros q. destruct (validate_cases env q s)
      as [[Hf ->]|(l1 & id & l2 & e & Hsplit & Hf & Hv & ->)]; simpl.
    - split_and!; [done| |done]. split; [intros _ id|done].
      destruct (required s !! id) as [t|] eqn:Hr; [|by apply verdictOf_absent].
      rewrite Forall_forall in Hf. apply Hf, elem_of_rangeKeys. eauto.
    - split_and!; [done| |].
      + split; [done|]. intros Hnone. rewrite Hnone in Hv. done.
      + intros e' [= <-]. eauto. }
  destruct (Hall prio) as (H1 & H2 & H3). destruct (Hall prio') as (_ & H2' & _).
  split_and!; [done|done| |done]. by rewrite H2, H2'.
Qed.

(** ** Dependencies after validation *)

(** On a registry that satisfies the invariant and passes validation, every
    dependency of every descriptor is registered with a type compatible with
    the one required for it, or is a string left to the literal provider. *)
Theorem dependencies_are_registered prio s :
  regInv s → (validate env prio s).1 = Ok tt →
  ∀ k b d, beans s !! k = Some b → d ∈ dependencies b →
    ∃ t, required s !! d = Some t
         ∧ match beans s !! d with
           | Some bd => specCompatible env t (beanType bd)
           | None => kind t = KString ∧ is_Some (envProvider env)
           end.
Proof.
  intros Hinv Hv k b d Hb Hd.
  destruct (inv_deps _ Hinv k b d Hb Hd) as [t Ht]. exists t. split; [done|].
  assert (verdictOf env s d = None) as Hnone.
  { destruct (validate_cases env prio s)
      as [[Hf _]|(l1 & id & l2 & e & _ & _ & _ & HE)]; [|by rewrite HE in Hv].
    rewrite Forall_forall in Hf. apply Hf, elem_of_rangeKeys. eauto. }
  unfold verdictOf in Hnone. rewrite Ht in Hnone. simpl in Hnone.
  unfold entryVerdict in Hnone. destruct (beans s !! d) as [bd|].
  - by destruct (decide (specCompatible env t (beanType bd))).
  - destruct (decide (kind t ≠ KString ∨ envProvider env = None)) as [|Hn]; [done|].
    split.
    + destruct (decide (kind t = KString)); [done|]. exfalso. apply Hn. by left.
    + destruct (envProvider env); [eauto|]. exfalso. apply Hn. by right.
Qed.

(** ** The guards of [injectIntoStruct] *)

Lemma injectField_not_addressable depBean li : ∀ h,
  forM li (λ '(i, sf), injectField env None depBean i sf) h = (Ok tt, h).
Proof.
  induction li as [|[i sf] li IH]; intros h; [done|].
  rewrite forM_cons. unfold bind.
  assert (injectField env None depBean i sf h = (Ok tt, h)) as ->; [|apply IH].
  unfold injectField.
  destruct (decide (default emptyString (ftag sf) = emptyString)); [done|].
  by destruct (decide (ToLower (default emptyString (ftag sf)) = beanID depBean)).
Qed.

(** [injectIntoStruct] changes the heap only through a receiver that is a
    pointer to a struct and is not nil: a dependency that is on the chain
    gives the cycle error, a receiver that is neither a struct nor such a
    pointer gives the not-a-struct error, and a receiver that is a struct
    value has no field assigned; the heap is left as it was in the three
    cases. *)
Theorem injectIntoStruct_guards receiverBean depBean chain h :
  (beanID depBean ∈ chain →
   injectIntoStruct env receiverBean depBean chain h
   = (Err (cyclePrefix +:+ Join chain pathSep +:+ pathSep +:+ beanID depBean), h))
  ∧ (beanID depBean ∉ chain →
     (receiverOf (instance receiverBean) = None →
      injectIntoStruct env receiverBean depBean chain h
      = (Err ("injectIntoStruct: receiver bean '" +:+ beanID receiverBean
              +:+ "' is not a struct"), h))
     ∧ (∀ e, instance receiverBean = VPtr e None →
          receiverOf (instance receiverBean) = None)
     ∧ (∀ n fs, instance receiverBean = VStruct n fs →
          injectIntoStruct env receiverBean depBean chain h = (Ok tt, h))).
Proof.
  split.
  - intros Hin. unfold injectIntoStruct. by rewrite bool_decide_eq_true_2.
  - intros Hnot. split_and!.
    + intros Hr. unfold injectIntoStruct. rewrite bool_decide_eq_false_2 by done.
      by rewrite Hr.
    + by intros e ->.
    + intros n fs Hi. unfold injectIntoStruct. rewrite bool_decide_eq_false_2 by done.
      rewrite Hi. simpl. apply injectField_not_addressable.
Qed.

(** ** Calls to the literal provider *)

(** [Build] does not call the literal provider when none is installed, nor
    when every string required is registered. *)
Theorem provider_not_called sch s o s' :
  wf s → Build env sch s = (o, s') →
  envProvider env = None
  ∨ (∀ k t, required s !! k = Some t → kind t = KString → is_Some (beans s !! k)) →
  providerCalls s' = providerCalls s.
Proof.
  intros Hwf HB Hno. destruct (built (cont s)) eqn:Hb.
  { rewrite Build_closed in HB by done. by injection HB as <- <-. }
  destruct (Build_open env sch s o s' Hb HB) as (s3 & Hrun & Hs').
  assert (providerCalls s' = providerCalls s3) as -> by (destruct o; subst s'; done).
  apply BuildRun_phases in Hrun
    as [[-> _]|(s1 & oi & s2 & _ & Hi & Hj & _ & _ & ->)]; [done|].
  destruct (created_instantiated env s s1 _ Hwf Hi) as [Hcr _].
  pose proof (injectDependencies_extends env _ _ _ _ Hj) as Hex.
  destruct (ext_calls _ _ _ Hex) as (new & -> & Hnew).
  rewrite (cr_calls _ _ Hcr). destruct new as [|c new]; [by rewrite app_nil_r|].
  exfalso. apply Forall_cons in Hnew as [(Hnone & Hreq & Hk & lp & Hlp & _) _].
  destruct Hno as [Hno|Hno]; [congruence|].
  rewrite (cr_required _ _ Hcr) in Hreq. destruct (Hno _ _ Hreq Hk) as [b Hb0].
  destruct (cr_kept _ _ Hcr Hwf _ _ Hb0) as (b' & Hb' & _). congruence.
Qed.

(** ** An empty annotation *)

(** A field with an empty annotation is recorded as a dependency on the
    empty identifier, under which no registration stores a descriptor: once a
    type with such a field is registered, no [Build] succeeds while no
    literal provider is installed. *)
Theorem empty_annotation_fails_build id n s :
  built (cont s) = false → id ≠ emptyString → beans s !! emptyString = None →
  envProvider env = None →
  emptyString ∈ (wantedOf env (TPtr (TStruct n))).*1 →
  beans (Register env id (Some (TStruct n)) s).2 !! emptyString = None
  ∧ ∀ sch, ∃ e, Build env sch (Register env id (Some (TStruct n)) s).2
                = (Err e, (Register env id (Some (TStruct n)) s).2).
Proof.
  intros Hb Hid Hempty Hlp Hin.
  rewrite (Register_run s id (TStruct n) Hb Hid (or_intror eq_refl)). simpl.
  set (s1 := setBeans _ _).
  assert (beans s1 !! emptyString = None) as Hnone.
  { change (<[ToLower id := typeDescriptor env (ToLower id) (TStruct n)]> (beans s)
            !! emptyString = None).
    rewrite lookup_insert_ne; [done|]. intros H. by apply Hid, ToLower_empty. }
  split; [done|]. intros sch.
  assert (is_Some (required s1 !! emptyString)) as [t Ht].
  { change (is_Some (recordAll (required s) (wantedOf env (TPtr (TStruct n)))
                     !! emptyString)).
    by apply recordAll_recorded. }
  assert (verdictOf env s1 emptyString = Some (notRegistered emptyString)) as Hv.
  { unfold verdictOf. rewrite Ht. simpl. unfold entryVerdict. rewrite Hnone.
    rewrite decide_True; [done|]. by right. }
  destruct (validate_cases env (prioRequired sch) s1)
    as [[Hf _]|(l1 & k & l2 & e & _ & _ & _ & HE)].
  - rewrite Forall_forall in Hf.
    rewrite (Hf emptyString) in Hv; [done|]. apply elem_of_rangeKeys. eauto.
  - exists e. unfold Build, buildSteps.
    assert (built (cont s1) = false) as -> by exact Hb.
    unfold bind at 1. by rewrite HE.
Qed.

(** ** [SetLiteralProvider] *)

Lemma bind_ext_run {S A B} (m m' : M S A) (k k' : A → M S B) s :
  m s = m' s → (∀ a s1, m' s = (Ok a, s1) → k a s1 = k' a s1) →
  bind m k s = bind m' k' s.
Proof. intros Hm Hk. unfold bind. rewrite Hm. destruct (m' s) as [[a| | |] s1]; auto. Qed.

Lemma foldM_ext_inv {S A B} (I : S → Prop) (f g : B → A → M S B) l :
  (∀ b x s, I s → f b x s = g b x s) →
  (∀ b x s, I s → I (g b x s).2) →
  ∀ b s, I s → foldM f b l s = foldM g b l s.
Proof.
  intros Hfg Hinv. induction l as [|x l IH]; intros b s HI; [done|]. simpl.
  apply bind_ext_run; [by apply Hfg|]. intros b' s1 Hg. apply IH.
  specialize (Hinv b x s HI). by rewrite Hg in Hinv.
Qed.

Lemma stringsRegistered_extends s s' :
  extends env s s' → stringsRegistered s → stringsRegistered s'.
Proof.
  intros Hex HP k t Ht Hk. rewrite (ext_required _ _ _ Hex) in Ht.
  destruct (HP k t Ht Hk) as [b Hb]. exists b.
  by eapply lookup_weaken, (ext_beans _ _ _ Hex).
Qed.

Section Provider.

Variable p : option (string → gotype → value * bool * option string).

Local Abbreviation env' := (SetLiteralProvider p env).

Lemma checkRequired_provider id s :
  stringsRegistered s → checkRequired env' id s = checkRequired env id s.
Proof.
  intros HP. unfold checkRequired, bind, get.
  destruct (required s !! id) as [t|] eqn:Ht; [|done].
  destruct (beans s !! id) as [b|] eqn:Hb; [done|].
  destruct (decide (kind t = KString)) as [Hk|Hk].
  - destruct (HP id t Ht Hk) as [b Hb']. congruence.
  - by rewrite (bool_decide_eq_false_2 _ Hk).
Qed.

Lemma validate_provider prio s :
  stringsRegistered s → validate env' prio s = validate env prio s.
Proof.
  intros HP. unfold validate, bind, get, forM.
  apply (foldM_ext_inv (λ s', s' = s)); [| |done].
  - intros _ id s' ->. by apply checkRequired_provider.
  - intros _ id s' ->. by rewrite checkRequired_verdict.
Qed.

Lemma lookupDependency_provider dep rid s :
  stringsRegistered s → lookupDependency env' dep rid s = lookupDependency env dep rid s.
Proof.
  intros HP. unfold lookupDependency.
  destruct (beans s !! dep) as [b|] eqn:Hb; [done|].
  destruct (required s !! dep) as [t|] eqn:Ht; [|done].
  destruct (decide (kind t = KString)) as [Hk|Hk]; [|done].
  destruct (HP dep t Ht Hk) as [b Hb']. congruence.
Qed.

Lemma visit_provider fuel : ∀ id s,
  stringsRegistered s.1 → visit env' fuel id s = visit env fuel id s.
Proof.
  induction fuel as [|fuel IH]; intros id s HP; [done|]. simpl.
  unfold bind at 1 5, get.
  destruct (beans s.1 !! id) as [bn|]; [|done].
  destruct (decide (id ∈ onPath s.2)); [done|].
  destruct (decide (id ∈ visited s.2)); [done|].
  apply bind_ext_run; [done|]. intros [] s1 [= <-].
  apply bind_ext_run; [|done].
  destruct (hasDependencies bn); [|done].
  destruct (isNil (instance bn)); [done|].
  apply bind_ext_run; [|done].
  apply (foldM_ext_inv (λ s', stringsRegistered s'.1)); [| |exact HP].
  - intros b dep [s' d'] HP'. unfold injectDependency. simpl in HP'.
    apply bind_ext_run.
    + rewrite !onState_run. by rewrite lookupDependency_provider.
    + intros depBean s2 Hl. apply bind_ext_run; [|done].
      apply IH. rewrite onState_run in Hl. injection Hl as _ <-. simpl.
      eapply stringsRegistered_extends; [|exact HP'].
      apply lookupDependency_stable.
  - intros b dep s' HP'.
    eapply stringsRegistered_extends; [|exact HP'].
    apply (injectDependency_stable env (visit env fuel) id b dep).
    intros x. apply visit_stable.
Qed.

Lemma injectDependencies_provider prio s :
  stringsRegistered s → injectDependencies env' prio s = injectDependencies env prio s.
Proof.
  intros HP. unfold injectDependencies, forM.
  rewrite (foldM_ext_inv (λ s', stringsRegistered s'.1)
             (λ _ x, visit env' (S (size (beans s))) x)
             (λ _ x, visit env (S (size (beans s))) x)); [done| | |done].
  - intros _ x s' HP'. by apply visit_provider.
  - intros _ x s' HP'. eapply stringsRegistered_extends; [|exact HP'].
    apply visit_stable.
Qed.

(** Installing, replacing or removing the literal provider changes nothing
    for the registrations, and nothing for a [Build] of a container in which
    every string required is registered. *)
Theorem provider_is_irrelevant s :
  (∀ id t, Register env' id t s = Register env id t s)
  ∧ (∀ id inst, RegisterInstance env' id inst s = RegisterInstance env id inst s)
  ∧ (wf s → stringsRegistered s → ∀ sch, Build env' sch s = Build env sch s).
Proof.
  split_and!; [done|done|]. intros Hwf HP sch. unfold Build.
  destruct (built (cont s)); [done|].
  assert (buildSteps env' sch s = buildSteps env sch s) as ->; [|done].
  unfold buildSteps. apply bind_ext_run; [by apply validate_provider|].
  intros [] s0 Hv. apply bind_ext_run; [done|]. intros [] s1 Hi.
  assert (s0 = s) as ->.
  { destruct (validate_cases env (prioRequired sch) s) as [[_ H]|(? & ? & ? & ? & _ & _ & _ & H)];
      rewrite H in Hv; by simplify_eq. }
  destruct (created_instantiated env s s1 _ Hwf Hi) as [Hcr _].
  apply bind_ext_run; [|done]. apply injectDependencies_provider.
  intros k t Ht Hk. rewrite (cr_required _ _ Hcr) in Ht.
  destruct (HP k t Ht Hk) as [b Hb].
  destruct (cr_kept _ _ Hcr Hwf k b Hb) as (b' & Hb' & _). eauto.
Qed.

End Provider.

(** ** The fields after the injection *)

Lemma okThen_bind {S A B} (m : M S A) (k : A → M S B) (Q : B → S → Prop) s :
  okThen (λ a s1, okThen Q (k a s1)) (m s) → okThen Q (bind m k s).
Proof. unfold bind. by destruct (m s) as [[]]. Qed.

Lemma okThen_mono {S A} (Q Q' : A → S → Prop) r :
  (∀ a s, Q a s → Q' a s) → okThen Q r → okThen Q' r.
Proof. destruct r as [[]]; simpl; auto. Qed.

Lemma okThen_Ok {S A} (Q : A → S → Prop) (r : outcome A * S) a s :
  okThen Q r → r = (Ok a, s) → Q a s.
Proof. by intros H ->. Qed.

Lemma selects_functional d d' sf : selects d sf → selects d' sf → d = d'.
Proof. intros [_ H] [_ H']. congruence. Qed.

Lemma writes_refl reg h : writes env reg h h.
Proof. intros l n fs Hl. exists fs. split_and!; [done|done|auto]. Qed.

Lemma legit_mono reg reg' n i v : reg ⊆ reg' → legit env reg n i v → legit env reg' n i v.
Proof.
  intros Hsub (sf & d & bd & Hsf & Hsel & Hd & Hv). exists sf, d, bd.
  split_and!; [done|done|by eapply lookup_weaken|done].
Qed.

Lemma writes_mono reg reg' h h' : reg ⊆ reg' → writes env reg h h' → writes env reg' h h'.
Proof.
  intros Hsub Hw l n fs Hl. destruct (Hw l n fs Hl) as (fs' & Hl' & Hlen & Hf).
  exists fs'. split_and!; [done|done|]. intros i v Hv.
  destruct (Hf i v Hv) as [?|?]; [by left|right; by eapply legit_mono].
Qed.

Lemma writes_trans reg h1 h2 h3 :
  writes env reg h1 h2 → writes env reg h2 h3 → writes env reg h1 h3.
Proof.
  intros H12 H23 l n fs Hl. destruct (H12 l n fs Hl) as (fs2 & Hl2 & Hlen2 & Hf2).
  destruct (H23 l n fs2 Hl2) as (fs3 & Hl3 & Hlen3 & Hf3).
  exists fs3. split_and!; [done|congruence|]. intros i v Hv.
  destruct (Hf3 i v Hv) as [Hv2|?]; [by apply Hf2|by right].
Qed.

Lemma writes_alloc reg h z : writes env reg h (h ++ [z]).
Proof.
  intros l n fs Hl. exists fs. split_and!; [by apply lookup_app_l_Some|done|auto].
Qed.

Lemma writes_store reg h l n fs i x :
  h !! l = Some (VStruct n fs) → legit env reg n i x → writes env reg h (store l i x h).
Proof.
  intros Hl Hx l' n' fs' Hl'. unfold store. rewrite Hl.
  destruct (decide (l' = l)) as [->|Hne].
  - assert (n' = n ∧ fs' = fs) as [-> ->] by (split; congruence).
    exists (<[i := x]> fs). split_and!.
    + apply list_lookup_insert_eq. by eapply lookup_lt_Some.
    + by rewrite length_insert.
    + intros j v Hv. destruct (decide (j = i)) as [->|Hji].
      * right. apply list_lookup_insert_Some in Hv as [(_ & <- & _)|[? _]]; done.
      * left. by rewrite list_lookup_insert_ne in Hv.
  - exists fs'. split_and!; [|done|auto]. rewrite <- Hl'. by apply list_lookup_insert_ne.
Qed.

Lemma setField_Ok l i t x h u h' : setField env l i t x h = (Ok u, h') → h' = store l i x h.
Proof.
  unfold setField, store. destruct (assignable env x t); [|done].
  destruct (h !! l) as [[]|]; try done. by intros [= _ <-].
Qed.

(** The shape of the heap after one step of the loop of [injectIntoStruct]
    that returned normally. *)
Lemma injectField_shape l depBean i sf h :
  okThen (λ _ h',
            (h' = h ∧ (selects (beanID depBean) sf → ftype sf ≠ beanType depBean))
            ∨ (selects (beanID depBean) sf
               ∧ ∃ x h1, (h1 = h ∨ ∃ z, h1 = h ++ [z]) ∧ h' = store l i x h1
                         ∧ (ftype sf = beanType depBean →
                            ¬ emptyStructPointer env (beanType depBean) →
                            x = instance depBean)))
         (injectField env (Some l) depBean i sf h).
Proof.
  unfold injectField.
  destruct (decide (default emptyString (ftag sf) = emptyString)) as [He|He].
  { left. split; [done|]. by intros (? & _)%selects_iff. }
  destruct (decide (ToLower (default emptyString (ftag sf)) = beanID depBean)) as [Hid|Hid];
    [|left; split; [done|by intros (_ & ? & _)%selects_iff]].
  destruct (fexported sf) eqn:Hex; cbn [negb];
    [|left; split; [done|intros (_ & _ & ?)%selects_iff; congruence]].
  assert (selects (beanID depBean) sf) as Hsel by (by apply selects_iff).
  assert (∀ x h1, (h1 = h ∨ ∃ z, h1 = h ++ [z]) →
            (ftype sf = beanType depBean → ¬ emptyStructPointer env (beanType depBean) →
             x = instance depBean) →
            okThen (λ _ h',
                      (h' = h ∧ (selects (beanID depBean) sf → ftype sf ≠ beanType depBean))
                      ∨ (selects (beanID depBean) sf
                         ∧ ∃ x h1, (h1 = h ∨ ∃ z, h1 = h ++ [z]) ∧ h' = store l i x h1
                                   ∧ (ftype sf = beanType depBean →
                                      ¬ emptyStructPointer env (beanType depBean) →
                                      x = instance depBean)))
                   (setField env l i (ftype sf) x h1)) as Hset.
  { intros x h1 Hh1 Hx.
    destruct (setField env l i (ftype sf) x h1) as [[u| | |] h'] eqn:Hs; try done.
    apply setField_Ok in Hs. right. split; [done|]. by exists x, h1. }
  destruct (decide (ftype sf = beanType depBean)) as [Heq|Hne].
  { destruct (beanType depBean) as [| |m|m|e] eqn:Hdt; try (apply Hset; [by left|done]).
    rewrite emptyStructPointer_test.
    destruct (decide (emptyStructPointer env (TPtr e))) as [Hes|Hes].
    - rewrite (bool_decide_eq_true_2 _ Hes). unfold reflectNew, bind, alloc, ret.
      apply Hset; [right; by eexists|done].
    - rewrite (bool_decide_eq_false_2 _ Hes). apply Hset; [by left|done]. }
  destruct (decide (kind (ftype sf) = KInterface)) as [Hki|Hki].
  { destruct (typeOf (instance depBean)) as [t|]; [|done].
    destruct (envImplements env t (ftype sf)); [apply Hset; [by left|done]|].
    left. by split. }
  destruct (bool_decide (kind (ftype sf) = KPtr) && bool_decide (kind (beanType depBean) = KStruct)
            && bool_decide (Elem (ftype sf) = Some (beanType depBean))).
  { unfold bind, alloc, setCell.
    destruct (assignable env (instance depBean) (beanType depBean)); [|done].
    apply Hset; [|done]. right. exists (instance depBean). apply insert_last_cell. }
  destruct (bool_decide (kind (ftype sf) = KStruct) && bool_decide (kind (beanType depBean) = KPtr)
            && bool_decide (Elem (beanType depBean) = Some (ftype sf))).
  { apply okThen_bind.
    destruct (derefValue (instance depBean) h) as [[x| | |] h0] eqn:Hd; try done. simpl.
    assert (h0 = h) as ->.
    { unfold derefValue in Hd. repeat case_match; by simplify_eq. }
    apply Hset; [by left|done]. }
  destruct (bool_decide (kind (ftype sf) = KPtr) && bool_decide (kind (beanType depBean) = KPtr)
            && bool_decide (Elem (ftype sf) = Elem (beanType depBean)));
    [apply Hset; [by left|done]|].
  left. by split.
Qed.

Lemma okThen_foldM_prefix {S A B} (body : B → A → M S B) (Inv : list A → B → S → Prop) l :
  (∀ done x rest b s, l = done ++ x :: rest → Inv done b s →
     okThen (λ b' s', Inv (done ++ [x]) b' s') (body b x s)) →
  ∀ b s, Inv [] b s → okThen (λ b' s', Inv l b' s') (foldM body b l s).
Proof.
  intros Hbody.
  assert (∀ rest done b s, l = done ++ rest → Inv done b s →
            okThen (λ b' s', Inv l b' s') (foldM body b rest s)) as H.
  { induction rest as [|x rest IH]; intros done b s Hl HI; simpl.
    - rewrite app_nil_r in Hl. by subst.
    - apply okThen_bind. eapply okThen_mono; [|by eapply Hbody].
      intros b' s' HI'. apply (IH (done ++ [x])); [|done]. by rewrite <- app_assoc. }
  intros b s HI. by apply (H l []).
Qed.

Lemma okThen_forM_prefix {S A} (body : A → M S unit) (Inv : list A → S → Prop) l :
  (∀ done x rest s, l = done ++ x :: rest → Inv done s →
     okThen (λ _ s', Inv (done ++ [x]) s') (body x s)) →
  ∀ s, Inv [] s → okThen (λ _ s', Inv l s') (forM l body s).
Proof.
  intros Hbody s HI. unfold forM.
  apply (okThen_foldM_prefix (λ _ x, body x) (λ done _ s', Inv done s')); [|done].
  intros done x rest _ s0 Hl HI0. by eapply Hbody.
Qed.

(** A field that holds the instance of the dependency that selects it keeps
    it under the stores of the injection. *)
Lemma writes_keeps reg h h' l n fs i sf d bd :
  writes env reg h h' → h !! l = Some (VStruct n fs) → fs !! i = Some (instance bd) →
  fieldsOf env (TStruct n) !! i = Some sf → selects d sf → reg !! d = Some bd →
  ftype sf = beanType bd → ¬ emptyStructPointer env (beanType bd) →
  ∃ fs', h' !! l = Some (VStruct n fs') ∧ fs' !! i = Some (instance bd).
Proof.
  intros Hw Hl Hi Hsf Hsel Hd Hty Hne.
  destruct (Hw l n fs Hl) as (fs' & Hl' & Hlen & Hf). exists fs'. split; [done|].
  assert (is_Some (fs' !! i)) as [v Hv].
  { apply lookup_lt_is_Some. rewrite Hlen. by eapply lookup_lt_Some. }
  rewrite Hv. f_equal.
  destruct (Hf i v Hv) as [Hold|(sf' & d' & bd' & Hsf' & Hsel' & Hd' & Hv')]; [congruence|].
  assert (sf' = sf) as -> by congruence.
  assert (d' = d) as -> by (by eapply selects_functional).
  assert (bd' = bd) as -> by congruence. by apply Hv'.
Qed.

Lemma store_lookup (h : Heap) l n fs i x :
  h !! l = Some (VStruct n fs) → store l i x h !! l = Some (VStruct n (<[i := x]> fs)).
Proof.
  intros Hl. unfold store. rewrite Hl. apply list_lookup_insert_eq. by eapply lookup_lt_Some.
Qed.

Lemma injectField_ok reg l n fs depBean i sf h :
  h !! l = Some (VStruct n fs) → fieldsOf env (TStruct n) !! i = Some sf →
  reg !! beanID depBean = Some depBean → i < length fs →
  okThen (λ _ h',
            writes env reg h h'
            ∧ (selects (beanID depBean) sf → ftype sf = beanType depBean →
               ¬ emptyStructPointer env (beanType depBean) →
               ∃ fs', h' !! l = Some (VStruct n fs') ∧ fs' !! i = Some (instance depBean)))
         (injectField env (Some l) depBean i sf h).
Proof.
  intros Hl Hsf Hreg Hi.
  eapply okThen_mono; [|apply injectField_shape].
  intros _ h' [[-> Hnot]|(Hsel & x & h1 & Hh1 & -> & Hx)].
  { split; [apply writes_refl|]. intros Hsel Hty. by destruct (Hnot Hsel). }
  assert (h1 !! l = Some (VStruct n fs) ∧ writes env reg h h1) as [Hl1 Hw1].
  { destruct Hh1 as [->|[z ->]]; [split; [done|apply writes_refl]|].
    split; [by apply lookup_app_l_Some|apply writes_alloc]. }
  split.
  - eapply writes_trans; [exact Hw1|]. eapply writes_store; [exact Hl1|].
    by exists sf, (beanID depBean), depBean.
  - intros _ Hty Hne. exists (<[i := x]> fs). split; [by apply store_lookup|].
    rewrite (Hx Hty Hne). by apply list_lookup_insert_eq.
Qed.

(** After an injection that returned normally, the fields of the receiver
    that the dependency selects and that have its type hold its instance. *)
Lemma injectIntoStruct_ok reg rb depBean chain n l fs h :
  reg !! beanID depBean = Some depBean → instance rb = VPtr (TStruct n) (Some l) →
  h !! l = Some (VStruct n fs) → length fs = length (fieldsOf env (TStruct n)) →
  okThen (λ _ h',
            writes env reg h h'
            ∧ ∀ i sf, fieldsOf env (TStruct n) !! i = Some sf →
                selects (beanID depBean) sf → ftype sf = beanType depBean →
                ¬ emptyStructPointer env (beanType depBean) →
                ∃ fs', h' !! l = Some (VStruct n fs') ∧ fs' !! i = Some (instance depBean))
         (injectIntoStruct env rb depBean chain h).
Proof.
  intros Hreg Hinst Hl Hlen. unfold injectIntoStruct.
  destruct (bool_decide (beanID depBean ∈ chain)); [done|]. rewrite Hinst. simpl.
  set (Inv := λ (done : list (nat * StructField)) (h' : Heap),
         writes env reg h h'
         ∧ ∀ i sf, (i, sf) ∈ done → selects (beanID depBean) sf →
             ftype sf = beanType depBean → ¬ emptyStructPointer env (beanType depBean) →
             ∃ fs', h' !! l = Some (VStruct n fs') ∧ fs' !! i = Some (instance depBean)).
  eapply okThen_mono; [|apply (okThen_forM_prefix _ Inv)].
  - intros _ h' [Hw Hall]. split; [done|]. intros i sf Hsf. apply Hall.
    by apply elem_of_indexed.
  - intros done [i sf] rest h0 Hsplit [Hw Hall].
    assert (fieldsOf env (TStruct n) !! i = Some sf) as Hsf.
    { apply elem_of_indexed. cbn [fieldsOf]. rewrite Hsplit. set_solver. }
    destruct (Hw l n fs Hl) as (fs0 & Hl0 & Hlen0 & _).
    eapply okThen_mono; [|apply (injectField_ok reg l n fs0); try done].
    + intros _ h' [Hw' Hnew]. split; [by eapply writes_trans|].
      intros j sf' [Hin|Hin%list_elem_of_singleton]%elem_of_app Hsel Hty Hne.
      * destruct (Hall j sf' Hin Hsel Hty Hne) as (fs1 & Hl1 & Hj).
        assert (fieldsOf env (TStruct n) !! j = Some sf') as Hsf'.
        { apply elem_of_indexed. cbn [fieldsOf]. rewrite Hsplit. set_solver. }
        by eapply (writes_keeps reg h0 h').
      * injection Hin as -> ->. by apply Hnew.
    + rewrite Hlen0, Hlen. by eapply lookup_lt_Some.
  - split; [apply writes_refl|]. by intros i sf ?%elem_of_nil.
Qed.

(** ** The traversal keeps what it has injected *)

Lemma injects_refl s : injects env s s.
Proof. split; [reflexivity|apply writes_refl]. Qed.

Lemma injects_trans s1 s2 s3 : injects env s1 s2 → injects env s2 s3 → injects env s1 s3.
Proof.
  intros [He1 Hw1] [He2 Hw2]. split; [by etrans|].
  eapply writes_trans; [|exact Hw2]. eapply writes_mono; [|exact Hw1]. apply He2.
Qed.

Lemma injects_setHeap s h : writes env (beans s) (heap s) h → injects env s (setHeap h s).
Proof. intros Hw. split; [apply extends_setHeap|]. by autorewrite with state. Qed.

Lemma extends_origin s s' k b :
  extends env s s' → beans s' !! k = Some b →
  beans s !! k = Some b ∨ (beanID b = k ∧ hasDependencies b = false).
Proof.
  intros Hex Hb. destruct (beans s !! k) as [b0|] eqn:Hb0.
  - left. pose proof (lookup_weaken _ _ _ _ Hb0 (ext_beans _ _ _ Hex)). congruence.
  - right. by destruct (ext_new _ _ _ Hex k b Hb Hb0) as (lp & t & v & _ & _ & _ & _ & ->).
Qed.

Lemma wf_injects s s' : wf s → injects env s s' → wf s'.
Proof.
  intros Hwf [Hex _] k b Hb.
  destruct (extends_origin s s' k b Hex Hb) as [Hb0|[Hid _]]; [by apply Hwf|done].
Qed.

Lemma receiversOk_injects s s' : receiversOk env s → injects env s s' → receiversOk env s'.
Proof.
  intros Hrec [Hex Hw] k b e l Hb Hhas Hinst.
  destruct (extends_origin s s' k b Hex Hb) as [Hb0|[_ Hno]]; [|congruence].
  destruct (Hrec k b e l Hb0 Hhas Hinst) as (n & fs & -> & Hl & Hlen).
  destruct (Hw l n fs Hl) as (fs' & Hl' & Hlen' & _).
  exists n, fs'. split_and!; [done|done|congruence].
Qed.

Lemma depsOf_has b d : d ∈ depsOf b → hasDependencies b = true.
Proof. unfold depsOf. destruct (hasDependencies b); [done|by intros ?%elem_of_nil]. Qed.

Lemma fieldHolds_injects s s' k b d :
  receiversOk env s → beans s !! k = Some b → hasDependencies b = true →
  injects env s s' → fieldHolds env s b d → fieldHolds env s' b d.
Proof.
  intros Hrec Hb Hhas [Hex Hw] (bd & Hd & Hf).
  assert (beans s' !! d = Some bd) as Hd' by (eapply lookup_weaken; [done|apply Hex]).
  exists bd. split; [done|]. intros e l i sf Hinst Hsf Hsel Hty Hne.
  destruct (Hf e l i sf Hinst Hsf Hsel Hty Hne) as (n & fs & Hl & Hi).
  destruct (Hrec k b e l Hb Hhas Hinst) as (n' & fs0 & -> & Hl0 & _).
  assert (n' = n) as -> by congruence.
  destruct (writes_keeps (beans s') (heap s) (heap s') l n fs i sf d bd) as (fs2 & ? & ?);
    eauto.
Qed.

Lemma injInv_injects s s' :
  injInv env s → injects env s.1 s'.1 → visited s'.2 = visited s.2 → injInv env s'.
Proof.
  intros [Hwf Hrec Hvis] Hinj Heq. split.
  - by eapply wf_injects.
  - by eapply receiversOk_injects.
  - intros x bx dep Hx Hbx Hdep. rewrite Heq in Hx.
    destruct (extends_origin _ _ x bx (proj1 Hinj) Hbx) as [Hb0|[_ Hno]].
    + eapply fieldHolds_injects; eauto using depsOf_has.
    + apply depsOf_has in Hdep. congruence.
Qed.

Lemma okThen_wrapErr {S A} (Q : A → S → Prop) pre (m : M S A) s :
  okThen Q (m s) → okThen Q (wrapErr pre m s).
Proof. unfold wrapErr. by destruct (m s) as [[]]. Qed.

(** One injection, for any receiver instance: a receiver that is no pointer
    is left as it is. *)
Lemma injectIntoStruct_receiver reg rb depBean chain h :
  reg !! beanID depBean = Some depBean →
  (∀ e l, instance rb = VPtr e (Some l) →
          ∃ n fs, e = TStruct n ∧ h !! l = Some (VStruct n fs)
                  ∧ length fs = length (fieldsOf env e)) →
  okThen (λ _ h',
            writes env reg h h'
            ∧ ∀ e l i sf, instance rb = VPtr e (Some l) → fieldsOf env e !! i = Some sf →
                selects (beanID depBean) sf → ftype sf = beanType depBean →
                ¬ emptyStructPointer env (beanType depBean) →
                ∃ n fs', h' !! l = Some (VStruct n fs') ∧ fs' !! i = Some (instance depBean))
         (injectIntoStruct env rb depBean chain h).
Proof.
  intros Hreg Hrec.
  destruct (instance rb) as [| | |e [l|]|n fs] eqn:Hinst.
  1-3,5: unfold injectIntoStruct; rewrite Hinst;
         by destruct (bool_decide (beanID depBean ∈ chain)).
  - destruct (Hrec e l eq_refl) as (n & fs & -> & Hl & Hlen).
    eapply okThen_mono; [|by eapply (injectIntoStruct_ok reg rb depBean chain n l fs)].
    intros _ h' [Hw Hall]. split; [done|].
    intros e' l' i sf [= <- <-] Hsf Hsel Hty Hne.
    destruct (Hall i sf Hsf Hsel Hty Hne) as (fs' & ? & ?). eauto.
  - unfold injectIntoStruct. rewrite Hinst.
    destruct (bool_decide (beanID depBean ∈ chain)); [done|].
    cbn [receiverOf]. rewrite injectField_not_addressable. simpl.
    split; [apply writes_refl|]. intros; discriminate.
Qed.

Lemma lookupDependency_injects dep rid s b s' :
  wf s → lookupDependency env dep rid s = (Ok b, s') →
  injects env s s' ∧ beans s' !! dep = Some b ∧ beanID b = dep.
Proof.
  intros Hwf Hl.
  assert (extends env s s') as Hex.
  { pose proof (lookupDependency_stable env dep rid s) as H. by rewrite Hl in H. }
  assert (heap s' = heap s) as Hh.
  { destruct (lookupDependency_cases env dep rid s)
      as [(b0 & Hb & Hr)|(Hb & [(e & Hr & _)|(lp & t & val & found & err & _ & _ & _ & _ & Hr)])];
      rewrite Hr in Hl; [by simplify_eq|done|].
    destruct err; [done|]. destruct found; [|done]. cbv zeta in Hl.
    injection Hl as _ <-. by autorewrite with state. }
  destruct (lookupDependency_ok env dep rid s b s' Hl) as (Hb & _).
  split_and!; [|done|].
  - split; [done|]. rewrite Hh. apply writes_refl.
  - eapply (wf_injects s s'); [done| |done]. split; [done|]. rewrite Hh. apply writes_refl.
Qed.

Lemma okThen_lift {S T A} (f : S → T) (Q : A → T → Prop) (r : outcome A * S) :
  okThen (λ a h, Q a (f h)) r → okThen Q (r.1, f r.2).
Proof. by destruct r as [[]]. Qed.

(** One step of the loop over the dependencies of a receiver. *)
Lemma injectDependency_ok v id bn dep s :
  (∀ x s0, injInv env s0 →
     okThen (λ _ s', injects env s0.1 s'.1 ∧ injInv env s'
                     ∧ visited s0.2 ⊆ visited s'.2 ∧ x ∈ visited s'.2) (v x s0)) →
  injInv env s → beans s.1 !! id = Some bn → hasDependencies bn = true →
  okThen (λ b s', b = bn ∧ injects env s.1 s'.1 ∧ injInv env s'
                  ∧ visited s.2 ⊆ visited s'.2 ∧ fieldHolds env s'.1 bn dep)
         (injectDependency env v id bn dep s).
Proof.
  intros Hv HI Hbn Hhas. destruct s as [s d]. simpl in Hbn.
  unfold injectDependency. apply okThen_bind. rewrite onState_run.
  destruct (lookupDependency env dep (beanID bn) s) as [[depBean| | |] s1] eqn:Hl; try done.
  cbn [fst snd okThen].
  destruct (lookupDependency_injects dep _ s depBean s1 (ii_wf _ _ HI) Hl)
    as (Hinj1 & Hdep1 & Hid).
  assert (injInv env (s1, d)) as HI1 by (by eapply (injInv_injects (s, d))).
  apply okThen_bind. eapply okThen_mono; [|by apply Hv].
  intros _ [s2 d2] (Hinj2 & HI2 & Hvis & _). cbn [fst snd] in *.
  destruct (isNil (instance depBean)); [done|].
  apply okThen_bind. cbn [get okThen]. apply okThen_bind.
  rewrite onState_run, onHeap_run. cbn [fst snd].
  assert (injects env s s2) as Hinj02 by (by eapply injects_trans).
  assert (beans s2 !! id = Some bn) as Hbn2.
  { eapply lookup_weaken; [exact Hbn|apply Hinj02]. }
  assert (beans s2 !! dep = Some depBean) as Hdep2.
  { eapply lookup_weaken; [exact Hdep1|apply Hinj2]. }
  pose proof (injectIntoStruct_receiver (beans s2) bn depBean (path d2) (heap s2)) as Hstep.
  rewrite Hid in Hstep. specialize (Hstep Hdep2).
  apply (okThen_lift (λ h, (setHeap h s2, d2))).
  eapply okThen_mono; [|apply okThen_wrapErr, Hstep].
  - intros _ h3 [Hw Hall]. apply okThen_bind. cbn [get okThen fst snd].
    unfold ret. cbn [okThen fst snd]. autorewrite with state.
    assert (injects env s2 (setHeap h3 s2)) as Hinj3 by (by apply injects_setHeap).
    split_and!.
    + by apply lookup_total_correct.
    + by eapply injects_trans.
    + by eapply (injInv_injects (s2, d2)).
    + done.
    + exists depBean. autorewrite with state. split; [done|].
      intros e l i sf Hinst Hsf Hsel Hty Hne. by eapply Hall.
  - intros e l Hinst. exact (ii_receivers _ _ HI2 id bn e l Hbn2 Hhas Hinst).
Qed.

(** The traversal from one node: when it returns normally the node is left,
    and every node left holds its dependencies. *)
Lemma visit_ok fuel : ∀ id s,
  injInv env s →
  okThen (λ _ s', injects env s.1 s'.1 ∧ injInv env s'
                  ∧ visited s.2 ⊆ visited s'.2 ∧ id ∈ visited s'.2)
         (visit env fuel id s).
Proof.
  induction fuel as [|fuel IH]; intros id [s d] HI; [done|].
  cbn [visit]. apply okThen_bind. cbn [get okThen fst snd].
  destruct (beans s !! id) as [bn|] eqn:Hbn; [|done].
  destruct (decide (id ∈ onPath d)); [done|].
  destruct (decide (id ∈ visited d)) as [Hin|Hnot].
  { cbn. split_and!; [apply injects_refl|done|done|done]. }
  apply okThen_bind. unfold enterNode, modify. cbn [okThen fst snd].
  set (d1 := mkDfs (visited d) ({[id]} ∪ onPath d) (path d ++ [id])).
  assert (injInv env (s, d1)) as HI1.
  { eapply (injInv_injects (s, d)); [done|apply injects_refl|done]. }
  apply okThen_bind.
  assert (okThen (λ _ s1, injects env s s1.1 ∧ injInv env s1 ∧ visited d ⊆ visited s1.2
                          ∧ ∀ dep, dep ∈ depsOf bn → fieldHolds env s1.1 bn dep)
                 ((if hasDependencies bn
                   then if isNil (instance bn)
                        then throw ("injectDependencies: receiver bean '" +:+ beanID bn
                                    +:+ "' is nil")
                        else foldM (injectDependency env (visit env fuel) id) bn
                                   (dependencies bn);; ret tt
                   else ret tt) (s, d1))) as Hbody.
  { destruct (hasDependencies bn) eqn:Hhas.
    2:{ cbn. split_and!; [apply injects_refl|done|done|].
        intros dep Hdep. apply depsOf_has in Hdep. congruence. }
    destruct (isNil (instance bn)); [done|]. apply okThen_bind.
    eapply okThen_mono;
      [|apply (okThen_foldM_prefix _
                 (λ done b s1, b = bn ∧ injects env s s1.1 ∧ injInv env s1
                               ∧ visited d ⊆ visited s1.2
                               ∧ ∀ dep, dep ∈ done → fieldHolds env s1.1 bn dep))].
    - intros b s1 (-> & Hinj & HIs & Hvis & Hall). cbn. split_and!; try done.
      intros dep Hdep. apply Hall. unfold depsOf in Hdep. by rewrite Hhas in Hdep.
    - intros done dep rest b [s1 d'] _ (-> & Hinj & HIs & Hvis & Hall). cbn [fst snd] in *.
      assert (beans s1 !! id = Some bn) as Hbn1.
      { eapply lookup_weaken; [exact Hbn|apply Hinj]. }
      eapply okThen_mono; [|by apply (injectDependency_ok _ id bn dep (s1, d'))].
      intros b' [s2 d2] (-> & Hinj2 & HI2 & Hvis2 & Hnew). cbn [fst snd] in *.
      split_and!; [done|by eapply injects_trans|done|set_solver|].
      intros dep' [Hold| ->%list_elem_of_singleton]%elem_of_app; [|done].
      eapply fieldHolds_injects; [apply HIs|exact Hbn1|done|done|by apply Hall].
    - cbn [fst snd]. split_and!; [done|apply injects_refl|done|done|].
      by intros dep ?%elem_of_nil. }
  eapply okThen_mono; [|exact Hbody].
  intros _ [s1 d'] (Hinj & HIs & Hvis & Hall). cbn [fst snd] in *.
  unfold leaveNode, modify. cbn [okThen fst snd visited].
  split_and!; [done| |set_solver|set_solver].
  destruct HIs as [Hwf Hrec Hvh]. split; [done|done|].
  intros x bx dep Hx Hbx Hdep. cbn [fst snd visited] in *.
  apply elem_of_union in Hx as [ ->%elem_of_singleton|Hx]; [|by eapply Hvh].
  assert (beans s1 !! id = Some bn) as Hbn1.
  { eapply lookup_weaken; [exact Hbn|apply Hinj]. }
  assert (bx = bn) as -> by congruence. by apply Hall.
Qed.

(** The injection phase: when it returns normally, every registered
    receiver holds its dependencies. *)
Lemma injectDependencies_ok prio s :
  wf s → receiversOk env s →
  okThen (λ _ s', injects env s s' ∧ wf s' ∧ receiversOk env s'
                  ∧ ∀ k b d, beans s' !! k = Some b → d ∈ depsOf b → fieldHolds env s' b d)
         (injectDependencies env prio s).
Proof.
  intros Hwf Hrec. unfold injectDependencies.
  set (Inv := λ (done : list string) (s1 : State * Dfs),
         injects env s s1.1 ∧ injInv env s1 ∧ ∀ x, x ∈ done → x ∈ visited s1.2).
  assert (okThen (λ _ s1, Inv (rangeKeys prio (beans s)) s1)
                 (forM (rangeKeys prio (beans s)) (visit env (S (size (beans s))))
                       (s, mkDfs ∅ ∅ []))) as Hloop.
  { apply (okThen_forM_prefix _ Inv).
    - intros done x rest [s1 d1] _ (Hinj & HI & Hall).
      eapply okThen_mono; [|by apply visit_ok].
      intros _ [s2 d2] (Hinj2 & HI2 & Hvis & Hx). cbn [fst snd] in *.
      split_and!; [by eapply injects_trans|done|].
      intros y [Hy| ->%list_elem_of_singleton]%elem_of_app; [|done].
      apply Hvis. by apply Hall.
    - split_and!; [apply injects_refl| |by intros x ?%elem_of_nil].
      split; [done|done|]. intros x bx dep Hx. by apply elem_of_empty in Hx. }
  destruct (forM _ _ _) as [[[]| | |] [s' d']]; try done.
  cbn [okThen fst snd] in *. destruct Hloop as (Hinj & [Hwf' Hrec' Hvh] & Hall).
  cbn [fst snd] in *. split_and!; [done|done|done|].
  intros k b dep Hb Hdep.
  destruct (extends_origin _ _ k b (proj1 Hinj) Hb) as [Hb0|[_ Hno]].
  - apply (Hvh k b dep); [|done|done]. apply Hall, elem_of_rangeKeys. by rewrite Hb0.
  - apply depsOf_has in Hdep. congruence.
Qed.

(** ** The instances a build creates, and what the initializers leave *)

Lemma zeroValue_struct n :
  ∃ fs, zeroValue env (TStruct n) = VStruct n fs
        ∧ length fs = length (fieldsOf env (TStruct n)).
Proof.
  unfold zeroValue. cbn [fieldsOf].
  destruct (length (envDecls env)) as [|m] eqn:Hlen.
  - apply nil_length_inv in Hlen. rewrite Hlen. by exists [].
  - cbn [zeroFuel]. eexists. split; [reflexivity|]. by rewrite length_map.
Qed.

Lemma instantiateBean_receivers k s :
  wf s → receiversOk env s → receiversOk env (instantiateBean env k s).2.
Proof.
  intros Hwf Hrec. unfold instantiateBean, bind, get.
  destruct (beans s !! k) as [bn|] eqn:Hk; [|done].
  destruct (isNil (instance bn)) eqn:Hnil; simpl; [|done].
  destruct (isPtrToStruct (beanType bn)) eqn:Hpts; [|done].
  destruct (beanType bn) as [| | | |e] eqn:Ht; try discriminate.
  unfold onHeap, zoom, createInstance, reflectNew, bind, alloc, ret, storeBean, modify.
  cbn [fst snd beanID].
  intros k' b e' l. autorewrite with state.
  intros [[<- <-]|[Hne Hb]]%lookup_insert_Some Hhas Hinst.
  - cbn [instance] in Hinst. injection Hinst as <- <-.
    destruct e as [| |n| |]; try discriminate.
    destruct (zeroValue_struct n) as (fs & Hz & Hlen).
    exists n, fs. split_and!; [done| |done].
    rewrite <- Hz. apply list_lookup_middle. done.
  - destruct (Hrec k' b e' l Hb Hhas Hinst) as (n & fs & -> & Hl & Hlen).
    exists n, fs. split_and!; [done|by apply lookup_app_l_Some|done].
Qed.

Lemma instantiate_receivers prio s s1 :
  wf s → receiversOk env s → instantiate env prio s = (Ok tt, s1) → receiversOk env s1.
Proof.
  intros Hwf Hrec. unfold instantiate, bind, get.
  generalize (rangeKeys prio (beans s)). intros l. revert s Hwf Hrec.
  induction l as [|k l IH]; intros s Hwf Hrec; [by intros [= <-]|].
  rewrite forM_cons. unfold bind.
  pose proof (instantiateBean_receivers k s Hwf Hrec) as Hrec1.
  destruct (instantiateBean_spec env k s) as (s0 & Hrun & Hc & _). rewrite Hrun in *.
  apply IH; [by apply (cr_wf _ _ Hc)|done].
Qed.

Lemma forM_runInitializer_heap l : ∀ s o s',
  initializersKeepHeap env → forM l (runInitializer env) s = (o, s') → heap s' = heap s.
Proof.
  induction l as [|id l IH]; intros s o s' Hkeep; [by intros [= _ <-]|].
  rewrite forM_cons. unfold bind.
  assert (heap (runInitializer env id s).2 = heap s) as Hstep.
  { unfold runInitializer. destruct (isNil (instance (beans s !!! id))); [done|].
    destruct (typeOf (instance (beans s !!! id))) as [t|] eqn:Ht; [|done]. cbn [mbind option_bind].
    destruct (envInitializerOf env t) as [f|] eqn:Hf; [|done].
    pose proof (Hkeep t f (instance (beans s !!! id)) (heap s) Hf) as Hh.
    destruct (f (instance (beans s !!! id)) (heap s)) as [[e|] h]; simpl in *;
      by autorewrite with state. }
  destruct (runInitializer env id s) as [[[]|e|e|] s1]; simpl in Hstep.
  - intros Hrun. rewrite <- Hstep. by eapply IH.
  - by intros [= _ <-].
  - by intros [= _ <-].
  - by intros [= _ <-].
Qed.

(** A build that succeeds leaves every receiver with its dependencies. *)
Lemma Build_Ok_fieldHolds sch s s' :
  wf s → receiversOk env s → initializersKeepHeap env → built (cont s) = false →
  Build env sch s = (Ok tt, s') →
  ∀ k b d, beans s' !! k = Some b → d ∈ depsOf b → fieldHolds env s' b d.
Proof.
  intros Hwf Hrec Hkeep Hb HB.
  destruct (Build_open env sch s _ _ Hb HB) as (s3 & Hrun & ->).
  inversion Hrun as [| | | |s1 s2 l o s3' Hv Hi Hj Ho Hr]; subst.
  pose proof (instantiate_receivers _ _ _ Hwf Hrec Hi) as Hrec1.
  destruct (created_instantiated env s s1 _ Hwf Hi) as [Hcr _].
  pose proof (injectDependencies_ok (prioInject sch) s1 (cr_wf _ _ Hcr Hwf) Hrec1) as Hok.
  rewrite Hj in Hok. destruct Hok as (_ & _ & _ & Hall).
  pose proof (forM_runInitializer_heap _ _ _ _ Hkeep Hr) as Hheap.
  pose proof (forM_runInitializer env l s2) as Hc. rewrite Hr in Hc. destruct Hc as (Hc & _).
  assert (beans s3 = beans s2) as Hbeans by (unfold beans; by rewrite Hc).
  intros k b d. autorewrite with state. rewrite Hbeans. intros Hk Hd.
  destruct (Hall k b d Hk Hd) as (bd & Hbd & Hf).
  exists bd. autorewrite with state. rewrite Hbeans, Hheap. done.
Qed.

(** ** Every descriptor the traversal adds was asked from the provider *)

#[local] Instance asks_preorder : PreOrder (asks env).
Proof.
  split.
  - intros s. split; [reflexivity|]. intros k b Hb Hn. congruence.
  - intros s1 s2 s3 [He1 Hq1] [He2 Hq2]. split; [by etrans|].
    intros k b Hb3 Hn1. rewrite (newCalls_trans env s1 s2 s3 He1 He2).
    apply elem_of_app. destruct (beans s2 !! k) as [b2|] eqn:Hb2.
    + left. pose proof (lookup_weaken _ _ _ _ Hb2 (ext_beans _ _ _ He2)) as Hb3'.
      assert (b2 = b) as -> by congruence. by apply Hq1.
    + right. by apply Hq2.
Qed.

#[local] Instance asksD_preorder : PreOrder (asksD env).
Proof.
  split.
  - intros s. unfold asksD. reflexivity.
  - intros s1 s2 s3. unfold asksD. apply transitivity.
Qed.

Lemma asks_same s s' :
  extends env s s' → beans s' = beans s → asks env s s'.
Proof. intros Hex Hb. split; [done|]. intros k b Hk Hn. rewrite Hb in Hk. congruence. Qed.

Lemma lookupDependency_asks dep rid : stable (asks env) (lookupDependency env dep rid).
Proof.
  intros s. pose proof (lookupDependency_stable env dep rid s) as Hex.
  destruct (lookupDependency_cases env dep rid s)
    as [(b & Hb & Hr)|(Hb & [(e & Hr & _)|(lp & t & val & found & err & _ & _ & _ & _ & Hr)])];
    rewrite Hr in *; cbn [snd] in *; try reflexivity.
  destruct err; cbn [snd] in *; [by apply asks_same|].
  destruct found; cbn [snd] in *; [|by apply asks_same].
  split; [done|]. intros k b. autorewrite with state.
  intros [[<- <-]|[_ Hk]]%lookup_insert_Some Hn; [|congruence].
  unfold newCalls. autorewrite with state. rewrite drop_app_length. by left.
Qed.

Lemma asks_onState {A} (m : M State A) : stable (asks env) m → stable (asksD env) (onState m).
Proof.
  intros H [s d]. unfold onState, zoom, asksD. simpl.
  specialize (H s). by destruct (m s).
Qed.

Lemma asks_onHeap {A} (m : M Heap A) : stable (asks env) (onHeap m).
Proof.
  intros s. rewrite onHeap_run. cbn [snd]. apply asks_same; [apply extends_setHeap|done].
Qed.

Lemma visit_asks fuel id : stable (asksD env) (visit env fuel id).
Proof.
  revert id. induction fuel as [|fuel IH]; intros id.
  - intros s. simpl. reflexivity.
  - simpl. apply stable_bind; [apply _|apply stable_get, _|]. intros s.
    destruct (beans s.1 !! id) as [bn|]; [|apply stable_throw, _].
    destruct (decide (id ∈ onPath s.2)); [apply stable_throw, _|].
    destruct (decide (id ∈ visited s.2)); [apply stable_ret, _|].
    apply stable_bind; [apply _|apply stable_modify; intros s0; unfold asksD; reflexivity|].
    intros _. apply stable_bind; [apply _| |].
    + destruct (hasDependencies bn); [|apply stable_ret, _].
      destruct (isNil (instance bn)); [apply stable_throw, _|].
      apply stable_bind; [apply _| |intros; apply stable_ret, _].
      apply stable_foldM; [apply _|]. intros b x. unfold injectDependency.
      apply stable_bind; [apply _|apply asks_onState, lookupDependency_asks|].
      intros depBean. apply stable_bind; [apply _|apply IH|]. intros _.
      destruct (isNil (instance depBean)); [apply stable_throw, _|].
      apply stable_bind; [apply _|apply stable_get, _|]. intros s1.
      apply stable_bind; [apply _|apply asks_onState, asks_onHeap|]. intros _.
      apply stable_bind; [apply _|apply stable_get, _|]. intros s'.
      apply stable_ret, _.
    + intros _. apply stable_modify. intros s0. unfold asksD. reflexivity.
Qed.

Lemma injectDependencies_asks prio : stable (asks env) (injectDependencies env prio).
Proof.
  intros s. unfold injectDependencies.
  pose proof (stable_forM (asksD env) (visit env (S (size (beans s))))
                (rangeKeys prio (beans s)) (λ x, visit_asks _ x) (s, mkDfs ∅ ∅ [])) as H.
  destruct (forM _ _ _) as [o [s' d]]. exact H.
Qed.

(** ** A value the provider found that is nil *)

Lemma always_mono {S A} (Q Q' : A → S → Prop) (E E' : failure → S → Prop) r :
  (∀ a s, Q a s → Q' a s) → (∀ e s, E e s → E' e s) → always Q E r → always Q' E' r.
Proof. destruct r as [[]]; simpl; auto. Qed.

Lemma always_bind {S A B} (m : M S A) (k : A → M S B) (Q : B → S → Prop) E s :
  always (λ a s1, always Q E (k a s1)) E (m s) → always Q E (bind m k s).
Proof. unfold bind. destruct (m s) as [[]]; simpl; auto. Qed.

Lemma always_foldM {S A B} (body : B → A → M S B) (I : B → S → Prop) E l :
  (∀ b x s, I b s → always I E (body b x s)) →
  ∀ b s, I b s → always I E (foldM body b l s).
Proof.
  intros Hbody. induction l as [|x l IH]; intros b s HI; simpl; [exact HI|].
  apply always_bind. eapply always_mono; [| |by apply Hbody]; [|auto].
  intros b' s' HI'. by apply IH.
Qed.

Lemma always_forM {S A} (body : A → M S unit) (I : S → Prop) E l :
  (∀ x s, I s → always (λ _, I) E (body x s)) →
  ∀ s, I s → always (λ _, I) E (forM l body s).
Proof.
  intros Hbody s HI. unfold forM.
  apply (always_foldM (λ _ x, body x) (λ _, I)); [|done]. intros _ x s0. apply Hbody.
Qed.

Lemma nilFail_vacuous s0 s f : noNilNew s0 s → nilFail s0 f s.
Proof. intros H k b Hb Hn Hnil. rewrite (H k b Hb Hn) in Hnil. done. Qed.

Lemma nilPre_same s0 s s' :
  nilPre s0 s → beans s'.1 = beans s.1 →
  (∀ x, x ∈ onPath s'.2 → x ∈ onPath s.2 ∨ is_Some (beans s.1 !! x)) → nilPre s0 s'.
Proof.
  intros [Hb Hn Hp] Heq Hpath. split.
  - by rewrite Heq.
  - unfold noNilNew. by rewrite Heq.
  - intros x Hx. rewrite Heq. destruct (Hpath x Hx); auto.
Qed.

(** The traversal from a node that is registered without dependencies and
    is not on the path leaves the registry and the heap as they are. *)
Lemma visit_leaf fuel id s b :
  beans s.1 !! id = Some b → hasDependencies b = false → id ∉ onPath s.2 →
  (visit env fuel id s).1 = OutOfFuel ∨ ∃ d', visit env fuel id s = (Ok tt, (s.1, d')).
Proof.
  destruct s as [s d]. cbn [fst snd]. intros Hb Hhas Hpath.
  destruct fuel as [|fuel]; [by left|]. right.
  cbn [visit]. unfold bind at 1. cbn [get fst snd]. rewrite Hb.
  destruct (decide (id ∈ onPath d)); [done|].
  destruct (decide (id ∈ visited d)); [by eexists|].
  rewrite Hhas. unfold bind, enterNode, leaveNode, modify, ret. cbn. by eexists.
Qed.

Lemma injectDependency_nil s0 v id bn dep s :
  (∀ x s1, nilPre s0 s1 →
     always (λ _ s', nilPre s0 s' ∧ onPath s'.2 = onPath s1.2)
            (λ f s', nilFail s0 f s'.1) (v x s1)) →
  (∀ x s1 b, beans s1.1 !! x = Some b → hasDependencies b = false → x ∉ onPath s1.2 →
     (v x s1).1 = OutOfFuel ∨ ∃ d', v x s1 = (Ok tt, (s1.1, d'))) →
  nilPre s0 s →
  always (λ _ s', nilPre s0 s' ∧ onPath s'.2 = onPath s.2) (λ f s', nilFail s0 f s'.1)
         (injectDependency env v id bn dep s).
Proof.
  intros Hv Hleaf HP. destruct s as [s d].
  destruct (lookupDependency env dep (beanID bn) s) as [o s1] eqn:Hl.
  assert (match o with
          | Ok depBean =>
              nilPre s0 (s1, d)
              ∨ (isNil (instance depBean) = true ∧ hasDependencies depBean = false
                 ∧ beans s !! dep = None ∧ beans s1 = <[dep := depBean]> (beans s))
          | _ => beans s1 = beans s
          end) as Hcases.
  { destruct (lookupDependency_cases env dep (beanID bn) s)
      as [(b & Hb & Hr)|(Hb & [(e & Hr & _)|(lp & t & val & found & err & _ & _ & _ & _ & Hr)])];
      rewrite Hr in Hl.
    - injection Hl as <- <-. by left.
    - by injection Hl as <- <-.
    - destruct err; [by injection Hl as <- <-|].
      destruct found; [|by injection Hl as <- <-]. cbv zeta in Hl. injection Hl as <- <-.
      destruct (isNil val) eqn:Hnil.
      + right. autorewrite with state. by split_and!.
      + left. destruct HP as [Hsub Hnew Hpath]. cbn [fst snd] in *. split; cbn [fst snd].
        * autorewrite with state. etrans; [exact Hsub|]. by apply insert_subseteq.
        * intros k b. autorewrite with state.
          intros [[<- <-]|[_ Hk]]%lookup_insert_Some Hn; [done|by eapply Hnew].
        * intros x Hx. autorewrite with state. apply lookup_insert_is_Some'.
          right. by apply Hpath. }
  unfold injectDependency. apply always_bind. rewrite onState_run, Hl. cbn [fst snd].
  destruct o as [depBean|e|e|]; cbn [always].
  2,3: apply nilFail_vacuous; unfold noNilNew; cbn [fst]; rewrite Hcases; apply HP.
  2: done.
  destruct Hcases as [HP1|(Hnil & Hhas & Hnone & Hb1)].
  - apply always_bind. eapply always_mono; [| |by apply Hv]; [|done].
    intros _ [s2 d2] [HP2 Hpath2]. cbn [fst snd] in *.
    destruct (isNil (instance depBean)).
    { cbn. apply nilFail_vacuous, HP2. }
    apply always_bind. cbn [get always]. apply always_bind.
    rewrite onState_run, onHeap_run. cbn [fst snd].
    assert (nilPre s0 (setHeap (wrapErr "injectDependencies: "
                                  (injectIntoStruct env bn depBean (path d2)) (heap s2)).2 s2, d2))
      as HP3.
    { eapply (nilPre_same s0 (s2, d2)); [done|by autorewrite with state|by left]. }
    destruct (wrapErr _ _ _) as [[[]|e|e|] h3]; cbn [fst snd always] in *.
    + apply always_bind. cbn. done.
    + apply nilFail_vacuous, HP3.
    + apply nilFail_vacuous, HP3.
    + done.
  - assert (dep ∉ onPath d) as Hnp.
    { intros Hin. destruct (np_path _ _ HP dep Hin) as [b Hb]. cbn in Hb. congruence. }
    assert (beans s1 !! dep = Some depBean) as Hdep by (by rewrite Hb1, lookup_insert_eq).
    apply always_bind.
    destruct (Hleaf dep (s1, d) depBean Hdep Hhas Hnp) as [Hof|(d' & Hrun)].
    + destruct (v dep (s1, d)) as [o st]. cbn in Hof. by subst.
    + rewrite Hrun. cbn [always fst snd]. rewrite Hnil. cbn.
      intros k b. rewrite Hb1.
      intros [[<- <-]|[_ Hk]]%lookup_insert_Some Hn Hnilb; [by exists (beanID bn)|].
      rewrite (np_new _ _ HP k b Hk Hn) in Hnilb. done.
Qed.

Lemma visit_nil s0 fuel : ∀ id s,
  nilPre s0 s →
  always (λ _ s', nilPre s0 s' ∧ onPath s'.2 = onPath s.2) (λ f s', nilFail s0 f s'.1)
         (visit env fuel id s).
Proof.
  induction fuel as [|fuel IH]; intros id [s d] HP; [done|].
  cbn [visit]. apply always_bind. cbn [get always fst snd].
  destruct (beans s !! id) as [bn|] eqn:Hbn; [|apply nilFail_vacuous, HP].
  destruct (decide (id ∈ onPath d)); [apply nilFail_vacuous, HP|].
  destruct (decide (id ∈ visited d)); [by cbn|].
  apply always_bind. unfold enterNode, modify. cbn [always fst snd].
  set (d1 := mkDfs (visited d) ({[id]} ∪ onPath d) (path d ++ [id])).
  assert (nilPre s0 (s, d1)) as HP1.
  { eapply (nilPre_same s0 (s, d)); [done|done|]. intros x Hx. cbn in Hx. cbn [fst snd].
    apply elem_of_union in Hx as [ ->%elem_of_singleton|Hx]; [right; by rewrite Hbn|by left]. }
  apply always_bind.
  eapply (always_mono (λ _ s1, nilPre s0 s1 ∧ onPath s1.2 = onPath d1)); [| |].
  - intros _ [s1 d'] [HPs Hpath]. unfold leaveNode, modify. cbn [always fst snd] in *. split.
    + eapply (nilPre_same s0 (s1, d')); [done|done|]. intros x Hx. left. cbn in Hx. set_solver.
    + cbn. rewrite Hpath. cbn. set_solver.
  - intros f s1 H. exact H.
  - destruct (hasDependencies bn); [|by cbn].
    destruct (isNil (instance bn)); [apply nilFail_vacuous, HP|].
    apply always_bind.
    eapply always_mono;
      [| |apply (always_foldM _ (λ _ s1, nilPre s0 s1 ∧ onPath s1.2 = onPath d1))].
    + intros b s1 H. by cbn.
    + intros f s1 H. exact H.
    + intros b x s1 [HPs Hpath].
      eapply always_mono; [| |apply injectDependency_nil; [apply IH| |exact HPs]].
      * intros _ s2 [? ?]. split; [done|congruence].
      * intros f s2 H. exact H.
      * intros y s2 b0. apply visit_leaf.
    + done.
Qed.

(** A failure of the injection phase in which the provider found a value that
    is nil, for an identifier that was not registered, is the error that
    names this identifier. *)
Lemma injectDependencies_nil prio s :
  always (λ _ s', noNilNew s s') (λ f s', nilFail s f s') (injectDependencies env prio s).
Proof.
  unfold injectDependencies.
  assert (nilPre s (s, mkDfs ∅ ∅ [])) as HP0.
  { split; cbn; [done|apply noNilNew_refl|]. intros x Hx. by apply elem_of_empty in Hx. }
  pose proof (always_forM (visit env (S (size (beans s)))) (nilPre s)
                (λ f s', nilFail s f s'.1) (rangeKeys prio (beans s))) as Hloop.
  assert (always (λ _, nilPre s) (λ f s', nilFail s f s'.1)
                 (forM (rangeKeys prio (beans s)) (visit env (S (size (beans s))))
                       (s, mkDfs ∅ ∅ []))) as H.
  { apply Hloop; [|done]. intros x s1 HP1.
    eapply always_mono; [| |by apply visit_nil]; [by intros _ s2 [? _]|done]. }
  destruct (forM _ _ _) as [[[]|e|e|] [s' d']]; cbn in *; [apply H|done..].
Qed.

(** ** Claims about the literal provider *)

(** C4. A dependency that is registered is returned by the lookup as it is,
    without a call to the provider.  For a dependency that is not
    registered, whose expected type is a string type, with a provider
    installed, the lookup calls the provider with the identifier and the
    expected type: an error of the provider is returned wrapped, not found
    gives the missing-dependency error, and a value found gives a descriptor
    that holds it.  Every call made to the provider during a [Build] is of
    this kind; when the provider answers with an error, [Build] returns this
    error wrapped; when it answers not found, [Build] returns the
    missing-dependency error; when it answers with a value, a descriptor
    holding the value is stored under the identifier, and if the value is nil
    [Build] returns the error that the dependency is not instantiated.  When
    [Build] succeeds, the provider was called for every dependency of a
    registered descriptor that was not registered, and it found a value that
    is not nil; if moreover the instances given for the receivers designate
    structs of their types and the initializers leave the heap as it is, the
    exported fields of the receiver that are annotated with the identifier
    and have the expected type hold this value. *)
Theorem literal_provider_protocol sch s o s' :
  wf s → built (cont s) = false → Build env sch s = (o, s') →
  (∀ dep rid st b, beans st !! dep = Some b →
                   lookupDependency env dep rid st = (Ok b, st))
  ∧ (∀ dep rid st t lp,
       beans st !! dep = None → required st !! dep = Some t → kind t = KString →
       envProvider env = Some lp →
       providerCalls (lookupDependency env dep rid st).2 = providerCalls st ++ [(dep, t)]
       ∧ (lookupDependency env dep rid st).1
         = match lp dep t with
           | (v, found, Some pe) => Err (providerError dep pe)
           | (v, found, None) =>
               if found then Ok (mkBean dep t v false false [])
               else Err (depNotFound dep rid)
           end)
  ∧ (∀ c, c ∈ newCalls s s' →
       beans s !! c.1 = None ∧ required s !! c.1 = Some c.2 ∧ kind c.2 = KString
       ∧ ∃ v f err,
           callOutcome env c = Some (v, f, err)
           ∧ match err with
             | Some pe => o = Err (providerError c.1 pe)
             | None =>
                 if f then
                   beans s' !! c.1 = Some (mkBean c.1 c.2 v false false [])
                   ∧ (isNil v = true → ∃ rid, o = Err (notInstantiated c.1 rid))
                 else ∃ rid, o = Err (depNotFound c.1 rid)
             end)
  ∧ (o = Ok tt →
     ∀ k b d, beans s !! k = Some b → d ∈ depsOf b → beans s !! d = None →
       ∃ t v,
         (d, t) ∈ newCalls s s' ∧ callOutcome env (d, t) = Some (v, true, None)
         ∧ isNil v = false
         ∧ beans s' !! d = Some (mkBean d t v false false [])
         ∧ (receiversOk env s → initializersKeepHeap env →
            ∀ b' e l i sf,
              beans s' !! k = Some b' → instance b' = VPtr e (Some l) →
              fieldsOf env e !! i = Some sf → selects d sf → ftype sf = t →
              ∃ n fs, heap s' !! l = Some (VStruct n fs) ∧ fs !! i = Some v)).
Proof.
  intros Hwf Hb HB. split.
  { intros dep rid st b Hdep. unfold lookupDependency. by rewrite Hdep. }
  split.
  { intros dep rid st t lp Hnone Hreq Hk Hlp.
    unfold lookupDependency, loadLiteralProvider. rewrite Hnone, Hreq, Hlp.
    destruct (decide (kind t = KString)); [|done].
    destruct (lp dep t) as [[v f] [pe|]]; [|destruct f]; cbn [fst snd];
      (split; [by autorewrite with state|done]). }
  destruct (Build_open env sch s _ _ Hb HB) as (s3 & Hrun & Hs').
  assert (providerCalls s' = providerCalls s3 ∧ beans s' = beans s3 ∧ heap s' = heap s3)
    as (Hpc' & Hbeans' & Hheap').
  { rewrite Hs'. by destruct o. }
  assert (newCalls s s' = newCalls s s3) as Hnc' by (unfold newCalls; by rewrite Hpc').
  rewrite Hnc', Hbeans', Hheap'. clear Hs' Hpc' Hnc'.
  destruct (BuildRun_phases env _ _ _ _ Hrun)
    as [(-> & e' & He & Hv)|(s1 & oi & s2 & Hv & Hi & Hj & Hoi & Hc & Hpc)].
  { split.
    - intros c Hin. rewrite newCalls_refl in Hin. by apply elem_of_nil in Hin.
    - intros Ho. congruence. }
  destruct (created_instantiated env s s1 _ Hwf Hi) as [Hcr Hall].
  pose proof (injectDependencies_extends env _ _ _ _ Hj) as Hex.
  assert (beans s3 = beans s2) as Hbeans by (unfold beans; by rewrite Hc).
  assert (newCalls s s3 = newCalls s1 s2) as Hnc.
  { unfold newCalls. by rewrite Hpc, (cr_calls _ _ Hcr). }
  rewrite Hnc, Hbeans.
  pose proof (injectDependencies_good env (prioInject sch) s1) as Hg. rewrite Hj in Hg.
  pose proof (injectDependencies_nil (prioInject sch) s1) as Hn. rewrite Hj in Hn.
  split.
  - intros c Hin.
    destruct (ext_calls _ _ _ Hex) as (new & Hnew & Hcalls).
    assert (newCalls s1 s2 = new) as Hn2.
    { unfold newCalls. rewrite Hnew. by rewrite drop_app_length. }
    rewrite Forall_forall in Hcalls. rewrite <- Hn2 in Hcalls.
    destruct (Hcalls c Hin) as (Hc1 & Hc2 & Hc3 & lp & Hlp & Hfound).
    split_and!.
    { destruct (beans s !! c.1) as [b0|] eqn:Hb0; [|done].
      destruct (cr_kept _ _ Hcr Hwf _ _ Hb0) as (b1 & Hb1 & _). congruence. }
    { by rewrite <- (cr_required _ _ Hcr). }
    { done. }
    assert (Hfok : foundOk env c →
              ∃ v f err, callOutcome env c = Some (v, f, err)
                ∧ match err with
                  | Some pe => o = Err (providerError c.1 pe)
                  | None =>
                      if f then
                        beans s2 !! c.1 = Some (mkBean c.1 c.2 v false false [])
                        ∧ (isNil v = true → ∃ rid, o = Err (notInstantiated c.1 rid))
                      else ∃ rid, o = Err (depNotFound c.1 rid)
                  end).
    { intros [v Hout]. exists v, true, None. split; [done|].
      assert (lp c.1 c.2 = (v, true, None)) as Hlpc.
      { unfold callOutcome in Hout. rewrite Hlp in Hout. by simplify_eq. }
      pose proof (Hfound v Hlpc) as Hstored. split; [done|]. intros Hnil.
      destruct oi as [[]|e|e|]; cbn [always good] in Hn, Hg; [| | |done].
      - pose proof (Hn _ _ Hstored Hc1) as Hnn. cbn in Hnn. congruence.
      - destruct (Hn _ _ Hstored Hc1 Hnil) as [rid [= ->]].
        exists rid. by rewrite (Hoi eq_refl).
      - by destruct (Hn _ _ Hstored Hc1 Hnil) as [rid ?]. }
    destruct oi as [[]|e|e|]; simpl in Hg; unfold injectFail, callsFailed in Hg.
    + destruct Hg as [_ Hok]. rewrite Forall_forall in Hok. by apply Hfok, Hok.
    + destruct Hg as [_ [Hok|(l & c0 & Hl & Hok & Hfail)]].
      * rewrite Forall_forall in Hok. by apply Hfok, Hok.
      * rewrite Hl in Hin. apply elem_of_app in Hin as [Hin|Hin].
        -- rewrite Forall_forall in Hok. by apply Hfok, Hok.
        -- apply list_elem_of_singleton in Hin as ->.
           destruct Hfail as (v & f & err & Hout & Hm). exists v, f, err. split; [done|].
           rewrite (Hoi eq_refl). destruct err as [pe|]; [by rewrite Hm|].
           destruct Hm as [-> [rid ->]]. eauto.
    + destruct Hg as [_ Hok]. rewrite Forall_forall in Hok. by apply Hfok, Hok.
    + done.
  - intros -> k b d Hk Hd Hnone.
    destruct oi as [[]|e|e|]; [|by specialize (Hoi eq_refl)..].
    cbn [always] in Hn.
    destruct (cr_kept _ _ Hcr Hwf k b Hk) as (b1 & Hk1 & Hinst).
    assert (depsOf b1 = depsOf b) as Hdeps.
    { destruct Hinst as [->|(_ & _ & e & l & _ & ->)]; done. }
    pose proof (lookup_weaken _ _ _ _ Hk1 (ext_beans _ _ _ Hex)) as Hk2.
    pose proof (cr_dom _ _ Hcr Hwf d Hnone) as Hnone1.
    assert (is_Some (beans s2 !! d)) as [bd Hbd].
    { inversion Hrun as [| | | |s1' s2' l o' s3' Hv' Hi' Hj' Ho Hr]; subst.
      assert (s1' = s1) as -> by congruence. assert (s2' = s2) as -> by congruence.
      pose proof (initializerOrder_spec (prioInit sch) s2) as Hord. rewrite Ho in Hord.
      destruct Hord as (_ & Htopo & _ & Hdom).
      assert (k ∈ l) as [i Hi0]%list_elem_of_lookup by (apply Hdom; by rewrite Hk2).
      destruct (Htopo i k d Hi0) as (j & _ & Hj0).
      { rewrite (lookup_total_correct _ _ _ Hk2). by rewrite Hdeps. }
      apply Hdom. by eapply list_elem_of_lookup_2. }
    destruct (ext_new _ _ _ Hex d bd Hbd Hnone1) as (lp & t & v & Hlp & Hreq & Hkind & Hcall & ->).
    exists t, v. split_and!.
    + pose proof (injectDependencies_asks (prioInject sch) s1) as [_ Hq]. rewrite Hj in Hq.
      exact (Hq d _ Hbd Hnone1).
    + unfold callOutcome. rewrite Hlp. cbn. by rewrite Hcall.
    + exact (Hn d _ Hbd Hnone1).
    + done.
    + intros Hrec Hkeep b' e l i sf Hb' Hinst' Hsf Hsel Hty.
      assert (b' = b1) as -> by congruence.
      assert (beans s' !! k = Some b1) as Hks' by (by rewrite Hbeans', Hbeans).
      destruct (Build_Ok_fieldHolds sch s s' Hwf Hrec Hkeep Hb HB k b1 d Hks')
        as (bd' & Hbd' & Hf); [by rewrite Hdeps|].
      rewrite Hbeans', Hbeans, Hbd in Hbd'. injection Hbd' as <-.
      rewrite <- Hheap'. apply (Hf e l i sf Hinst' Hsf Hsel); [done|].
      cbn [beanType]. destruct t; try discriminate. by intros [].
Qed.

(** ** The fields after a build *)

(** X20. After a build that succeeds, with initializers that leave the heap
    as it is, every dependency of a registered receiver is registered, and
    the fields of the receiver that the dependency selects and that have the
    type of the dependency hold its instance, unless that type is a pointer
    to a struct without fields. *)
Theorem fields_are_injected sch s s' :
  wf s → receiversOk env s → initializersKeepHeap env → built (cont s) = false →
  Build env sch s = (Ok tt, s') →
  ∀ k b d, beans s' !! k = Some b → d ∈ depsOf b → fieldHolds env s' b d.
Proof. apply Build_Ok_fieldHolds. Qed.

End Further.


(** * The further properties on the scenarios *)

Lemma stringsRegistered_decide (s : State) :
  bool_decide (map_Forall (λ k t, kind t = KString → is_Some (beans s !! k)) (required s))
  = true →
  stringsRegistered s.
Proof. intros H. apply bool_decide_eq_true_1 in H. exact H. Qed.

Lemma registration_outcomes_witness :
  ∃ e, Register plainEnv "Name" (Some TString) initState = (Err e, initState)
       ∧ e ∈ [ErrBeanIdParamIsEmpty; ErrBeanTypeParamIsNil; ErrRegistrationClosed;
              ErrBeanTypeNotSupported].
Proof.
  destruct (registration_outcomes plainEnv "Name" initState) as [H _].
  destruct (H (Some TString)) as [_ H2]. apply H2. discriminate.
Defined.

Lemma checkForDependency_records_witness :
  (checkForDependency plainEnv (TPtr (TStruct "Service")) ∅).1
  = Ok (true, ["servicebeanconfig"; "servicebeanlogger"]).
Proof.
  assert (checkForDependency plainEnv (TPtr (TStruct "Service")) ∅
          = (Ok (bool_decide (omap wanted (fieldsOf plainEnv (TStruct "Service")) ≠ []),
                 (omap wanted (fieldsOf plainEnv (TStruct "Service"))).*1),
             recordAll ∅ (omap wanted (fieldsOf plainEnv (TStruct "Service"))))) as H
    by exact (checkForDependency_records plainEnv (TPtr (TStruct "Service")) ∅).
  rewrite H. vm_compute. reflexivity.
Defined.

Lemma registry_invariant_witness :
  regInv initState
  ∧ regInv (Register plainEnv "A" (Some (TPtr (TStruct "cycleA"))) initState).2.
Proof.
  split; [exact regInv_initState|].
  destruct (registry_invariant plainEnv initState regInv_initState) as [H _]. apply H.
Defined.

Lemma build_keeps_registrations_witness :
  wf cycleState
  ∧ required (Build plainEnv sch0 cycleState).2 = required cycleState
  ∧ dom (beans (Build plainEnv sch0 cycleState).2) = dom (beans cycleState).
Proof.
  assert (wf cycleState) as Hwf by (apply wf_decide; vm_compute; reflexivity).
  destruct (build_keeps_registrations plainEnv sch0 cycleState _ _ Hwf (surjective_pairing _))
    as (H1 & _ & _ & _ & H5 & _).
  split_and!; [exact Hwf|exact H1|by apply H5].
Defined.

Lemma build_is_idempotent_witness :
  (Build (providerEnv (VInt 7)) sch0 (providerState (VInt 7))).1
  = Panic "reflect.Set: value is not assignable to the field type"
  ∧ built (cont (Build (providerEnv (VInt 7)) sch0 (providerState (VInt 7))).2) = true.
Proof.
  assert ((Build (providerEnv (VInt 7)) sch0 (providerState (VInt 7))).1
          = Panic "reflect.Set: value is not assignable to the field type") as Hp
    by (vm_compute; reflexivity).
  split; [exact Hp|].
  destruct (build_is_idempotent (providerEnv (VInt 7)) sch0 (providerState (VInt 7)) _ _
              (run_result _ _ Hp)) as [H _]; [right; by eexists|exact H].
Defined.

Lemma ResolveSafe_builds_first_witness :
  (Build plainEnv sch0 serviceState).1 = Ok tt
  ∧ built (cont (Build plainEnv sch0 serviceState).2) = true
  ∧ (ResolveSafe plainEnv sch0 "Missing" serviceState).1 = Err "bean 'missing' not found".
Proof.
  assert ((Build plainEnv sch0 serviceState).1 = Ok tt) as Hok by (vm_compute; reflexivity).
  assert ("Missing" ≠ emptyString) as Hid by discriminate.
  destruct (ResolveSafe_builds_first plainEnv sch0 "Missing" serviceState _ _ Hid
              (run_result _ _ Hok)) as [Hb HR].
  split_and!; [exact Hok|exact Hb|]. rewrite HR. vm_compute. reflexivity.
Defined.

Lemma ResolveSafe_is_stable_witness :
  (ResolveSafe plainEnv sch0 "ServiceBean" serviceState).1
  = Ok (VPtr (TStruct "Service") (Some 2))
  ∧ ResolveSafe plainEnv sch0 "SERVICEBEAN"
      (ResolveSafe plainEnv sch0 "ServiceBean" serviceState).2
    = (Ok (VPtr (TStruct "Service") (Some 2)),
       (ResolveSafe plainEnv sch0 "ServiceBean" serviceState).2).
Proof.
  assert ((ResolveSafe plainEnv sch0 "ServiceBean" serviceState).1
          = Ok (VPtr (TStruct "Service") (Some 2))) as Hok by (vm_compute; reflexivity).
  split; [exact Hok|].
  destruct (ResolveSafe_is_stable plainEnv sch0 "ServiceBean" serviceState _ _
              (run_result _ _ Hok)) as (_ & _ & H).
  apply H. vm_compute. reflexivity.
Defined.

Lemma Resolve_panics_on_error_witness :
  Resolve plainEnv sch0 emptyString initState = (Panic ErrBeanIdParamIsEmpty, initState).
Proof.
  destruct (Resolve_panics_on_error plainEnv sch0 emptyString initState) as (_ & H & _).
  apply H. reflexivity.
Defined.

Lemma ResolveAs_registered_type_witness :
  regInv loggerState
  ∧ (Build plainEnv sch0 loggerState).1 = Ok tt
  ∧ ResolveAs plainEnv (TPtr (TStruct "Logger")) sch0 "Logger" loggerState
    = (Ok (VPtr (TStruct "Logger") (Some 0)), (Build plainEnv sch0 loggerState).2)
  ∧ ResolveAs plainEnv TString sch0 "Logger" loggerState
    = (Err "bean 'Logger' is not of requested type", (Build plainEnv sch0 loggerState).2).
Proof.
  assert (regInv loggerState) as Hinv by (apply regInv_Register, regInv_initState).
  assert ((Build plainEnv sch0 loggerState).1 = Ok tt) as Hok by (vm_compute; reflexivity).
  assert ("Logger" ≠ emptyString) as Hid by discriminate.
  destruct (ResolveAs_registered_type plainEnv sch0 "Logger" loggerState _
              (mkBean "logger" (TPtr (TStruct "Logger")) (VPtr (TStruct "Logger") (Some 0))
                      true false [])
              Hinv Hid (run_result _ _ Hok)) as (H1 & H2 & _);
    [vm_compute; reflexivity|reflexivity|].
  split_and!; [exact Hinv|exact Hok|exact H1|]. apply H2; discriminate.
Defined.

Lemma register_build_resolve_witness :
  (Build plainEnv sch0 loggerState).1 = Ok tt
  ∧ ∃ e l, normalizeType (TStruct "Logger") = TPtr e
           ∧ ResolveSafe plainEnv sch0 "LOGGER" (Build plainEnv sch0 loggerState).2
             = (Ok (VPtr e (Some l)), (Build plainEnv sch0 loggerState).2).
Proof.
  assert ((Build plainEnv sch0 loggerState).1 = Ok tt) as Hok by (vm_compute; reflexivity).
  split; [exact Hok|].
  assert (wf initState) as Hwf by (apply wf_decide; vm_compute; reflexivity).
  assert ("Logger" ≠ emptyString) as Hid by discriminate.
  destruct (register_build_resolve plainEnv sch0 initState "Logger" Hwf eq_refl Hid)
    as [H _].
  exact (H (TStruct "Logger") _ (or_intror eq_refl) (run_result _ _ Hok) sch0 "LOGGER"
           eq_refl).
Defined.

Lemma struct_registration_is_pointer_registration_witness :
  Register plainEnv "Logger" (Some (TStruct "Logger")) initState
  = Register plainEnv "Logger" (Some (TPtr (TStruct "Logger"))) initState.
Proof.
  destruct (struct_registration_is_pointer_registration plainEnv "Logger" initState)
    as [H _].
  apply H. reflexivity.
Defined.

Lemma joinPath_is_Join_witness : joinPath ["a"; "b"] "a" = "a -> b -> a".
Proof.
  rewrite joinPath_is_Join; [reflexivity|].
  apply Forall_cons; split; [discriminate|]. apply Forall_cons; split; [discriminate|].
  apply Forall_nil_2.
Defined.

Lemma validation_is_order_independent_witness :
  (validate plainEnv [] cycleMissingState).1 = Ok tt
  ↔ (validate plainEnv ["servicebeanlogger"] cycleMissingState).1 = Ok tt.
Proof.
  destruct (validation_is_order_independent plainEnv [] ["servicebeanlogger"]
              cycleMissingState) as (_ & _ & H & _).
  exact H.
Defined.

Lemma injectIntoStruct_guards_witness :
  injectIntoStruct plainEnv valueReceiver stepDependency ["servicebean"] stepHeap
  = (Ok tt, stepHeap).
Proof.
  destruct (injectIntoStruct_guards plainEnv valueReceiver stepDependency ["servicebean"]
              stepHeap) as [_ H].
  assert (beanID stepDependency ∉ ["servicebean"]) as Hch.
  { intros Hin. apply list_elem_of_singleton in Hin. discriminate. }
  destruct (H Hch) as (_ & _ & H3). by eapply H3.
Defined.

Lemma provider_not_called_witness :
  wf serviceState
  ∧ providerCalls (Build plainEnv sch0 serviceState).2 = providerCalls serviceState.
Proof.
  assert (wf serviceState) as Hwf by (apply wf_decide; vm_compute; reflexivity).
  split; [exact Hwf|].
  apply (provider_not_called plainEnv sch0 serviceState _ _ Hwf (surjective_pairing _)).
  left. reflexivity.
Defined.

Lemma empty_annotation_fails_build_witness :
  emptyString ∈ (wantedOf emptyTagEnv (TPtr (TStruct "Holder"))).*1
  ∧ ∃ e, Build emptyTagEnv sch0 (Register emptyTagEnv "Holder" (Some (TStruct "Holder"))
                                   initState).2
         = (Err e, (Register emptyTagEnv "Holder" (Some (TStruct "Holder")) initState).2).
Proof.
  assert (emptyString ∈ (wantedOf emptyTagEnv (TPtr (TStruct "Holder"))).*1) as Hin.
  { vm_compute. by left. }
  split; [exact Hin|].
  assert ("Holder" ≠ emptyString) as Hid by discriminate.
  destruct (empty_annotation_fails_build emptyTagEnv "Holder" "Holder" initState
              eq_refl Hid eq_refl eq_refl Hin) as [_ H].
  apply H.
Defined.

Lemma provider_is_irrelevant_witness :
  wf serviceState ∧ stringsRegistered serviceState
  ∧ Build (SetLiteralProvider (Some (workdirProvider (VStr "/srv"))) plainEnv) sch0
      serviceState
    = Build plainEnv sch0 serviceState.
Proof.
  assert (wf serviceState) as Hwf by (apply wf_decide; vm_compute; reflexivity).
  assert (stringsRegistered serviceState) as Hs
    by (apply stringsRegistered_decide; vm_compute; reflexivity).
  split_and!; [exact Hwf|exact Hs|].
  destruct (provider_is_irrelevant plainEnv (Some (workdirProvider (VStr "/srv")))
              serviceState) as (_ & _ & H).
  by apply H.
Defined.

Lemma createInstance_result_witness :
  ∃ e, normalizeType (TStruct "Logger") = TPtr e
       ∧ (createInstance plainEnv (TStruct "Logger") []).1 = Ok (VPtr e (Some 0)).
Proof.
  pose proof (createInstance_result plainEnv (TStruct "Logger") []) as H.
  destruct (createInstance plainEnv (TStruct "Logger") []) as [[v| | |] h'] eqn:Hc;
    try discriminate.
  destruct H as (e & He & -> & _). exists e. split; [exact He|reflexivity].
Defined.

Lemma dependencies_are_registered_witness :
  regInv pairState
  ∧ (validate plainEnv [] pairState).1 = Ok tt
  ∧ ∃ t, required pairState !! "orderb" = Some t
         ∧ match beans pairState !! "orderb" with
           | Some bd => specCompatible plainEnv t (beanType bd)
           | None => kind t = KString ∧ is_Some (envProvider plainEnv)
           end.
Proof.
  assert (regInv pairState) as Hinv
    by (apply regInv_Register, regInv_Register, regInv_initState).
  assert ((validate plainEnv [] pairState).1 = Ok tt) as Hv by (vm_compute; reflexivity).
  split_and!; [exact Hinv|exact Hv|].
  apply (dependencies_are_registered plainEnv [] pairState Hinv Hv "ordera"
           (mkBean "ordera" (TPtr (TStruct "orderA")) VNil false true ["orderb"]));
    [vm_compute; reflexivity|by left].
Defined.


(** ** The literal provider *)

Lemma receiversOk_unset env (s : State) :
  bool_decide (map_Forall (λ _ b, hasDependencies b = true → isNil (instance b) = true)
                          (beans s)) = true →
  receiversOk env s.
Proof.
  intros H%bool_decide_eq_true_1 k b e l Hb Hhas Hinst.
  specialize (H k b Hb Hhas). rewrite Hinst in H. discriminate.
Qed.

Lemma orderInits_keepHeap failing : initializersKeepHeap (orderEnv failing).
Proof.
  intros t f v h Hf. cbn in Hf. unfold orderInits in Hf.
  destruct t as [| | | |e]; try discriminate. destruct e; try discriminate.
  destruct (bool_decide _); [|discriminate]. injection Hf as <-. reflexivity.
Qed.

Lemma providerEnv_keepHeap v : initializersKeepHeap (providerEnv v).
Proof. intros t f x h Hf. discriminate. Qed.

(** The provider tests: the working directory is asked from the provider,
    and the field of the configuration holds what the provider returned. *)
Lemma literal_provider_protocol_witness :
  let env := providerEnv (VStr "/workspace") in
  let s := providerState (VStr "/workspace") in
  wf s ∧ built (cont s) = false
  ∧ (Build env sch0 s).1 = Ok tt
  ∧ newCalls s (Build env sch0 s).2 = [("workingdir", TString)]
  ∧ beans s !! "workingdir" = None ∧ required s !! "workingdir" = Some TString
  ∧ receiversOk env s ∧ initializersKeepHeap env
  ∧ instance <$> beans (Build env sch0 s).2 !! "servicebeanconfig"
    = Some (VPtr (TStruct "Config") (Some 1))
  ∧ ∃ n fs, heap (Build env sch0 s).2 !! 1 = Some (VStruct n fs)
            ∧ fs !! 0 = Some (VStr "/workspace").
Proof.
  intros env s.
  assert (wf s) as Hwf by (apply wf_decide; vm_compute; reflexivity).
  assert (built (cont s) = false) as Hb by reflexivity.
  assert ((Build env sch0 s).1 = Ok tt) as Hok by (vm_compute; reflexivity).
  assert (newCalls s (Build env sch0 s).2 = [("workingdir", TString)]) as Hc
    by (vm_compute; reflexivity).
  assert (receiversOk env s) as Hrec by (apply receiversOk_unset; vm_compute; reflexivity).
  pose proof (providerEnv_keepHeap (VStr "/workspace")) as Hkeep.
  destruct (literal_provider_protocol env sch0 s _ _ Hwf Hb (run_result _ _ Hok))
    as (_ & _ & H3 & H4).
  destruct (H3 ("workingdir", TString)) as (H31 & H32 & _); [rewrite Hc; by left|].
  split_and!; [exact Hwf|exact Hb|exact Hok|exact Hc|exact H31|exact H32|exact Hrec
              |exact Hkeep|vm_compute; reflexivity|].
  destruct (H4 eq_refl "servicebeanconfig"
              (mkBean "servicebeanconfig" (TPtr (TStruct "Config")) VNil false true
                      ["workingdir"])
              "workingdir")
    as (t & v & Hin & Hout & _ & _ & Hfields);
    [vm_compute; reflexivity|by left|exact H31|].
  rewrite Hc in Hin. apply list_elem_of_singleton in Hin. injection Hin as ->.
  assert (v = VStr "/workspace") as -> by (vm_compute in Hout; congruence).
  apply (Hfields Hrec Hkeep
           (mkBean "servicebeanconfig" (TPtr (TStruct "Config"))
                   (VPtr (TStruct "Config") (Some 1)) true true ["workingdir"])
           (TStruct "Config") 1 0 (field "WorkingDir" TString "WorkingDir"));
    [vm_compute; reflexivity|reflexivity|reflexivity|split; reflexivity|reflexivity].
Defined.

(** A provider that reports the working directory as found and returns no
    value for it: the build fails, with the error that the dependency is not
    instantiated.  A provider that returns a number for it: the value found
    is not nil, and the build panics when the value is stored in the field. *)
Lemma literal_provider_protocol_counterexample :
  workdirProvider VNil "workingdir" TString = (VNil, true, None)
  ∧ beans (providerState VNil) !! "workingdir" = None
  ∧ newCalls (providerState VNil) (Build (providerEnv VNil) sch0 (providerState VNil)).2
    = [("workingdir", TString)]
  ∧ (Build (providerEnv VNil) sch0 (providerState VNil)).1
    = Err ("injectDependencies: dependency bean 'workingdir' for 'servicebeanconfig' "
           +:+ "receiver bean not instantiated")
  ∧ workdirProvider (VInt 7) "workingdir" TString = (VInt 7, true, None)
  ∧ isNil (VInt 7) = false
  ∧ (Build (providerEnv (VInt 7)) sch0 (providerState (VInt 7))).1
    = Panic "reflect.Set: value is not assignable to the field type".
Proof. split_and!; vm_compute; reflexivity. Qed.

(** ** The fields after a build *)

Lemma fields_are_injected_witness :
  wf orderState ∧ receiversOk (orderEnv []) orderState
  ∧ initializersKeepHeap (orderEnv [])
  ∧ (Build (orderEnv []) sch0 orderState).1 = Ok tt
  ∧ fieldHolds (orderEnv []) (Build (orderEnv []) sch0 orderState).2
      (mkBean "orderc" (TPtr (TStruct "orderC")) (VPtr (TStruct "orderC") (Some 0)) true true
              ["ordera"])
      "ordera".
Proof.
  assert (wf orderState) as Hwf by (apply wf_decide; vm_compute; reflexivity).
  assert (receiversOk (orderEnv []) orderState) as Hrec
    by (apply receiversOk_unset; vm_compute; reflexivity).
  pose proof (orderInits_keepHeap []) as Hkeep.
  assert ((Build (orderEnv []) sch0 orderState).1 = Ok tt) as Hok
    by (vm_compute; reflexivity).
  split_and!; [exact Hwf|exact Hrec|exact Hkeep|exact Hok|].
  apply (fields_are_injected (orderEnv []) sch0 orderState _ Hwf Hrec Hkeep eq_refl
           (run_result _ _ Hok) "orderc");
    [vm_compute; reflexivity|by left].
Defined.
